(** * pytorch_optimizer: the AdaBound and Yogi update rules

    A shallow embedding of [pytorch_optimizer/optimizer/adabound.py] and
    [pytorch_optimizer/optimizer/yogi.py].

    Conventions of the embedding.
    - A tensor is the list of its elements; every tensor primitive used by
      the two optimizers is elementwise.  Elements and Python floats are
      idealised as real numbers, so rounding, infinities and NaN (what the
      tensor library yields for [x / 0] or the root of a negative element)
      are outside the model.  The properties that read a quotient or a
      root therefore assume non-zero divisors and non-negative radicands.
    - A complex tensor is the list of its elements as pairs of reals;
      Yogi selects the sign function by [torch.is_complex], here by the
      type of the tensor.
    - Python-level scalar operations that raise are kept fallible:
      float division raises [ZeroDivisionError], [math.sqrt] raises
      [ValueError], a missing dictionary key raises [KeyError].
    - Both optimizers mutate parameters, gradients and accumulators in
      place and have no rollback: a step yields the store as it is when
      the call returns or raises, together with the outcome. *)

From Stdlib Require Import Reals Lra Lia List Bool Arith.
Import ListNotations.
Open Scope R_scope.

(** ** Exceptions and results *)

Inductive exn : Type :=
| NoSparseGradientError
| KeyError
| ZeroDivisionError
| ValueError.

Inductive result (A : Type) : Type :=
| Ok (a : A)
| Raise (e : exn).
Arguments Ok {A} a.
Arguments Raise {A} e.

(** What a call of [step] does: return the loss, or propagate an exception. *)
Inductive outcome : Type :=
| Returned (loss : option R)
| Raised (e : exn).

(** ** Python float primitives *)

(** [a / b] on floats. *)
Definition py_div (a b : R) : result R :=
  if Req_dec_T b 0 then Raise ZeroDivisionError else Ok (a / b).

(** [math.sqrt(x)]. *)
Definition math_sqrt (x : R) : result R :=
  if Rlt_dec x 0 then Raise ValueError else Ok (sqrt x).

(** ** Tensor primitives *)

Definition tensor : Type := list R.

Fixpoint map2 (f : R -> R -> R) (a b : tensor) : tensor :=
  match a, b with
  | x :: a', y :: b' => f x y :: map2 f a' b'
  | _, _ => []
  end.

(** [torch.zeros_like(p)], [torch.full_like(p, c)]. *)
Definition zeros_like (p : tensor) : tensor := map (fun _ => 0) p.
Definition full_like (p : tensor) (c : R) : tensor := map (fun _ => c) p.

(** [a.mul_(c)], [a.add(c)], [a.div_(c)] with a scalar [c].  Tensor
    division does not raise: on floats a zero divisor gives an infinity
    or a NaN, which the reals do not have, and [x / 0] is [0] here.  The
    model agrees with the code where the divisor is not zero, and the
    properties below that read a quotient assume it. *)
Definition mul_ (a : tensor) (c : R) : tensor := map (fun x => x * c) a.
Definition add_scalar (a : tensor) (c : R) : tensor := map (fun x => x + c) a.
Definition div_scalar (a : tensor) (c : R) : tensor := map (fun x => x / c) a.

(** [a.add_(b, alpha=c)]: [a + c * b]. *)
Definition add_ (a b : tensor) (alpha : R) : tensor :=
  map2 (fun x y => x + alpha * y) a b.

(** [a.mul(b)], [a - b], [a.div_(b)], [a.mul_(b)] with a tensor [b];
    [div_] agrees with the code on non-zero divisors only, as
    [div_scalar] does. *)
Definition mul (a b : tensor) : tensor := map2 Rmult a b.
Definition sub (a b : tensor) : tensor := map2 Rminus a b.
Definition div_ (a b : tensor) : tensor := map2 Rdiv a b.

(** [a.addcmul_(t1, t2, value=v)]: [a + v * t1 * t2]. *)
Definition addcmul_ (a t1 t2 : tensor) (value : R) : tensor :=
  map2 (fun x y => x + value * y) a (mul t1 t2).

(** [a.addcdiv_(t1, t2, value=v)]: [a + v * t1 / t2]. *)
Definition addcdiv_ (a t1 t2 : tensor) (value : R) : tensor :=
  map2 (fun x y => x + value * y) a (div_ t1 t2).

(** [a.sqrt_()], [a.neg_()], [-a].  The square root of a negative
    float is a NaN; [sqrt] is [0] there, and agrees with the code on
    non-negative elements. *)
Definition sqrt_ (a : tensor) : tensor := map sqrt a.
Definition neg_ (a : tensor) : tensor := map Ropp a.

(** [torch.max(a, b, out=a)]. *)
Definition torch_max (a b : tensor) : tensor := map2 Rmax a b.

(** [a.clamp_(lo, hi)]: [min(max(x, lo), hi)] on every element. *)
Definition clamp1 (lo hi x : R) : R := Rmin (Rmax x lo) hi.
Definition clamp_ (a : tensor) (lo hi : R) : tensor := map (clamp1 lo hi) a.

(** [a.sign_()] on a real tensor: -1, 0 or 1. *)
Definition sign1 (x : R) : R :=
  if Rlt_dec x 0 then -1 else if Rlt_dec 0 x then 1 else 0.
Definition sign_ (a : tensor) : tensor := map sign1 a.

(** ** Complex tensors *)

(** The elements of a complex tensor, as pairs of a real and an
    imaginary part, with the arithmetic of [torch] on them. *)
Definition complex : Type := (R * R)%type.

Definition Cadd (z w : complex) : complex :=
  (fst z + fst w, snd z + snd w).
Definition Csub (z w : complex) : complex :=
  (fst z - fst w, snd z - snd w).
Definition Cmul (z w : complex) : complex :=
  (fst z * fst w - snd z * snd w, fst z * snd w + snd z * fst w).
Definition Cscale (c : R) (z : complex) : complex :=
  (c * fst z, c * snd z).
Definition Cabs (z : complex) : R :=
  sqrt (fst z * fst z + snd z * snd z).

(** [z / w], meaningful for [w <> 0]. *)
Definition Cdiv (z w : complex) : complex :=
  let n := fst w * fst w + snd w * snd w in
  ((fst z * fst w + snd z * snd w) / n,
   (snd z * fst w - fst z * snd w) / n).

(** [torch.sgn]: [0] when [|z| = 0], and [z / |z|] otherwise. *)
Definition Csgn (z : complex) : complex :=
  if Req_dec_T (Cabs z) 0 then (0, 0) else Cscale (/ Cabs z) z.

(** [torch.sqrt] on a complex number: the principal square root. *)
Definition Csqrt (z : complex) : complex :=
  (sqrt ((Cabs z + fst z) / 2),
   (if Rlt_dec (snd z) 0 then -1 else 1) * sqrt ((Cabs z - fst z) / 2)).

Definition ctensor : Type := list complex.

Fixpoint cmap2 (f : complex -> complex -> complex) (a b : ctensor)
  : ctensor :=
  match a, b with
  | x :: a', y :: b' => f x y :: cmap2 f a' b'
  | _, _ => []
  end.

(** The operations of [Yogi.step] on complex tensors; scalars stay
    real. *)
Definition cmul_ (a : ctensor) (c : R) : ctensor := map (Cscale c) a.
Definition cadd_scalar (a : ctensor) (c : R) : ctensor :=
  map (fun z => Cadd z (c, 0)) a.
Definition cdiv_scalar (a : ctensor) (c : R) : ctensor :=
  map (fun z => (fst z / c, snd z / c)) a.
Definition cadd_ (a b : ctensor) (alpha : R) : ctensor :=
  cmap2 (fun x y => Cadd x (Cscale alpha y)) a b.
Definition cmul (a b : ctensor) : ctensor := cmap2 Cmul a b.
Definition csub (a b : ctensor) : ctensor := cmap2 Csub a b.
Definition cdiv_ (a b : ctensor) : ctensor := cmap2 Cdiv a b.
Definition caddcmul_ (a t1 t2 : ctensor) (value : R) : ctensor :=
  cmap2 (fun x y => Cadd x (Cscale value y)) a (cmul t1 t2).
Definition caddcdiv_ (a t1 t2 : ctensor) (value : R) : ctensor :=
  cmap2 (fun x y => Cadd x (Cscale value y)) a (cdiv_ t1 t2).
Definition csqrt_ (a : ctensor) : ctensor := map Csqrt a.
Definition sgn_ (a : ctensor) : ctensor := map Csgn a.

(** ** Parameters and gradients *)

(** [p.grad] when it is not [None]: its layout flag and its values. *)
Record Grad : Type := mkGrad {
  is_sparse : bool;
  g_values : tensor
}.

(** A parameter: its identity (the key of [self.state]), its values and
    its gradient. *)
Record Param : Type := mkParam {
  p_id : nat;
  p_data : tensor;
  p_grad : option Grad
}.

(** [p.grad = ...], as the host does between two steps. *)
Definition set_grad (f : nat -> option Grad) (p : Param) : Param :=
  mkParam (p_id p) (p_data p) (f (p_id p)).

(** A group counter after one more call of [step]: created at 1, then
    incremented. *)
Definition advance (c : option nat) : option nat :=
  match c with
  | Some n => Some (n + 1)%nat
  | None => Some 1%nat
  end.

(** No parameter of the list has a gradient. *)
Definition no_grads (ps : list Param) : Prop :=
  Forall (fun p => p_grad p = None) ps.

(** ** The per-parameter state dictionary [self.state]

    A [defaultdict(dict)] keyed by parameter identity, kept as an
    association list.  [getitem] is [self.state[p]]: it inserts the empty
    dictionary when the key is missing. *)

Section Store.
Variable S : Type.
Variable empty : S.

Definition store : Type := list (nat * S).

Fixpoint lookup (k : nat) (st : store) : option S :=
  match st with
  | [] => None
  | (k', v) :: r => if Nat.eqb k k' then Some v else lookup k r
  end.

Fixpoint assign (k : nat) (v : S) (st : store) : store :=
  match st with
  | [] => [(k, v)]
  | (k', v') :: r =>
      if Nat.eqb k k' then (k, v) :: r else (k', v') :: assign k v r
  end.

Definition getitem (k : nat) (st : store) : store * S :=
  match lookup k st with
  | Some v => (st, v)
  | None => (assign k empty st, empty)
  end.

(** Every entry of the dictionary satisfies [P]. *)
Definition store_all (P : S -> Prop) (st : store) : Prop :=
  Forall (fun e => P (snd e)) st.

(** Number of entries filed under [k]. *)
Definition entries (k : nat) (st : store) : nat :=
  length (filter (fun e => Nat.eqb k (fst e)) st).
End Store.

Arguments lookup {S} k st.
Arguments assign {S} k v st.
Arguments getitem {S} empty k st.
Arguments entries {S} k st.
Arguments store_all {S} P st.

(** An accumulator, when present, has no negative element. *)
Definition nonneg (a : option tensor) : Prop :=
  match a with
  | Some v => Forall (Rle 0) v
  | None => True
  end.

(** ** AdaBound ([adabound.py]) *)

Module AdaBound.

(** A parameter group: the [defaults] of [__init__], the group's
    parameters and its step counter ([group['step']], absent until the
    first call of [step]). *)
Record Group : Type := mkGroup {
  lr : R;
  betas : R * R;
  final_lr : R;
  gamma : R;
  weight_decay : R;
  weight_decouple : bool;
  fixed_decay : bool;
  ams_bound : bool;
  adam_debias : bool;
  eps : R;
  gr_step : option nat;
  params : list Param
}.

Definition set_step (g : Group) (t : nat) : Group :=
  mkGroup (lr g) (betas g) (final_lr g) (gamma g) (weight_decay g)
          (weight_decouple g) (fixed_decay g) (ams_bound g) (adam_debias g)
          (eps g) (Some t) (params g).

Definition set_params (g : Group) (ps : list Param) : Group :=
  mkGroup (lr g) (betas g) (final_lr g) (gamma g) (weight_decay g)
          (weight_decouple g) (fixed_decay g) (ams_bound g) (adam_debias g)
          (eps g) (gr_step g) ps.

(** [self.state[p]]: a dictionary with the keys ['step'], ['exp_avg'],
    ['exp_avg_sq'] and ['max_exp_avg_sq'], each possibly missing. *)
Record State : Type := mkState {
  st_step : option nat;
  exp_avg : option tensor;
  exp_avg_sq : option tensor;
  max_exp_avg_sq : option tensor
}.

Definition no_state : State := mkState None None None None.

(** [len(state) == 0]. *)
Definition len0 (s : State) : bool :=
  match st_step s, exp_avg s, exp_avg_sq s, max_exp_avg_sq s with
  | None, None, None, None => true
  | _, _, _, _ => false
  end.

(** The optimizer object: the attributes set by [__init__], the groups,
    the learning rates recorded at construction and the state dictionary. *)
Record Optimizer : Type := mkOptimizer {
  self_lr : R;
  self_betas : R * R;
  self_weight_decay : R;
  self_eps : R;
  param_groups : list Group;
  base_lrs : list R;
  state : store State
}.

(** The scalars computed once per group in [step] (lines 99-106). *)
Record Scalars : Type := mkScalars {
  bias_correction1 : R;
  bias_correction2_sq : R;
  lower_bound : R;
  upper_bound : R
}.

(** Python's [beta ** step] raises OverflowError when the power leaves
    the range of floats, which needs [|beta| > 1]; powers are exact
    here, so [scalars] agrees with the code for betas in [[-1, 1]], which
    contains the range [[0, 1)] the constructor validates. *)
Definition scalars (g : Group) (base_lr : R) (t : nat) : result Scalars :=
  let (beta1, beta2) := betas g in
  let bc1 := 1 - beta1 ^ t in
  match math_sqrt (1 - beta2 ^ t) with
  | Raise e => Raise e
  | Ok bc2 =>
  match py_div (final_lr g * lr g) base_lr with
  | Raise e => Raise e
  | Ok flr =>
  match py_div 1 (gamma g * INR t + 1) with
  | Raise e => Raise e
  | Ok q1 =>
  match py_div 1 (gamma g * INR t) with
  | Raise e => Raise e
  | Ok q2 => Ok (mkScalars bc1 bc2 (flr * (1 - q1)) (flr * (1 + q2)))
  end end end end.

(** Lazy creation of the accumulators (lines 118-122). *)
Definition init_state (g : Group) (p : Param) (s : State) : State :=
  if len0 s then
    mkState (st_step s)
            (Some (zeros_like (p_data p)))
            (Some (zeros_like (p_data p)))
            (if ams_bound g then Some (zeros_like (p_data p))
             else max_exp_avg_sq s)
  else s.

(** Weight decay (lines 124-127): the new parameter and gradient values. *)
Definition decay (g : Group) (pd gv : tensor) : tensor * tensor :=
  if weight_decouple g then
    (mul_ pd (1 - weight_decay g * (if fixed_decay g then 1 else lr g)), gv)
  else if Rlt_dec 0 (weight_decay g) then
    (pd, add_ gv pd (weight_decay g))
  else (pd, gv).

(** The scalar step size (lines 143-145). *)
Definition step_size_scalar (g : Group) (k : Scalars) : result R :=
  let ss := lr g * bias_correction2_sq k in
  if adam_debias g then Ok ss else py_div ss (bias_correction1 k).

(** The step-size tensor (lines 147-148). *)
Definition step_size_tensor (k : Scalars) (ss : R) (de_nom m : tensor)
  : tensor :=
  mul (clamp_ (div_ (full_like de_nom ss) de_nom)
              (lower_bound k) (upper_bound k)) m.

(** The body of the loop over [group['params']] (lines 109-150): the
    state dictionary and the parameter as they are when the body ends
    or raises. *)
Definition update (g : Group) (k : Scalars) (st : store State) (p : Param)
  : store State * Param * option exn :=
  match p_grad p with
  | None => (st, p, None)
  | Some grad =>
    if is_sparse grad then (st, p, Some NoSparseGradientError) else
    let (st0, s0) := getitem no_state (p_id p) st in
    let s1 := init_state g p s0 in
    let (pd, gv) := decay g (p_data p) (g_values grad) in
    let p1 := mkParam (p_id p) pd (Some (mkGrad false gv)) in
    let (beta1, beta2) := betas g in
    match exp_avg s1, exp_avg_sq s1 with
    | Some m, Some v =>
      let m' := add_ (mul_ m beta1) gv (1 - beta1) in
      let v' := addcmul_ (mul_ v beta2) gv gv (1 - beta2) in
      let s2 := mkState (st_step s1) (Some m') (Some v')
                        (max_exp_avg_sq s1) in
      let den : result (State * tensor) :=
        if ams_bound g then
          match max_exp_avg_sq s2 with
          | None => Raise KeyError
          | Some mx =>
            let mx' := torch_max mx v' in
            Ok (mkState (st_step s2) (Some m') (Some v') (Some mx'),
                add_scalar mx' (eps g))
          end
        else Ok (s2, add_scalar v' (eps g)) in
      match den with
      | Raise e => (assign (p_id p) s2 st0, p1, Some e)
      | Ok (s3, de_nom0) =>
        let de_nom := sqrt_ de_nom0 in
        match step_size_scalar g k with
        | Raise e => (assign (p_id p) s3 st0, p1, Some e)
        | Ok ss =>
          let step_size := step_size_tensor k ss de_nom m' in
          (assign (p_id p) s3 st0,
           mkParam (p_id p) (add_ pd (neg_ step_size) 1)
                   (Some (mkGrad false gv)),
           None)
        end
      end
    | _, _ => (assign (p_id p) s1 st0, p1, Some KeyError)
    end
  end.

(** [for p in group['params']: ...]. *)
Fixpoint step_params (g : Group) (k : Scalars) (st : store State)
         (ps : list Param) : store State * list Param * option exn :=
  match ps with
  | [] => (st, [], None)
  | p :: rest =>
    match update g k st p with
    | (st1, p1, Some e) => (st1, p1 :: rest, Some e)
    | (st1, p1, None) =>
      match step_params g k st1 rest with
      | (st2, rest2, e) => (st2, p1 :: rest2, e)
      end
    end
  end.

(** The counter after [group['step'] += 1] or [group['step'] = 1]. *)
Definition next_step (g : Group) : nat :=
  match gr_step g with
  | Some n => (n + 1)%nat
  | None => 1%nat
  end.

(** The body of the loop over the groups (lines 94-150). *)
Definition step_group (st : store State) (g : Group) (base_lr : R)
  : store State * Group * option exn :=
  let g1 := set_step g (next_step g) in
  match scalars g1 base_lr (next_step g) with
  | Raise e => (st, g1, Some e)
  | Ok k =>
    match step_params g1 k st (params g1) with
    | (st1, ps1, e) => (st1, set_params g1 ps1, e)
    end
  end.

(** [for group, base_lr in zip(self.param_groups, self.base_lrs): ...]. *)
Fixpoint step_groups (st : store State) (gs : list Group) (bl : list R)
  : store State * list Group * option exn :=
  match gs, bl with
  | g :: gs', b :: bl' =>
    match step_group st g b with
    | (st1, g1, Some e) => (st1, g1 :: gs', Some e)
    | (st1, g1, None) =>
      match step_groups st1 gs' bl' with
      | (st2, gs2, e) => (st2, g1 :: gs2, e)
      end
    end
  | _, _ => (st, gs, None)
  end.

Definition with_groups (o : Optimizer) (gs : list Group)
           (st : store State) : Optimizer :=
  mkOptimizer (self_lr o) (self_betas o) (self_weight_decay o) (self_eps o)
              gs (base_lrs o) st.

(** [step(closure)].  A closure, when given, runs first: it may
    recompute gradients and yields the loss. *)
Definition step (closure : option (Optimizer -> Optimizer * R))
           (o : Optimizer) : Optimizer * outcome :=
  let (o1, loss) :=
    match closure with
    | Some c => let (o', l) := c o in (o', Some l)
    | None => (o, None)
    end in
  match step_groups (state o1) (param_groups o1) (base_lrs o1) with
  | (st, gs, Some e) => (with_groups o1 gs st, Raised e)
  | (st, gs, None) => (with_groups o1 gs st, Returned loss)
  end.

(** [reset()] (lines 75-84). *)
Definition reset_param (g : Group) (st : store State) (p : Param)
  : store State :=
  let (st0, s0) := getitem no_state (p_id p) st in
  assign (p_id p)
         (mkState (Some 0%nat)
                  (Some (zeros_like (p_data p)))
                  (Some (zeros_like (p_data p)))
                  (if ams_bound g then Some (zeros_like (p_data p))
                   else max_exp_avg_sq s0))
         st0.

Definition reset_group (st : store State) (g : Group) : store State :=
  fold_left (reset_param g) (params g) st.

Definition reset (o : Optimizer) : Optimizer :=
  with_groups o (param_groups o)
              (fold_left reset_group (param_groups o) (state o)).

(** What happens between two calls: the host fills in or clears the
    gradients ([loss.backward()], [zero_grad()]). *)
Definition set_grads (f : nat -> option Grad) (o : Optimizer) : Optimizer :=
  with_groups o
    (map (fun g => set_params g (map (set_grad f) (params g)))
         (param_groups o))
    (state o).

(** The host may change gradients, parameter values and the learning
    rate between calls; it leaves the state dictionary and the betas
    alone. *)
Definition host (o o' : Optimizer) : Prop :=
  state o' = state o /\
  map betas (param_groups o') = map betas (param_groups o).

(** The optimizers that can be reached from a newly built one. *)
Inductive reachable (o0 : Optimizer) : Optimizer -> Prop :=
| reach_new : reachable o0 o0
| reach_host o o' : reachable o0 o -> host o o' -> reachable o0 o'
| reach_step o : reachable o0 o -> reachable o0 (fst (step None o))
| reach_reset o : reachable o0 o -> reachable o0 (reset o).

(** The second moment of a state entry has no negative element. *)
Definition moment_ok (s : State) : Prop := nonneg (exp_avg_sq s).

Definition second_moments_nonneg (o : Optimizer) : Prop :=
  store_all moment_ok (state o).

End AdaBound.

(** ** Yogi ([yogi.py]) *)

Module Yogi.

(** A parameter group.  ['adam_debias'] is present only when it was
    passed through [**kwargs]; [step] reads it with
    [group.get('adam_debias', False)]. *)
Record Group : Type := mkGroup {
  lr : R;
  betas : R * R;
  weight_decay : R;
  weight_decouple : bool;
  fixed_decay : bool;
  initial_accumulator : R;
  eps : R;
  adam_debias : option bool;
  gr_step : option nat;
  params : list Param
}.

Definition set_step (g : Group) (t : nat) : Group :=
  mkGroup (lr g) (betas g) (weight_decay g) (weight_decouple g)
          (fixed_decay g) (initial_accumulator g) (eps g) (adam_debias g)
          (Some t) (params g).

Definition set_params (g : Group) (ps : list Param) : Group :=
  mkGroup (lr g) (betas g) (weight_decay g) (weight_decouple g)
          (fixed_decay g) (initial_accumulator g) (eps g) (adam_debias g)
          (gr_step g) ps.

(** [self.state[p]]: a dictionary with the keys ['exp_avg'] and
    ['exp_avg_sq'], each possibly missing. *)
Record State : Type := mkState {
  exp_avg : option tensor;
  exp_avg_sq : option tensor
}.

Definition no_state : State := mkState None None.

(** [len(state) == 0]. *)
Definition len0 (s : State) : bool :=
  match exp_avg s, exp_avg_sq s with
  | None, None => true
  | _, _ => false
  end.

Record Optimizer : Type := mkOptimizer {
  maximize : bool;
  param_groups : list Group;
  state : store State
}.

(** *** Helpers inherited from [BaseOptimizer] *)

(** Modelled from the spec: [BaseOptimizer.debias] is not in the source
    tree; the spec gives bias_correction = 1 - beta^t. *)
Definition debias (beta : R) (t : nat) : R := 1 - beta ^ t.

(** Modelled from the spec: [BaseOptimizer.apply_adam_debias] is not in
    the source tree; the spec divides the step size by bias_correction1
    unless [adam_debias] asks to skip that correction, with the same
    convention as AdaBound (a Python float division). *)
Definition apply_adam_debias (adam_debias : bool) (step_size bc1 : R)
  : result R :=
  if adam_debias then Ok step_size else py_div step_size bc1.

(** Modelled from the spec: [BaseOptimizer.maximize_gradient] is not in
    the source tree; the spec negates the raw gradient in place when
    maximizing. *)
Definition maximize_gradient (gv : tensor) (maximize : bool) : tensor :=
  if maximize then neg_ gv else gv.

(** Modelled from the spec: [BaseOptimizer.apply_weight_decay] is not in
    the source tree; the spec gives: no-op when [weight_decay == 0];
    [p *= 1 - weight_decay * (1 if fixed else lr)] when decoupled;
    [grad += weight_decay * p] otherwise. *)
Definition apply_weight_decay (pd gv : tensor) (lr weight_decay : R)
           (weight_decouple fixed_decay : bool) : tensor * tensor :=
  if Req_dec_T weight_decay 0 then (pd, gv)
  else if weight_decouple then
    (mul_ pd (1 - weight_decay * (if fixed_decay then 1 else lr)), gv)
  else (pd, add_ gv pd weight_decay).

(** *** [init_group] (lines 60-73) *)

Definition init_param (g : Group) (st : store State) (p : Param)
  : store State * option exn :=
  match p_grad p with
  | None => (st, None)
  | Some grad =>
    if is_sparse grad then (st, Some NoSparseGradientError) else
    let (st0, s0) := getitem no_state (p_id p) st in
    if len0 s0 then
      (assign (p_id p)
              (mkState
                 (Some (full_like (g_values grad) (initial_accumulator g)))
                 (Some (full_like (g_values grad) (initial_accumulator g))))
              st0,
       None)
    else (st0, None)
  end.

Fixpoint init_group (g : Group) (st : store State) (ps : list Param)
  : store State * option exn :=
  match ps with
  | [] => (st, None)
  | p :: rest =>
    match init_param g st p with
    | (st1, Some e) => (st1, Some e)
    | (st1, None) => init_group g st1 rest
    end
  end.

(** *** [step] (lines 75-135) *)

(** The second-moment update (lines 121-129) on a real accumulator. *)
Definition update_exp_avg_sq (v grad_p2 : tensor) (beta2 : R) : tensor :=
  addcmul_ v (sign_ (sub v grad_p2)) grad_p2 (- (1 - beta2)).

(** The body of the loop over [group['params']] (lines 99-133), on a
    real parameter with dense tensors: [torch.is_complex(exp_avg_sq)] is
    false and line 123 applies [sign_].  The layout flag of the gradient
    is carried along but the tensor kernels are those of dense tensors:
    on a sparse gradient [torch] raises inside the loop body, and the
    properties below that run [update] to its end assume dense
    gradients. *)
Definition update (mx : bool) (g : Group) (bias_correction2_sq step_size : R)
           (st : store State) (p : Param)
  : store State * Param * option exn :=
  match p_grad p with
  | None => (st, p, None)
  | Some grad =>
    let gv0 := maximize_gradient (g_values grad) mx in
    let (st0, s0) := getitem no_state (p_id p) st in
    let (pd, gv) :=
      apply_weight_decay (p_data p) gv0 (lr g) (weight_decay g)
                         (weight_decouple g) (fixed_decay g) in
    let p1 := mkParam (p_id p) pd (Some (mkGrad (is_sparse grad) gv)) in
    let grad_p2 := mul gv gv in
    let (beta1, beta2) := betas g in
    match exp_avg s0, exp_avg_sq s0 with
    | Some m, Some v =>
      let m' := add_ (mul_ m beta1) gv (1 - beta1) in
      let v' := update_exp_avg_sq v grad_p2 beta2 in
      let de_nom :=
        add_scalar (div_scalar (sqrt_ v') bias_correction2_sq) (eps g) in
      (assign (p_id p) (mkState (Some m') (Some v')) st0,
       mkParam (p_id p) (addcdiv_ pd m' de_nom (- step_size))
               (Some (mkGrad (is_sparse grad) gv)),
       None)
    | _, _ => (st0, p1, Some KeyError)
    end
  end.

(** The second-moment update (lines 121-129) on a complex accumulator:
    [torch.is_complex(exp_avg_sq)] holds and line 125 applies [sgn_]. *)
Definition update_exp_avg_sq_complex (v grad_p2 : ctensor) (beta2 : R)
  : ctensor :=
  caddcmul_ v (sgn_ (csub v grad_p2)) grad_p2 (- (1 - beta2)).

(** Lines 117-133 on a complex parameter, from the parameter [pd] and
    the gradient [gv] as they are after the weight decay and from the
    accumulators [m] and [v] of the state: the new first moment, the new
    second moment and the new parameter. *)
Definition update_complex (g : Group) (bias_correction2_sq step_size : R)
           (pd gv m v : ctensor) : ctensor * ctensor * ctensor :=
  let grad_p2 := cmul gv gv in
  let (beta1, beta2) := betas g in
  let m' := cadd_ (cmul_ m beta1) gv (1 - beta1) in
  let v' := update_exp_avg_sq_complex v grad_p2 beta2 in
  let de_nom :=
    cadd_scalar (cdiv_scalar (csqrt_ v') bias_correction2_sq) (eps g) in
  (m', v', caddcdiv_ pd m' de_nom (- step_size)).

Fixpoint step_params (mx : bool) (g : Group) (bc2 ss : R)
         (st : store State) (ps : list Param)
  : store State * list Param * option exn :=
  match ps with
  | [] => (st, [], None)
  | p :: rest =>
    match update mx g bc2 ss st p with
    | (st1, p1, Some e) => (st1, p1 :: rest, Some e)
    | (st1, p1, None) =>
      match step_params mx g bc2 ss st1 rest with
      | (st2, rest2, e) => (st2, p1 :: rest2, e)
      end
    end
  end.

(** The scalars computed once per group (lines 89-96):
    [bias_correction2_sq] and [step_size]. *)
Definition scalars (g : Group) (t : nat) : result (R * R) :=
  let (beta1, beta2) := betas g in
  let bias_correction1 := debias beta1 t in
  match math_sqrt (debias beta2 t) with
  | Raise e => Raise e
  | Ok bc2 =>
    match apply_adam_debias
            (match adam_debias g with Some b => b | None => false end)
            (lr g) bias_correction1 with
    | Raise e => Raise e
    | Ok ss => Ok (bc2, ss)
    end
  end.

(** The group body once the counter [t] is set (lines 89-133). *)
Definition group_body (mx : bool) (st : store State) (g1 : Group) (t : nat)
  : store State * Group * option exn :=
  match scalars g1 t with
  | Raise e => (st, g1, Some e)
  | Ok (bc2, ss) =>
    match step_params mx g1 bc2 ss st (params g1) with
    | (st2, ps2, e) => (st2, set_params g1 ps2, e)
    end
  end.

(** The body of the loop over the groups (lines 83-133): [init_group]
    runs only while the group has no counter, and the counter is set only
    if it did not raise. *)
Definition step_group (mx : bool) (st : store State) (g : Group)
  : store State * Group * option exn :=
  match gr_step g with
  | None =>
    match init_group g st (params g) with
    | (st1, Some e) => (st1, g, Some e)
    | (st1, None) => group_body mx st1 (set_step g 1%nat) 1%nat
    end
  | Some n => group_body mx st (set_step g (n + 1)%nat) (n + 1)%nat
  end.

(** The counter a call of [step] gives the group. *)
Definition next_step (g : Group) : nat :=
  match gr_step g with
  | Some n => (n + 1)%nat
  | None => 1%nat
  end.

Fixpoint step_groups (mx : bool) (st : store State) (gs : list Group)
  : store State * list Group * option exn :=
  match gs with
  | [] => (st, [], None)
  | g :: gs' =>
    match step_group mx st g with
    | (st1, g1, Some e) => (st1, g1 :: gs', Some e)
    | (st1, g1, None) =>
      match step_groups mx st1 gs' with
      | (st2, gs2, e) => (st2, g1 :: gs2, e)
      end
    end
  end.

Definition step (closure : option (Optimizer -> Optimizer * R))
           (o : Optimizer) : Optimizer * outcome :=
  let (o1, loss) :=
    match closure with
    | Some c => let (o', l) := c o in (o', Some l)
    | None => (o, None)
    end in
  match step_groups (maximize o1) (state o1) (param_groups o1) with
  | (st, gs, Some e) => (mkOptimizer (maximize o1) gs st, Raised e)
  | (st, gs, None) => (mkOptimizer (maximize o1) gs st, Returned loss)
  end.

Definition set_grads (f : nat -> option Grad) (o : Optimizer) : Optimizer :=
  mkOptimizer (maximize o)
    (map (fun g => set_params g (map (set_grad f) (params g)))
         (param_groups o))
    (state o).

(** The host may change gradients, parameter values and the learning
    rate between calls; it leaves the state dictionary, the betas and the
    initial accumulator value alone. *)
Definition hyper (g : Group) : R * R * R := (betas g, initial_accumulator g).

Definition host (o o' : Optimizer) : Prop :=
  state o' = state o /\
  map hyper (param_groups o') = map hyper (param_groups o).

(** [beta2] in [0, 1] and a non-negative [initial_accumulator]. *)
Definition good_hyper (h : R * R * R) : Prop :=
  0 <= snd (fst h) <= 1 /\ 0 <= snd h.

Inductive reachable (o0 : Optimizer) : Optimizer -> Prop :=
| reach_new : reachable o0 o0
| reach_host o o' : reachable o0 o -> host o o' -> reachable o0 o'
| reach_step o : reachable o0 o -> reachable o0 (fst (step None o)).

Definition moment_ok (s : State) : Prop := nonneg (exp_avg_sq s).

Definition second_moments_nonneg (o : Optimizer) : Prop :=
  store_all moment_ok (state o).

End Yogi.

(** The identities of the parameters of a list that have a gradient. *)
Definition grad_ids (ps : list Param) : list nat :=
  map p_id (filter (fun p => match p_grad p with
                             | Some _ => true
                             | None => false
                             end) ps).

(** What [__init__] puts in a group besides its parameters. *)
Definition adabound_settings (g : AdaBound.Group) :=
  (AdaBound.lr g, AdaBound.betas g, AdaBound.final_lr g, AdaBound.gamma g,
   AdaBound.weight_decay g, AdaBound.weight_decouple g,
   AdaBound.fixed_decay g, AdaBound.ams_bound g, AdaBound.adam_debias g,
   AdaBound.eps g).

Definition yogi_settings (g : Yogi.Group) :=
  (Yogi.lr g, Yogi.betas g, Yogi.weight_decay g, Yogi.weight_decouple g,
   Yogi.fixed_decay g, Yogi.initial_accumulator g, Yogi.eps g,
   Yogi.adam_debias g).

(** A counter after a call: left alone, or advanced by one. *)
Definition counter_step (c c' : option nat) : Prop :=
  c' = c \/ c' = advance c.

(** A state entry as [reset] leaves it: the key ['step'] at 0 and both
    moments present and zero. *)
Definition adabound_zeroed (s : AdaBound.State) : Prop :=
  AdaBound.st_step s = Some 0%nat /\
  (exists m, AdaBound.exp_avg s = Some m /\ Forall (eq 0) m) /\
  (exists v, AdaBound.exp_avg_sq s = Some v /\ Forall (eq 0) v).

(** An accumulator, when present, is bounded by [G] in absolute value. *)
Definition abs_bounded (G : R) (a : option tensor) : Prop :=
  match a with
  | Some v => Forall (fun x => Rabs x <= G) v
  | None => True
  end.

(** A Yogi state entry is empty or holds both moments. *)
Definition yogi_entry_ok (s : Yogi.State) : Prop :=
  Yogi.len0 s = true \/
  (Yogi.exp_avg s <> None /\ Yogi.exp_avg_sq s <> None).

(** The store holds both moments for the identity [k]. *)
Definition yogi_has_moments (st : store Yogi.State) (k : nat) : Prop :=
  exists m v, lookup k st = Some (Yogi.mkState (Some m) (Some v)).

(** [group['lr'] = x], as a learning-rate schedule does between calls. *)
Definition adabound_with_lr (g : AdaBound.Group) (x : R) : AdaBound.Group :=
  AdaBound.mkGroup x (AdaBound.betas g) (AdaBound.final_lr g)
                   (AdaBound.gamma g) (AdaBound.weight_decay g)
                   (AdaBound.weight_decouple g) (AdaBound.fixed_decay g)
                   (AdaBound.ams_bound g) (AdaBound.adam_debias g)
                   (AdaBound.eps g) (AdaBound.gr_step g) (AdaBound.params g).

(** ** Concrete configurations used below *)

Definition decay_group_example : AdaBound.Group :=
  AdaBound.mkGroup 1 (0, 0) 1 1 (1 / 10) true true false false 0 None [].

Definition adabound_group_example : AdaBound.Group :=
  AdaBound.mkGroup 1 (0, 0) 1 1 0 true false false false 0 None [].

Definition dense_param_example : Param :=
  mkParam 0 [1] (Some (mkGrad false [1 / 4])).

Definition yogi_group_example : Yogi.Group :=
  Yogi.mkGroup 1 (0, 0) 0 true false 1 0 None None [].

(** Yogi after its first step, with a gradient in coordinate layout. *)
Definition yogi_sparse_later : Yogi.Optimizer :=
  Yogi.mkOptimizer false
    [Yogi.mkGroup 1 (0, 0) 0 true false 1 0 None (Some 1%nat)
                  [mkParam 0 [1] (Some (mkGrad true [1]))]]
    [(0%nat, Yogi.mkState (Some [0]) (Some [1]))].

(** Yogi before its first step, with a parameter that has no gradient yet. *)
Definition yogi_no_grad_yet : Yogi.Optimizer :=
  Yogi.mkOptimizer false
    [Yogi.mkGroup 1 (0, 0) 0 true false 1 0 None None [mkParam 0 [1] None]]
    [].

(** AdaBound before its first step. *)
Definition adabound_before_reset : AdaBound.Optimizer :=
  AdaBound.mkOptimizer 1 (0, 0) 0 0
    [AdaBound.mkGroup 1 (0, 0) 1 1 0 true false false false 0 None
                      [mkParam 0 [1] (Some (mkGrad false [1 / 4]))]]
    [1] [].

(** Yogi built with a negative [initial_accumulator], before its first
    step, with a zero gradient. *)
Definition yogi_negative_seed : Yogi.Optimizer :=
  Yogi.mkOptimizer false
    [Yogi.mkGroup 1 (0, 0) 0 true false (-1) 0 None None
                  [mkParam 0 [1] (Some (mkGrad false [0]))]]
    [].

(** AdaBound groups with a negative [final_lr], and with [eps = 1]. *)
Definition adabound_negative_final_lr : AdaBound.Group :=
  AdaBound.mkGroup 1 (0, 0) (-1) 1 0 true false false false 0 None [].

Definition adabound_eps_one : AdaBound.Group :=
  AdaBound.mkGroup 1 (0, 0) 1 1 0 true false false false 1 None [].

(** An AdaBound optimizer holding the state of a parameter (identity 5)
    that has no gradient, next to one that has. *)
Definition adabound_two_params : AdaBound.Optimizer :=
  AdaBound.mkOptimizer 1 (0, 0) 0 0
    [AdaBound.mkGroup 1 (0, 0) 1 1 0 true false false false 0 None
                      [mkParam 0 [1] (Some (mkGrad false [1 / 4]));
                       mkParam 5 [2] None]]
    [1]
    [(5%nat, AdaBound.mkState None (Some [3]) (Some [4]) None)].

Definition yogi_two_params : Yogi.Optimizer :=
  Yogi.mkOptimizer false
    [Yogi.mkGroup 1 (0, 0) 0 true false 1 0 None None
                  [mkParam 0 [1] (Some (mkGrad false [1 / 4]));
                   mkParam 5 [2] None]]
    [(5%nat, Yogi.mkState (Some [3]) (Some [4]))].

Definition sparse_param_example : Param :=
  mkParam 1 [1] (Some (mkGrad true [1])).

Definition scalars_example : AdaBound.Scalars :=
  AdaBound.mkScalars 1 1 (1 / 2) 2.

(** An AdaBound group with [gamma = 0]. *)
Definition adabound_gamma_zero : AdaBound.Group :=
  AdaBound.mkGroup 1 (0, 0) 1 0 0 true false false false 0 None
                   [dense_param_example].

(** An AdaBound group with AMS-bound on, and a complete state for the
    parameter of identity 0. *)
Definition adabound_ams_group : AdaBound.Group :=
  AdaBound.mkGroup 1 (0, 0) 1 1 0 true false true false 0 None [].

Definition adabound_ams_store : store AdaBound.State :=
  [(0%nat, AdaBound.mkState None (Some [0]) (Some [0]) (Some [3]))].

(** * Properties *)

(** ** Elementwise operations *)

Section Elementwise.
Implicit Types (f g : R -> R -> R) (h : R -> R) (a b : tensor).

Lemma map2_ext f g a b :
  (forall x y, f x y = g x y) -> map2 f a b = map2 g a b.
Proof.
  intros E. revert b.
  induction a as [|x a IH]; intros [|y b]; simpl; try reflexivity.
  now rewrite E, IH.
Qed.

Lemma map2_map_l f h a b :
  map2 f (map h a) b = map2 (fun x y => f (h x) y) a b.
Proof.
  revert b. induction a as [|x a IH]; intros [|y b]; simpl; try reflexivity.
  now rewrite IH.
Qed.

Lemma map2_map_r f h a b :
  map2 f a (map h b) = map2 (fun x y => f x (h y)) a b.
Proof.
  revert b. induction a as [|x a IH]; intros [|y b]; simpl; try reflexivity.
  now rewrite IH.
Qed.

Lemma map2_diag f a : map2 f a a = map (fun x => f x x) a.
Proof. induction a as [|x a IH]; simpl; [reflexivity | now rewrite IH]. Qed.

Lemma map2_map_map f (h1 h2 : R -> R) a :
  map2 f (map h1 a) (map h2 a) = map (fun x => f (h1 x) (h2 x)) a.
Proof. now rewrite map2_map_l, map2_map_r, map2_diag. Qed.

Lemma map2_plus_scaled (c : R) a b :
  map2 (fun x y => x + c * y) a b = map2 Rplus a (map (Rmult c) b).
Proof. now rewrite map2_map_r. Qed.

Lemma map2_minus_scaled (c : R) a b :
  map2 (fun x y => x + - c * y) a b = map2 Rminus a (map (Rmult c) b).
Proof. rewrite map2_map_r. apply map2_ext. intros; ring. Qed.

Lemma map_map2 h f a b :
  map h (map2 f a b) = map2 (fun x y => h (f x y)) a b.
Proof.
  revert b. induction a as [|x a IH]; intros [|y b]; simpl; try reflexivity.
  now rewrite IH.
Qed.

Lemma map2_map2_r f g a b :
  map2 f a (map2 g a b) = map2 (fun x y => f x (g x y)) a b.
Proof.
  revert b. induction a as [|x a IH]; intros [|y b]; simpl; try reflexivity.
  now rewrite IH.
Qed.

Lemma map2_map2_l f g a b :
  map2 f (map2 g a b) b = map2 (fun x y => f (g x y) y) a b.
Proof.
  revert b. induction a as [|x a IH]; intros [|y b]; simpl; try reflexivity.
  now rewrite IH.
Qed.

Lemma map_id_ext h a : (forall x, h x = x) -> map h a = a.
Proof.
  intros E. induction a as [|x a IH]; simpl; [reflexivity | now rewrite E, IH].
Qed.

Lemma Forall_map2 (P : R -> Prop) f a b :
  (forall x y, In x a -> In y b -> P (f x y)) -> Forall P (map2 f a b).
Proof.
  revert b. induction a as [|x a IH]; intros [|y b] H; simpl; try constructor.
  - apply H; now left.
  - apply IH. intros x' y' Hx Hy. apply H; now right.
Qed.
End Elementwise.

(** ** The state dictionary *)

Section StoreFacts.
Context {S : Type}.
Implicit Types (st : store S) (k : nat) (v : S).

Lemma lookup_assign_same k v st : lookup k (assign k v st) = Some v.
Proof.
  induction st as [|[k' v'] r IH]; simpl.
  - now rewrite Nat.eqb_refl.
  - destruct (Nat.eqb k k') eqn:E; simpl; rewrite ?Nat.eqb_refl, ?E; auto.
Qed.

Lemma lookup_assign_other k k' v st :
  k <> k' -> lookup k' (assign k v st) = lookup k' st.
Proof.
  intros N. induction st as [|[k0 v0] r IH]; simpl.
  - destruct (Nat.eqb_spec k' k); [congruence | reflexivity].
  - destruct (Nat.eqb_spec k k0) as [->|N0]; simpl.
    + destruct (Nat.eqb_spec k' k0); [congruence | reflexivity].
    + destruct (Nat.eqb_spec k' k0); [reflexivity | exact IH].
Qed.

Lemma assign_lookup_id k v st : lookup k st = Some v -> assign k v st = st.
Proof.
  induction st as [|[k' v'] r IH]; simpl; [discriminate|].
  destruct (Nat.eqb_spec k k') as [->|N]; intros H.
  - now inversion H.
  - now rewrite IH.
Qed.

Lemma entries_assign_same k v st :
  (entries k st <= 1)%nat -> entries k (assign k v st) = 1%nat.
Proof.
  unfold entries.
  induction st as [|[k' v'] r IH]; simpl; intros H.
  - now rewrite Nat.eqb_refl.
  - destruct (Nat.eqb_spec k k') as [->|N]; simpl.
    + rewrite Nat.eqb_refl in *. simpl in *. lia.
    + destruct (Nat.eqb_spec k k'); [congruence | auto].
Qed.

Lemma entries_assign_other k k' v st :
  k <> k' -> entries k' (assign k v st) = entries k' st.
Proof.
  intros N. unfold entries.
  induction st as [|[k0 v0] r IH]; simpl.
  - destruct (Nat.eqb_spec k' k); [congruence | reflexivity].
  - destruct (Nat.eqb_spec k k0) as [->|N0]; simpl.
    + destruct (Nat.eqb_spec k' k0); [congruence | reflexivity].
    + destruct (Nat.eqb_spec k' k0); simpl; now rewrite IH.
Qed.

Lemma entries_lookup_none k st : lookup k st = None -> entries k st = 0%nat.
Proof.
  unfold entries. induction st as [|[k' v'] r IH]; simpl; [reflexivity|].
  destruct (Nat.eqb k k'); [discriminate | exact IH].
Qed.

Lemma entries_lookup_some k v st :
  lookup k st = Some v -> (1 <= entries k st)%nat.
Proof.
  unfold entries. induction st as [|[k' v'] r IH]; simpl; [discriminate|].
  destruct (Nat.eqb k k'); simpl; [lia | exact IH].
Qed.
End StoreFacts.

(** ** Weight decay *)

(** C7.  The weight-decay step of AdaBound (run before the moment
    updates), for a non-negative [weight_decay] as the constructor
    accepts it: with [weight_decay = 0] parameter and gradient keep their
    values; with [weight_decouple] the parameter is multiplied by
    [1 - weight_decay * (1 if fixed_decay else lr)] and the gradient is
    untouched; otherwise the gradient is incremented by
    [weight_decay * parameter]; and with [weight_decouple], [fixed_decay]
    and [weight_decay = 0.1] the parameter is scaled by 0.9 whatever [lr]. *)
Theorem weight_decay_policy (g : AdaBound.Group) (pd gv : tensor)
        (Hwd : 0 <= AdaBound.weight_decay g) :
  (AdaBound.weight_decay g = 0 -> AdaBound.decay g pd gv = (pd, gv)) /\
  (AdaBound.weight_decouple g = true ->
   AdaBound.decay g pd gv =
   (map (fun x => x * (1 - AdaBound.weight_decay g *
                           (if AdaBound.fixed_decay g then 1
                            else AdaBound.lr g))) pd,
    gv)) /\
  (AdaBound.weight_decay g <> 0 -> AdaBound.weight_decouple g = false ->
   AdaBound.decay g pd gv =
   (pd, map2 (fun x y => x + AdaBound.weight_decay g * y) gv pd)) /\
  (AdaBound.weight_decouple g = true -> AdaBound.fixed_decay g = true ->
   AdaBound.weight_decay g = 1 / 10 ->
   AdaBound.decay g pd gv = (map (fun x => x * (9 / 10)) pd, gv)).
Proof.
  unfold AdaBound.decay, mul_, add_.
  repeat split.
  - intros H0. destruct (AdaBound.weight_decouple g).
    + f_equal. apply map_id_ext. intros x. rewrite H0. ring.
    + destruct (Rlt_dec 0 (AdaBound.weight_decay g)); [lra | reflexivity].
  - intros ->. reflexivity.
  - intros Hn ->.
    destruct (Rlt_dec 0 (AdaBound.weight_decay g)); [reflexivity | lra].
  - intros -> -> ->. f_equal. apply map_ext. intros x. field.
Qed.

Lemma weight_decay_policy_witness :
  0 <= AdaBound.weight_decay decay_group_example /\
  AdaBound.decay decay_group_example [1; 2] [3; 4]
  = (map (fun x => x * (9 / 10)) [1; 2], [3; 4]).
Proof.
  assert (H : 0 <= AdaBound.weight_decay decay_group_example)
    by (simpl; lra).
  split; [exact H|].
  destruct (weight_decay_policy decay_group_example [1; 2] [3; 4] H)
    as (_ & _ & _ & H4).
  apply H4; reflexivity.
Defined.

(** ** AdaBound: the update rule *)

Lemma py_div_ok a b : b <> 0 -> py_div a b = Ok (a / b).
Proof. intros H. unfold py_div. destruct (Req_dec_T b 0); [contradiction | reflexivity]. Qed.

Lemma math_sqrt_ok x : 0 <= x -> math_sqrt x = Ok (sqrt x).
Proof. intros H. unfold math_sqrt. destruct (Rlt_dec x 0); [lra | reflexivity]. Qed.

(** When the group scalars are computed without raising, they are the
    quantities of lines 101-106. *)
Lemma adabound_scalars_inv g base_lr t k :
  AdaBound.scalars g base_lr t = Ok k ->
  AdaBound.bias_correction1 k = 1 - fst (AdaBound.betas g) ^ t /\
  AdaBound.bias_correction2_sq k = sqrt (1 - snd (AdaBound.betas g) ^ t) /\
  AdaBound.lower_bound k =
    AdaBound.final_lr g * AdaBound.lr g / base_lr
    * (1 - 1 / (AdaBound.gamma g * INR t + 1)) /\
  AdaBound.upper_bound k =
    AdaBound.final_lr g * AdaBound.lr g / base_lr
    * (1 + 1 / (AdaBound.gamma g * INR t)) /\
  base_lr <> 0 /\ AdaBound.gamma g * INR t + 1 <> 0 /\
  AdaBound.gamma g * INR t <> 0 /\ 0 <= 1 - snd (AdaBound.betas g) ^ t.
Proof.
  unfold AdaBound.scalars, math_sqrt, py_div.
  destruct (AdaBound.betas g) as [b1 b2]; simpl.
  destruct (Rlt_dec _ 0); [discriminate|].
  destruct (Req_dec_T base_lr 0); [discriminate|].
  destruct (Req_dec_T _ 0); [discriminate|].
  destruct (Req_dec_T _ 0); [discriminate|].
  intros H. inversion H; subst; clear H; simpl.
  repeat split; auto; lra.
Qed.

Lemma adabound_scalars_ok g base_lr t :
  base_lr <> 0 -> AdaBound.gamma g * INR t + 1 <> 0 ->
  AdaBound.gamma g * INR t <> 0 -> 0 <= 1 - snd (AdaBound.betas g) ^ t ->
  exists k, AdaBound.scalars g base_lr t = Ok k.
Proof.
  intros H1 H2 H3 H4. unfold AdaBound.scalars.
  destruct (AdaBound.betas g) as [b1 b2]; simpl in *.
  rewrite math_sqrt_ok by assumption.
  rewrite !py_div_ok by assumption. eauto.
Qed.

(** C1.  AdaBound, one parameter with a dense gradient at group step
    count [t]: with [m], [v] (and [mx] under AMS-bound) the accumulators
    the parameter has once its state exists, and [gv], [pd] the gradient
    and parameter after weight decay, the first moment becomes
    [beta1*m + (1-beta1)*gv], the second moment
    [beta2*v + (1-beta2)*gv^2], the denominator is [sqrt(v' + eps)] (or
    [sqrt(max(mx, v') + eps)], the maximum being stored), the scalar step
    size is [lr*sqrt(1-beta2^t)], divided by [1-beta1^t] unless
    [adam_debias], and the parameter loses
    [clamp(step_size/denom, lower_bound, upper_bound) * m'].  The betas
    are in the validated range and every radicand [v' + eps] (or
    [max(mx, v') + eps]) is positive, so that each quotient
    [step_size/denom] is a quotient of reals. *)
Theorem adabound_update_rule
        (g : AdaBound.Group) (base_lr : R) (t : nat) (k : AdaBound.Scalars)
        (st : store AdaBound.State) (p : Param) (gv0 m v : tensor)
        (s1 : AdaBound.State)
        (Hk : AdaBound.scalars g base_lr t = Ok k)
        (Hgrad : p_grad p = Some (mkGrad false gv0))
        (Hs1 : s1 = AdaBound.init_state g p
                      (snd (getitem AdaBound.no_state (p_id p) st)))
        (Hm : AdaBound.exp_avg s1 = Some m)
        (Hv : AdaBound.exp_avg_sq s1 = Some v)
        (Hmx : AdaBound.ams_bound g = true ->
               AdaBound.max_exp_avg_sq s1 <> None)
        (Hbc : AdaBound.adam_debias g = false ->
               1 - fst (AdaBound.betas g) ^ t <> 0)
        (Hbeta1 : 0 <= fst (AdaBound.betas g) <= 1)
        (Hbeta2 : 0 <= snd (AdaBound.betas g) <= 1) :
  let beta1 := fst (AdaBound.betas g) in
  let beta2 := snd (AdaBound.betas g) in
  let pd := fst (AdaBound.decay g (p_data p) gv0) in
  let gv := snd (AdaBound.decay g (p_data p) gv0) in
  let m' := map2 (fun a x => beta1 * a + (1 - beta1) * x) m gv in
  let v' := map2 (fun a x => beta2 * a + (1 - beta2) * (x * x)) v gv in
  let mx' := match AdaBound.max_exp_avg_sq s1 with
             | Some mx => map2 Rmax mx v'
             | None => []
             end in
  let denom := map (fun x => sqrt (x + AdaBound.eps g))
                   (if AdaBound.ams_bound g then mx' else v') in
  let step_size :=
    if AdaBound.adam_debias g then AdaBound.lr g * sqrt (1 - beta2 ^ t)
    else AdaBound.lr g * sqrt (1 - beta2 ^ t) / (1 - beta1 ^ t) in
  let delta :=
    map2 (fun d a =>
            clamp1 (AdaBound.lower_bound k) (AdaBound.upper_bound k)
                   (step_size / d) * a) denom m' in
  Forall (fun x => 0 < x + AdaBound.eps g)
         (if AdaBound.ams_bound g then mx' else v') ->
  Forall (fun d => 0 < d) denom /\
  exists st' s',
    AdaBound.update g k st p
    = (st', mkParam (p_id p) (map2 Rminus pd delta) (Some (mkGrad false gv)),
       None) /\
    lookup (p_id p) st' = Some s' /\
    AdaBound.exp_avg s' = Some m' /\
    AdaBound.exp_avg_sq s' = Some v' /\
    (AdaBound.ams_bound g = true -> AdaBound.max_exp_avg_sq s' = Some mx').
Proof.
  intros beta1 beta2 pd gv m' v' mx' denom step_size delta Hden.
  split.
  { unfold denom. apply Forall_map.
    eapply Forall_impl; [|exact Hden]. intros x Hx. now apply sqrt_lt_R0. }
  clear Hden Hbeta1 Hbeta2.
  destruct (adabound_scalars_inv _ _ _ _ Hk) as (Hb1 & Hb2 & _).
  assert (Em : add_ (mul_ m beta1) gv (1 - beta1) = m').
  { unfold add_, mul_, m'. rewrite map2_map_l. apply map2_ext. intros; ring. }
  assert (Ev : addcmul_ (mul_ v beta2) gv gv (1 - beta2) = v').
  { unfold addcmul_, mul_, mul, v'. rewrite map2_diag, map2_map_l, map2_map_r.
    apply map2_ext. intros; ring. }
  assert (Ess : AdaBound.step_size_scalar g k = Ok step_size).
  { unfold AdaBound.step_size_scalar, step_size. rewrite Hb1, Hb2.
    fold beta1 beta2.
    destruct (AdaBound.adam_debias g); [reflexivity|].
    apply py_div_ok. now apply Hbc. }
  assert (Ed : forall den ss,
             add_ pd (neg_ (AdaBound.step_size_tensor k ss
                              (sqrt_ (add_scalar den (AdaBound.eps g))) m')) 1
             = map2 Rminus pd
                 (map2 (fun d a =>
                          clamp1 (AdaBound.lower_bound k)
                                 (AdaBound.upper_bound k) (ss / d) * a)
                       (map (fun x => sqrt (x + AdaBound.eps g)) den) m')).
  { intros den ss.
    unfold add_, neg_. rewrite map2_map_r.
    rewrite (map2_ext _ Rminus) by (intros; ring).
    f_equal.
    unfold AdaBound.step_size_tensor, mul, clamp_, div_, full_like, sqrt_,
      add_scalar.
    rewrite !map_map, map2_map_map, map_map, !map2_map_l. reflexivity. }
  unfold AdaBound.update. rewrite Hgrad. simpl is_sparse. cbv iota.
  destruct (getitem AdaBound.no_state (p_id p) st) as [st0 s0] eqn:Eg.
  simpl in Hs1. rewrite <- Hs1.
  simpl g_values.
  destruct (AdaBound.decay g (p_data p) gv0) as [pd0 gvd] eqn:Edec.
  simpl in pd, gv. subst pd gv.
  destruct (AdaBound.betas g) as [b1 b2] eqn:Eb. simpl in beta1, beta2.
  subst beta1 beta2.
  rewrite Hm, Hv, Em, Ev. simpl AdaBound.max_exp_avg_sq.
  destruct (AdaBound.ams_bound g) eqn:Eams.
  - destruct (AdaBound.max_exp_avg_sq s1) as [mx|] eqn:Emx;
      [| exfalso; now apply Hmx].
    rewrite Ess. unfold torch_max. rewrite Ed.
    eexists _, _. split; [reflexivity|].
    rewrite lookup_assign_same. simpl. repeat split; auto.
  - rewrite Ess, Ed.
    eexists _, _. split; [reflexivity|].
    rewrite lookup_assign_same. simpl. repeat split; auto. discriminate.
Qed.

Lemma adabound_update_rule_witness :
  exists k st' p',
    AdaBound.scalars adabound_group_example 1 1 = Ok k /\
    p_grad dense_param_example = Some (mkGrad false [1 / 4]) /\
    AdaBound.update adabound_group_example k [] dense_param_example
    = (st', p', None).
Proof.
  assert (H1 : (1 : R) <> 0) by lra.
  assert (H2 : AdaBound.gamma adabound_group_example * INR 1 + 1 <> 0)
    by (simpl; lra).
  assert (H3 : AdaBound.gamma adabound_group_example * INR 1 <> 0)
    by (simpl; lra).
  assert (H4 : 0 <= 1 - snd (AdaBound.betas adabound_group_example) ^ 1)
    by (simpl; lra).
  destruct (adabound_scalars_ok adabound_group_example 1 1 H1 H2 H3 H4)
    as [k Hk].
  assert (Hbc : AdaBound.adam_debias adabound_group_example = false ->
                1 - fst (AdaBound.betas adabound_group_example) ^ 1 <> 0)
    by (intros _; simpl; lra).
  assert (Hmx : AdaBound.ams_bound adabound_group_example = true ->
                AdaBound.max_exp_avg_sq
                  (AdaBound.init_state adabound_group_example
                     dense_param_example
                     (snd (getitem AdaBound.no_state
                             (p_id dense_param_example) []))) <> None)
    by (intros H; discriminate H).
  assert (Hb1 : 0 <= fst (AdaBound.betas adabound_group_example) <= 1)
    by (simpl; lra).
  assert (Hb2 : 0 <= snd (AdaBound.betas adabound_group_example) <= 1)
    by (simpl; lra).
  destruct (adabound_update_rule adabound_group_example 1 1 k []
              dense_param_example [1 / 4] [0] [0] _ Hk eq_refl eq_refl
              eq_refl eq_refl Hmx Hbc Hb1 Hb2) as (_ & st' & s' & Hu & _).
  { simpl. constructor; [lra | constructor]. }
  exists k, st'. eexists. repeat split; [exact Hk | exact Hu].
Defined.

(** ** Yogi: the update rule *)

Lemma sign1_cases x : sign1 x = -1 \/ sign1 x = 0 \/ sign1 x = 1.
Proof.
  unfold sign1. destruct (Rlt_dec x 0); [now left|].
  destruct (Rlt_dec 0 x); [now right; right | now right; left].
Qed.

Lemma yogi_scalars_inv g t bc2 ss :
  Yogi.scalars g t = Ok (bc2, ss) ->
  bc2 = sqrt (1 - snd (Yogi.betas g) ^ t) /\
  ss = (if match Yogi.adam_debias g with Some b => b | None => false end
        then Yogi.lr g
        else Yogi.lr g / (1 - fst (Yogi.betas g) ^ t)) /\
  0 <= 1 - snd (Yogi.betas g) ^ t.
Proof.
  unfold Yogi.scalars, Yogi.debias, Yogi.apply_adam_debias, math_sqrt, py_div.
  destruct (Yogi.betas g) as [b1 b2]; simpl.
  destruct (Rlt_dec _ 0); [discriminate|].
  destruct (match Yogi.adam_debias g with Some b => b | None => false end).
  - intros H; inversion H; subst. repeat split; auto; lra.
  - destruct (Req_dec_T _ 0); [discriminate|].
    intros H; inversion H; subst. repeat split; auto; lra.
Qed.

Lemma yogi_scalars_ok g t :
  0 <= 1 - snd (Yogi.betas g) ^ t ->
  (Yogi.adam_debias g <> Some true -> 1 - fst (Yogi.betas g) ^ t <> 0) ->
  exists bc2 ss, Yogi.scalars g t = Ok (bc2, ss).
Proof.
  intros H1 H2. unfold Yogi.scalars, Yogi.debias, Yogi.apply_adam_debias.
  destruct (Yogi.betas g) as [b1 b2]; simpl in *.
  rewrite math_sqrt_ok by assumption.
  destruct (Yogi.adam_debias g) as [[|]|]; eauto;
    rewrite py_div_ok by (apply H2; discriminate); eauto.
Qed.

(** *** Complex accumulators *)

Lemma Cabs_nonneg z : 0 <= Cabs z.
Proof. apply sqrt_pos. Qed.

Lemma Cabs_sqr z : Cabs z * Cabs z = fst z * fst z + snd z * snd z.
Proof. unfold Cabs. apply sqrt_sqrt. nra. Qed.

(** The complex-aware sign is zero or on the unit circle. *)
Lemma Csgn_cases z : Csgn z = (0, 0) \/ Cabs (Csgn z) = 1.
Proof.
  unfold Csgn. destruct (Req_dec_T (Cabs z) 0) as [E|E]; [now left|right].
  pose proof (Cabs_sqr z) as Hsq.
  unfold Cabs at 1, Cscale. simpl fst. simpl snd.
  replace (/ Cabs z * fst z * (/ Cabs z * fst z)
           + / Cabs z * snd z * (/ Cabs z * snd z)) with 1.
  - apply sqrt_1.
  - transitivity (/ Cabs z * / Cabs z
                  * (fst z * fst z + snd z * snd z)); [|ring].
    rewrite <- Hsq. field. exact E.
Qed.

(** On a number with no imaginary part it is the real sign. *)
Lemma Csgn_real x : Csgn (x, 0) = (sign1 x, 0).
Proof.
  assert (Habs : Cabs (x, 0) = Rabs x).
  { unfold Cabs. simpl. replace (x * x + 0 * 0) with (x * x) by ring.
    rewrite <- (sqrt_Rsqr_abs x). reflexivity. }
  unfold Csgn, sign1, Cscale. rewrite Habs. simpl fst. simpl snd.
  destruct (Req_dec_T (Rabs x) 0) as [E|E].
  - assert (x = 0).
    { destruct (Req_dec_T x 0) as [|N]; [assumption|].
      exfalso. now apply (Rabs_no_R0 x N). }
    subst. destruct (Rlt_dec 0 0); [lra|]. reflexivity.
  - destruct (Rlt_dec x 0) as [Hn|Hn].
    + rewrite (Rabs_left x Hn). f_equal; field; lra.
    + destruct (Rlt_dec 0 x) as [Hp|Hp].
      * rewrite (Rabs_right x) by lra. f_equal; field; lra.
      * exfalso. apply E. replace x with 0 by lra. apply Rabs_R0.
Qed.

(** The principal square root squares back. *)
Lemma Csqrt_sqr z : Cmul (Csqrt z) (Csqrt z) = z.
Proof.
  destruct z as [x y].
  pose proof (Cabs_nonneg (x, y)) as Hn.
  pose proof (Cabs_sqr (x, y)) as Hsq. simpl in Hsq.
  set (r := Cabs (x, y)) in *.
  assert (Hrx : 0 <= (r + x) / 2) by nra.
  assert (Hry : 0 <= (r - x) / 2) by nra.
  unfold Csqrt, Cmul. fold r. simpl fst. simpl snd.
  set (a := sqrt ((r + x) / 2)). set (b := sqrt ((r - x) / 2)).
  assert (Ha : a * a = (r + x) / 2) by (apply sqrt_sqrt; exact Hrx).
  assert (Hb : b * b = (r - x) / 2) by (apply sqrt_sqrt; exact Hry).
  assert (Hab : a * b = Rabs y / 2).
  { unfold a, b. rewrite <- sqrt_mult by assumption.
    replace ((r + x) / 2 * ((r - x) / 2)) with ((y / 2) * (y / 2)) by nra.
    transitivity (Rabs (y / 2)); [apply (sqrt_Rsqr_abs (y / 2))|].
    unfold Rdiv. rewrite Rabs_mult, (Rabs_right (/ 2)) by lra.
    reflexivity. }
  destruct (Rlt_dec y 0) as [Hy|Hy].
  - rewrite (Rabs_left y Hy) in Hab. f_equal; nra.
  - rewrite (Rabs_right y) in Hab by lra. f_equal; nra.
Qed.

Lemma complex_exp_avg_eq m gv b1 :
  cadd_ (cmul_ m b1) gv (1 - b1)
  = cmap2 (fun a x => Cadd (Cscale b1 a) (Cscale (1 - b1) x)) m gv.
Proof.
  unfold cadd_, cmul_. revert gv.
  induction m as [|a m IH]; intros [|x gv]; simpl; try reflexivity.
  now rewrite IH.
Qed.

Lemma complex_exp_avg_sq_eq v gv b2 :
  Yogi.update_exp_avg_sq_complex v (cmul gv gv) b2
  = cmap2 Cadd v
      (cmap2 (fun s x => Cscale (- (1 - b2)) (Cmul s (Cmul x x)))
             (cmap2 (fun a x => Csgn (Csub a (Cmul x x))) v gv) gv).
Proof.
  unfold Yogi.update_exp_avg_sq_complex, caddcmul_, cmul, csub, sgn_.
  revert gv.
  induction v as [|a v IH]; intros [|x gv]; simpl; try reflexivity.
  now rewrite IH.
Qed.

Lemma complex_de_nom_eq v bc2 eps :
  cadd_scalar (cdiv_scalar (csqrt_ v) bc2) eps
  = map (fun z => Cadd (Cscale (/ bc2) (Csqrt z)) (eps, 0)) v.
Proof.
  unfold cadd_scalar, cdiv_scalar, csqrt_. rewrite !map_map.
  apply map_ext. intros z. unfold Cadd, Cscale. simpl fst. simpl snd.
  f_equal; unfold Rdiv; ring.
Qed.

Lemma complex_param_eq pd m den ss :
  caddcdiv_ pd m den (- ss)
  = cmap2 Csub pd (cmap2 (fun a d => Cscale ss (Cdiv a d)) m den).
Proof.
  unfold caddcdiv_, cdiv_. revert m den.
  induction pd as [|a pd IH]; intros [|x m] [|d den]; simpl;
    try reflexivity.
  rewrite IH. f_equal.
  unfold Cadd, Csub, Cscale. simpl fst. simpl snd. f_equal; ring.
Qed.

Lemma Forall_cmap2 (P : complex -> Prop) f a b :
  (forall x y, P (f x y)) -> Forall P (cmap2 f a b).
Proof.
  intros H. revert b.
  induction a as [|x a IH]; intros [|y b]; simpl; constructor; auto.
Qed.

(** C2.  Yogi, one parameter with a dense gradient and accumulators [m],
    [v] at group step count [t]: with [gv], [pd] the gradient and
    parameter after the maximize switch and weight decay, the first
    moment becomes [beta1*m + (1-beta1)*gv]; the second moment changes by
    exactly [-(1-beta2)*sign_term*gv^2] with
    [sign_term = sign(v - gv^2)], which is in {-1, 0, 1} on real-valued
    accumulators and is the complex-aware sign on complex ones ([0] or
    of modulus [1], and the real sign where the imaginary part is [0]);
    the denominator is [sqrt(v')/sqrt(1-beta2^t) + eps]; and the
    parameter loses [step_size*m'/denom], [step_size] being [lr] divided
    by [1-beta1^t] unless [adam_debias] is set.  The betas are in the
    validated range, [1-beta2^t] is positive, and the denominators are
    not zero (with no negative radicand on real accumulators), so that
    each quotient is a quotient of numbers. *)
Theorem yogi_update_rule
        (mx : bool) (g : Yogi.Group) (t : nat) (bc2 ss : R)
        (st : store Yogi.State) (p : Param) (gv0 m v : tensor)
        (Hk : Yogi.scalars g t = Ok (bc2, ss))
        (Hgrad : p_grad p = Some (mkGrad false gv0))
        (Hst : lookup (p_id p) st = Some (Yogi.mkState (Some m) (Some v)))
        (Hbeta1 : 0 <= fst (Yogi.betas g) <= 1)
        (Hbeta2 : 0 <= snd (Yogi.betas g) <= 1)
        (Hbc2 : 0 < 1 - snd (Yogi.betas g) ^ t) :
  let beta1 := fst (Yogi.betas g) in
  let beta2 := snd (Yogi.betas g) in
  let step_size :=
    if match Yogi.adam_debias g with Some b => b | None => false end
    then Yogi.lr g else Yogi.lr g / (1 - beta1 ^ t) in
  (let dec := Yogi.apply_weight_decay
                (p_data p) (if mx then map Ropp gv0 else gv0)
                (Yogi.lr g) (Yogi.weight_decay g)
                (Yogi.weight_decouple g) (Yogi.fixed_decay g) in
   let pd := fst dec in
   let gv := snd dec in
   let m' := map2 (fun a x => beta1 * a + (1 - beta1) * x) m gv in
   let sign_term := map2 (fun a x => sign1 (a - x * x)) v gv in
   let change :=
     map2 (fun s x => - (1 - beta2) * s * (x * x)) sign_term gv in
   let v' := map2 Rplus v change in
   let denom :=
     map (fun x => sqrt x / sqrt (1 - beta2 ^ t) + Yogi.eps g) v' in
   Forall (fun s => s = -1 \/ s = 0 \/ s = 1) sign_term /\
   (Forall (fun x => 0 <= x) v' ->
    Forall (fun d => d <> 0) denom ->
    Yogi.update mx g bc2 ss st p
    = (assign (p_id p) (Yogi.mkState (Some m') (Some v')) st,
       mkParam (p_id p)
               (map2 Rminus pd
                     (map2 (fun a d => step_size * a / d) m' denom))
               (Some (mkGrad false gv)),
       None))) /\
  (forall pd gv cm cv : ctensor,
      let m' :=
        cmap2 (fun a x => Cadd (Cscale beta1 a) (Cscale (1 - beta1) x))
              cm gv in
      let sign_term := cmap2 (fun a x => Csgn (Csub a (Cmul x x))) cv gv in
      let change :=
        cmap2 (fun s x => Cscale (- (1 - beta2)) (Cmul s (Cmul x x)))
              sign_term gv in
      let v' := cmap2 Cadd cv change in
      let denom :=
        map (fun z => Cadd (Cscale (/ sqrt (1 - beta2 ^ t)) (Csqrt z))
                           (Yogi.eps g, 0)) v' in
      Forall (fun s => s = (0, 0) \/ Cabs s = 1) sign_term /\
      (forall x, Csgn (x, 0) = (sign1 x, 0)) /\
      (Forall (fun d => d <> (0, 0)) denom ->
       Yogi.update_complex g bc2 ss pd gv cm cv
       = (m', v',
          cmap2 Csub pd
                (cmap2 (fun a d => Cscale step_size (Cdiv a d)) m' denom)))).
Proof.
  intros beta1 beta2 step_size.
  destruct (yogi_scalars_inv _ _ _ _ Hk) as (Hb2 & Hss & _).
  clear Hbeta1 Hbeta2 Hbc2.
  split.
  - intros dec pd gv m' sign_term change v' denom.
    split.
    { apply Forall_map2. intros x y _ _. apply sign1_cases. }
    intros _ _.
    unfold Yogi.update. rewrite Hgrad. simpl g_values. simpl is_sparse.
    unfold getitem. rewrite Hst.
    unfold Yogi.maximize_gradient, neg_. fold dec.
    destruct dec as [pd0 gvd] eqn:Edec. simpl in pd, gv. subst pd gv.
    destruct (Yogi.betas g) as [b1 b2] eqn:Eb. simpl in beta1, beta2.
    subst beta1 beta2. simpl Yogi.exp_avg. simpl Yogi.exp_avg_sq. cbv iota.
    assert (Em : add_ (mul_ m b1) gvd (1 - b1) = m').
    { unfold add_, mul_, m'. rewrite map2_map_l. apply map2_ext.
      intros; ring. }
    assert (Ev : Yogi.update_exp_avg_sq v (mul gvd gvd) b2 = v').
    { unfold Yogi.update_exp_avg_sq, addcmul_, mul, sign_, sub, v', change,
        sign_term.
      rewrite map2_plus_scaled. f_equal.
      rewrite !map2_diag, (map2_map_r Rminus), map_map2, map2_map_r.
      rewrite map_map2. apply map2_ext. intros; ring. }
    rewrite Em, Ev. do 3 f_equal.
    unfold addcdiv_, div_, add_scalar, div_scalar, sqrt_, denom.
    rewrite !map_map, map2_minus_scaled.
    apply (f_equal (map2 Rminus pd0)).
    rewrite map_map2, !map2_map_r, Hb2, Hss. simpl fst. simpl snd.
    fold step_size. apply map2_ext. intros; unfold Rdiv; ring.
  - intros pd gv cm cv m' sign_term change v' denom.
    split.
    { apply Forall_cmap2. intros x y. apply Csgn_cases. }
    split; [exact Csgn_real|].
    intros _.
    unfold Yogi.update_complex.
    destruct (Yogi.betas g) as [b1 b2] eqn:Eb. simpl in beta1, beta2.
    subst beta1 beta2.
    rewrite complex_exp_avg_eq, complex_exp_avg_sq_eq, complex_de_nom_eq,
      complex_param_eq.
    rewrite Hb2, Hss. simpl snd. simpl fst. reflexivity.
Qed.

(** The denominators of line 131 are not zero on positive second
    moments. *)
Lemma yogi_denominator_pos x c e :
  0 < x -> 0 < c -> 0 <= e -> 0 < sqrt x / sqrt c + e.
Proof.
  intros Hx Hc He.
  pose proof (sqrt_lt_R0 x Hx). pose proof (sqrt_lt_R0 c Hc).
  assert (0 < sqrt x / sqrt c) by (apply Rdiv_lt_0_compat; assumption).
  lra.
Qed.

Lemma complex_denominator_nonzero z c e :
  0 < fst z -> 0 < c -> 0 <= e ->
  Cadd (Cscale (/ sqrt c) (Csqrt z)) (e, 0) <> (0, 0).
Proof.
  intros Hz Hc He H. apply (f_equal fst) in H.
  unfold Cadd, Cscale, Csqrt in H. simpl in H.
  pose proof (Cabs_nonneg z).
  assert (0 < sqrt ((Cabs z + fst z) / 2)) by (apply sqrt_lt_R0; lra).
  assert (0 < / sqrt c) by (apply Rinv_0_lt_compat, sqrt_lt_R0, Hc).
  nra.
Qed.

Lemma yogi_update_rule_witness :
  exists bc2 ss st' p' cm' cv' cp',
    Yogi.scalars yogi_group_example 1 = Ok (bc2, ss) /\
    lookup 0%nat [(0%nat, Yogi.mkState (Some [1]) (Some [1]))]
    = Some (Yogi.mkState (Some [1]) (Some [1])) /\
    Yogi.update false yogi_group_example bc2 ss
                [(0%nat, Yogi.mkState (Some [1]) (Some [1]))]
                dense_param_example
    = (st', p', None) /\
    Yogi.update_complex yogi_group_example bc2 ss
                        [(1, 0)] [(0, 1)] [(0, 0)] [(1, 0)]
    = (cm', cv', cp').
Proof.
  assert (H1 : 0 <= 1 - snd (Yogi.betas yogi_group_example) ^ 1)
    by (simpl; lra).
  assert (H2 : Yogi.adam_debias yogi_group_example <> Some true ->
               1 - fst (Yogi.betas yogi_group_example) ^ 1 <> 0)
    by (intros _; simpl; lra).
  destruct (yogi_scalars_ok yogi_group_example 1 H1 H2) as (bc2 & ss & Hk).
  assert (Hb1 : 0 <= fst (Yogi.betas yogi_group_example) <= 1)
    by (simpl; lra).
  assert (Hb2 : 0 <= snd (Yogi.betas yogi_group_example) <= 1)
    by (simpl; lra).
  assert (Hbc : 0 < 1 - snd (Yogi.betas yogi_group_example) ^ 1)
    by (simpl; lra).
  assert (Hs : forall s, s = -1 \/ s = 0 \/ s = 1 ->
                         0 < 1 + - (1 - 0) * s * (1 / 4 * (1 / 4)))
    by (intros s [->|[->| ->]]; lra).
  assert (Es : Csgn (Csub (1, 0) (Cmul (0, 1) (0, 1))) = (1, 0)).
  { replace (Csub (1, 0) (Cmul (0, 1) (0, 1))) with ((2, 0) : complex)
      by (unfold Csub, Cmul; simpl; f_equal; ring).
    rewrite Csgn_real. unfold sign1.
    destruct (Rlt_dec 2 0); [lra|]. destruct (Rlt_dec 0 2); [|lra].
    reflexivity. }
  destruct (yogi_update_rule false yogi_group_example 1 bc2 ss
              [(0%nat, Yogi.mkState (Some [1]) (Some [1]))]
              dense_param_example [1 / 4] [1] [1] Hk eq_refl eq_refl
              Hb1 Hb2 Hbc)
    as [[_ Hu] Hc].
  destruct (Hc [(1, 0)] [(0, 1)] [(0, 0)] [(1, 0)]) as (_ & _ & Huc).
  unfold Yogi.apply_weight_decay in Hu. simpl in Hu.
  destruct (Req_dec_T 0 0) as [_|N]; [|lra]. simpl in Hu.
  simpl in Huc. rewrite Es in Huc.
  exists bc2, ss. do 5 eexists.
  split; [exact Hk|]. split; [reflexivity|].
  split.
  - apply Hu.
    + constructor; [|constructor]. left. apply Hs, sign1_cases.
    + constructor; [|constructor].
      apply Rgt_not_eq, yogi_denominator_pos; [apply Hs, sign1_cases|lra|lra].
  - apply Huc. constructor; [|constructor].
    apply complex_denominator_nonzero; simpl; lra.
Defined.

(** ** Evaluating a step on concrete optimizers *)

Ltac decide_reals :=
  repeat match goal with
  | |- context [Rlt_dec ?a ?b] => destruct (Rlt_dec a b); try lra
  | |- context [Req_dec_T ?a ?b] => destruct (Req_dec_T a b); try lra
  end.

Ltac run_yogi :=
  unfold Yogi.step, Yogi.set_grads; simpl;
  unfold Yogi.step_group, Yogi.group_body; simpl;
  unfold Yogi.scalars, Yogi.debias, Yogi.apply_adam_debias, math_sqrt, py_div;
  simpl; decide_reals;
  unfold Yogi.update, Yogi.apply_weight_decay, Yogi.maximize_gradient; simpl;
  decide_reals; simpl.

Ltac run_adabound :=
  unfold AdaBound.step, AdaBound.reset, AdaBound.set_grads; simpl;
  unfold AdaBound.step_group, AdaBound.next_step; simpl;
  unfold AdaBound.scalars, math_sqrt, py_div; simpl; decide_reals;
  unfold AdaBound.update, AdaBound.decay, AdaBound.step_size_scalar, py_div;
  simpl; decide_reals; simpl.

(** Replace one square root in the goal by its value [c]. *)
Ltac sqrt_is c :=
  match goal with
  | |- context [sqrt ?e] =>
    replace (sqrt e) with c by (symmetry; apply sqrt_lem_1; lra)
  end.

Ltac clamp_eval :=
  unfold clamp1, Rmin, Rmax;
  repeat match goal with
  | |- context [Rle_dec ?a ?b] => destruct (Rle_dec a b); try lra
  end.

(** ** Sparse gradients *)

(** AdaBound tests the layout on every call, before it touches the state. *)
Lemma adabound_sparse_raises g k st p grad :
  p_grad p = Some grad -> is_sparse grad = true ->
  AdaBound.update g k st p = (st, p, Some NoSparseGradientError).
Proof. intros Hg Hs. unfold AdaBound.update. now rewrite Hg, Hs. Qed.

(** Yogi tests the layout in [init_group], that is on the first call. *)
Lemma yogi_sparse_raises_first g st p grad :
  p_grad p = Some grad -> is_sparse grad = true ->
  Yogi.init_param g st p = (st, Some NoSparseGradientError).
Proof. intros Hg Hs. unfold Yogi.init_param. now rewrite Hg, Hs. Qed.

Lemma yogi_update_exn mx g bc2 ss st p st' p' e :
  Yogi.update mx g bc2 ss st p = (st', p', Some e) -> e = KeyError.
Proof.
  unfold Yogi.update.
  destruct (p_grad p) as [grad|]; [|discriminate].
  destruct (getitem _ _ _) as [st0 s0].
  destruct (Yogi.apply_weight_decay _ _ _ _ _ _) as [pd gv].
  destruct (Yogi.betas g) as [b1 b2].
  destruct (Yogi.exp_avg s0), (Yogi.exp_avg_sq s0); intros H;
    inversion H; reflexivity.
Qed.

Lemma yogi_step_params_exn mx g bc2 ss ps :
  forall st st' ps' e,
    Yogi.step_params mx g bc2 ss st ps = (st', ps', Some e) -> e = KeyError.
Proof.
  induction ps as [|p rest IH]; simpl; intros st st' ps' e; [discriminate|].
  destruct (Yogi.update mx g bc2 ss st p) as [[st1 p1] [e1|]] eqn:Eu.
  - intros H; inversion H; subst. eapply yogi_update_exn; eauto.
  - destruct (Yogi.step_params mx g bc2 ss st1 rest) as [[st2 r2] e2] eqn:Er.
    intros H; inversion H; subst. eapply IH; eauto.
Qed.

(** Once the group counter exists, no path of Yogi's group body raises
    [NoSparseGradientError]. *)
Lemma yogi_no_layout_test_later mx st g st' g' e :
  Yogi.gr_step g <> None ->
  Yogi.step_group mx st g = (st', g', Some e) ->
  e <> NoSparseGradientError.
Proof.
  unfold Yogi.step_group, Yogi.group_body.
  destruct (Yogi.gr_step g) as [n|]; [|congruence]. intros _.
  destruct (Yogi.scalars _ _) as [[bc2 ss]|e0] eqn:Es.
  - destruct (Yogi.step_params _ _ _ _ _ _) as [[st2 ps2] e2] eqn:Ep.
    intros H; inversion H; subst.
    apply yogi_step_params_exn in Ep. subst; discriminate.
  - intros H; inversion H; subst. revert Es.
    unfold Yogi.scalars, Yogi.apply_adam_debias, math_sqrt, py_div.
    destruct (Yogi.betas _) as [b1 b2].
    destruct (Rlt_dec _ _); [intros H'; inversion H'; discriminate|].
    destruct (match Yogi.adam_debias _ with Some b => b | None => false end);
      [discriminate|].
    destruct (Req_dec_T _ _); [intros H'; inversion H'|]; discriminate.
Qed.

(** C3 (Yogi, second call).  With the group counter at 1 and a gradient
    in coordinate layout, [step] does not raise [NoSparseGradientError],
    and the parameter's accumulators are overwritten. *)
Theorem yogi_sparse_not_rejected_later :
  snd (Yogi.step None yogi_sparse_later) <> Raised NoSparseGradientError /\
  lookup 0%nat (Yogi.state (fst (Yogi.step None yogi_sparse_later)))
  <> lookup 0%nat (Yogi.state yogi_sparse_later).
Proof.
  unfold yogi_sparse_later. run_yogi.
  split; [discriminate|].
  intros H. inversion H. lra.
Qed.

(** ** Lazy creation of the state *)

(** AdaBound creates the entry on whichever call first sees a gradient:
    after the body ran on a parameter with a dense gradient, the store
    has exactly one entry for it, and that entry holds the accumulators. *)
Lemma adabound_state_entry g k st p gv st' p' e :
  (forall i, entries i st <= 1)%nat ->
  p_grad p = Some (mkGrad false gv) ->
  AdaBound.update g k st p = (st', p', e) ->
  entries (p_id p) st' = 1%nat /\
  (lookup (p_id p) st = None ->
   exists s, lookup (p_id p) st' = Some s /\
             AdaBound.exp_avg s <> None /\ AdaBound.exp_avg_sq s <> None /\
             (AdaBound.ams_bound g = true ->
              AdaBound.max_exp_avg_sq s <> None)).
Proof.
  intros Hone Hg. unfold AdaBound.update. rewrite Hg. simpl.
  unfold getitem.
  destruct (lookup (p_id p) st) as [s0|] eqn:El.
  - destruct (AdaBound.decay _ _ _) as [pd gvd].
    destruct (AdaBound.betas g) as [b1 b2].
    assert (E1 : forall s, entries (p_id p) (assign (p_id p) s st) = 1%nat)
      by (intros; apply entries_assign_same, Hone).
    set (s1 := AdaBound.init_state g p s0).
    destruct (AdaBound.exp_avg s1), (AdaBound.exp_avg_sq s1);
      try (intros H; inversion H; subst; split; [apply E1 | discriminate]).
    simpl AdaBound.max_exp_avg_sq.
    destruct (AdaBound.ams_bound g);
      [destruct (AdaBound.max_exp_avg_sq s1)|];
      try destruct (AdaBound.step_size_scalar g k);
      intros H; inversion H; subst; (split; [apply E1 | discriminate]).
  - destruct (AdaBound.decay _ _ _) as [pd gvd].
    destruct (AdaBound.betas g) as [b1 b2].
    assert (E1 : forall s s',
               entries (p_id p)
                       (assign (p_id p) s (assign (p_id p) s' st)) = 1%nat).
    { intros. apply entries_assign_same.
      rewrite entries_assign_same; [lia | apply Hone]. }
    unfold AdaBound.init_state. simpl.
    destruct (AdaBound.ams_bound g) eqn:Eams; simpl;
      destruct (AdaBound.step_size_scalar g k);
      intros H; inversion H; subst;
      (split; [apply E1 | intros _; rewrite lookup_assign_same;
                          eexists; split; [reflexivity|];
                          simpl; repeat split; discriminate]).
Qed.

(** C4 (Yogi, gradient arriving after the first call).  The first call
    sees no gradient and creates nothing; when the gradient is there on
    the second call, the accumulators are read from an empty entry and
    [step] raises [KeyError]. *)
Theorem yogi_late_gradient_key_error :
  let o1 := fst (Yogi.step None yogi_no_grad_yet) in
  let o2 := Yogi.set_grads (fun _ => Some (mkGrad false [1])) o1 in
  snd (Yogi.step None yogi_no_grad_yet) = Returned None /\
  Yogi.state o1 = [] /\
  snd (Yogi.step None o2) = Raised KeyError /\
  lookup 0%nat (Yogi.state (fst (Yogi.step None o2))) = Some Yogi.no_state.
Proof.
  unfold yogi_no_grad_yet. run_yogi. run_yogi. repeat split.
Qed.

(** ** Reset *)

(** [reset] leaves every group as it is: hyperparameters, parameters and
    the group counter read by [step]. *)
Lemma adabound_reset_groups o :
  AdaBound.param_groups (AdaBound.reset o) = AdaBound.param_groups o.
Proof. reflexivity. Qed.

Lemma adabound_reset_param_entry g st p :
  exists s,
    lookup (p_id p) (AdaBound.reset_param g st p) = Some s /\
    AdaBound.st_step s = Some 0%nat /\
    AdaBound.exp_avg s = Some (zeros_like (p_data p)) /\
    AdaBound.exp_avg_sq s = Some (zeros_like (p_data p)) /\
    (AdaBound.ams_bound g = true ->
     AdaBound.max_exp_avg_sq s = Some (zeros_like (p_data p))).
Proof.
  unfold AdaBound.reset_param.
  destruct (getitem _ _ _) as [st0 s0].
  rewrite lookup_assign_same. eexists; split; [reflexivity|]. simpl.
  repeat split. intros ->. reflexivity.
Qed.

(** C8 (the call after a reset).  One step, then [reset], then a second
    step: [reset] zeroes the accumulators and writes 0 under the key
    ['step'] of the parameter's state, but the counter that [step] reads
    is the group's, so the second step runs with [t = 2] (upper bound
    3/2), not with [t = 1] (upper bound 2, which would bring the
    parameter to 0). *)
Theorem adabound_step_after_reset :
  let o1 := fst (AdaBound.step None adabound_before_reset) in
  let o2 := AdaBound.reset o1 in
  let o3 := fst (AdaBound.step None o2) in
  map AdaBound.gr_step (AdaBound.param_groups o1) = [Some 1%nat] /\
  lookup 0%nat (AdaBound.state o2)
  = Some (AdaBound.mkState (Some 0%nat) (Some [0]) (Some [0]) None) /\
  map AdaBound.gr_step (AdaBound.param_groups o2) = [Some 1%nat] /\
  map AdaBound.gr_step (AdaBound.param_groups o3) = [Some 2%nat] /\
  map (fun g => map p_data (AdaBound.params g)) (AdaBound.param_groups o1)
  = [[[1 / 2]]] /\
  map (fun g => map p_data (AdaBound.params g)) (AdaBound.param_groups o3)
  = [[[1 / 8]]].
Proof.
  unfold adabound_before_reset. run_adabound.
  unfold AdaBound.reset_group, AdaBound.reset_param; simpl.
  run_adabound.
  repeat sqrt_is 1. repeat sqrt_is (1 / 4).
  repeat split; unfold add_; simpl; do 3 f_equal; clamp_eval.
Qed.

(** ** Sign of the second moments *)

Section StoreAll.
Context {S : Type} (P : S -> Prop).

Lemma store_all_assign k v (st : store S) :
  store_all P st -> P v -> store_all P (assign k v st).
Proof.
  unfold store_all. intros H Hv.
  induction st as [|[k' v'] r IH]; simpl.
  - constructor; [exact Hv | constructor].
  - inversion H; subst.
    destruct (Nat.eqb k k'); constructor; auto.
Qed.

Lemma store_all_lookup k v (st : store S) :
  store_all P st -> lookup k st = Some v -> P v.
Proof.
  unfold store_all. intros H.
  induction st as [|[k' v'] r IH]; simpl; [discriminate|].
  inversion H; subst.
  destruct (Nat.eqb k k'); [intros E; inversion E; subst; assumption | auto].
Qed.

Lemma store_all_getitem empty k (st : store S) :
  store_all P st -> P empty ->
  store_all P (fst (getitem empty k st)) /\ P (snd (getitem empty k st)).
Proof.
  intros H He. unfold getitem.
  destruct (lookup k st) as [v|] eqn:E; simpl.
  - split; [assumption | eapply store_all_lookup; eauto].
  - split; [now apply store_all_assign | assumption].
Qed.
End StoreAll.

Lemma Forall_map2_l (P Q : R -> Prop) (f : R -> R -> R) (a b : tensor) :
  Forall Q a -> (forall x y, Q x -> P (f x y)) -> Forall P (map2 f a b).
Proof.
  intros Ha Hf. revert b.
  induction Ha as [|x a Hx Ha IH]; intros [|y b]; simpl; constructor; auto.
Qed.

Lemma zeros_like_nonneg p : Forall (Rle 0) (zeros_like p).
Proof. unfold zeros_like. apply Forall_forall. intros x Hx.
       apply in_map_iff in Hx. destruct Hx as (_ & <- & _). lra. Qed.

Lemma full_like_nonneg p c : 0 <= c -> Forall (Rle 0) (full_like p c).
Proof. intros Hc. unfold full_like. apply Forall_forall. intros x Hx.
       apply in_map_iff in Hx. destruct Hx as (_ & <- & _). exact Hc. Qed.

(** AdaBound's second moment is a convex combination of non-negative
    numbers. *)
Lemma adabound_exp_avg_sq_nonneg v gv beta2 :
  0 <= beta2 <= 1 -> Forall (Rle 0) v ->
  Forall (Rle 0) (addcmul_ (mul_ v beta2) gv gv (1 - beta2)).
Proof.
  intros Hb Hv. unfold addcmul_, mul_, mul.
  rewrite map2_diag, map2_map_l, map2_map_r.
  apply Forall_map2_l with (Q := Rle 0); [assumption|].
  intros x y Hx. pose proof (Rle_0_sqr y) as Hy. unfold Rsqr in Hy. nra.
Qed.

(** Yogi's signed increment never crosses zero from above. *)
Lemma yogi_exp_avg_sq_nonneg v gv beta2 :
  0 <= beta2 <= 1 -> Forall (Rle 0) v ->
  Forall (Rle 0) (Yogi.update_exp_avg_sq v (mul gv gv) beta2).
Proof.
  intros Hb Hv. unfold Yogi.update_exp_avg_sq, addcmul_, mul, sign_, sub.
  rewrite map2_plus_scaled.
  rewrite !map2_diag, (map2_map_r Rminus), map_map2, map2_map_r, map_map2.
  rewrite map2_map2_l, map2_map2_r.
  apply Forall_map2_l with (Q := Rle 0); [assumption|].
  intros x y Hx. pose proof (Rle_0_sqr y) as Hy. unfold Rsqr in Hy.
  unfold sign1. destruct (Rlt_dec (x - y * y) 0); [nra|].
  destruct (Rlt_dec 0 (x - y * y)); nra.
Qed.

Section AdaBoundNonneg.
Import AdaBound.

Lemma adabound_init_state_nonneg g p s : moment_ok s -> moment_ok (init_state g p s).
Proof.
  unfold moment_ok, init_state. intros H.
  destruct (len0 s); [simpl; apply zeros_like_nonneg | exact H].
Qed.

Lemma adabound_update_nonneg g k st p st' p' e :
  0 <= snd (betas g) <= 1 -> store_all moment_ok st ->
  update g k st p = (st', p', e) -> store_all moment_ok st'.
Proof.
  intros Hb Hst. unfold update.
  destruct (p_grad p) as [grad|]; [|intros H; inversion H; subst; exact Hst].
  destruct (is_sparse grad); [intros H; inversion H; subst; exact Hst|].
  destruct (store_all_getitem moment_ok no_state (p_id p) st Hst I) as [H0 Hs0].
  destruct (getitem no_state (p_id p) st) as [st0 s0]. simpl in H0, Hs0.
  pose proof (adabound_init_state_nonneg g p s0 Hs0) as Hs1.
  set (s1 := init_state g p s0) in *.
  destruct (decay g (p_data p) (g_values grad)) as [pd gv].
  destruct (betas g) as [b1 b2]. simpl in Hb.
  destruct (exp_avg s1) as [m|] eqn:Em;
    [| intros H; inversion H; subst; now apply store_all_assign].
  destruct (exp_avg_sq s1) as [v|] eqn:Ev;
    [| intros H; inversion H; subst; now apply store_all_assign].
  assert (Hv' : Forall (Rle 0) (addcmul_ (mul_ v b2) gv gv (1 - b2))).
  { apply adabound_exp_avg_sq_nonneg; [exact Hb|].
    unfold moment_ok in Hs1. now rewrite Ev in Hs1. }
  simpl max_exp_avg_sq.
  destruct (ams_bound g);
    [destruct (max_exp_avg_sq s1) as [mx|]|];
    try destruct (step_size_scalar g k);
    intros H; inversion H; subst;
    apply store_all_assign; auto.
Qed.

Lemma adabound_step_params_nonneg g k ps :
  0 <= snd (betas g) <= 1 ->
  forall st st' ps' e,
    store_all moment_ok st -> step_params g k st ps = (st', ps', e) ->
    store_all moment_ok st'.
Proof.
  intros Hb. induction ps as [|p rest IH]; simpl; intros st st' ps' e Hst.
  - intros H; inversion H; subst; exact Hst.
  - destruct (update g k st p) as [[st1 p1] e1] eqn:Eu.
    pose proof (adabound_update_nonneg _ _ _ _ _ _ _ Hb Hst Eu) as H1.
    destruct e1 as [x|]; [intros H; inversion H; subst; exact H1|].
    destruct (step_params g k st1 rest) as [[st2 r2] e2] eqn:Er.
    intros H; inversion H; subst. eapply IH; eauto.
Qed.

Lemma adabound_step_group_nonneg st g b st' g' e :
  0 <= snd (betas g) <= 1 -> store_all moment_ok st ->
  step_group st g b = (st', g', e) ->
  store_all moment_ok st' /\ betas g' = betas g.
Proof.
  intros Hb Hst. unfold step_group.
  destruct (scalars _ _ _) as [k|x];
    [| intros H; inversion H; subst; split; [exact Hst | reflexivity]].
  destruct (step_params _ _ _ _) as [[st1 ps1] e1] eqn:Ep.
  intros H; inversion H; subst. split; [|reflexivity].
  eapply (adabound_step_params_nonneg (set_step g (next_step g)));
    [exact Hb | exact Hst | exact Ep].
Qed.

Lemma adabound_step_groups_nonneg gs :
  forall bl st st' gs' e,
    Forall (fun b => 0 <= snd b <= 1) (map betas gs) -> store_all moment_ok st ->
    step_groups st gs bl = (st', gs', e) ->
    store_all moment_ok st' /\ map betas gs' = map betas gs.
Proof.
  induction gs as [|g gs IH]; intros bl st st' gs' e Hb Hst; simpl.
  - intros H; inversion H; subst; auto.
  - destruct bl as [|b bl]; [intros H; inversion H; subst; auto|].
    inversion Hb as [|? ? Hg Hgs]; subst.
    destruct (step_group st g b) as [[st1 g1] e1] eqn:Eg.
    destruct (adabound_step_group_nonneg _ _ _ _ _ _ Hg Hst Eg) as [H1 Hb1].
    destruct e1 as [x|].
    + intros H; inversion H; subst. simpl. now rewrite Hb1.
    + destruct (step_groups st1 gs bl) as [[st2 gs2] e2] eqn:Er.
      intros H; inversion H; subst.
      destruct (IH _ _ _ _ _ Hgs H1 Er) as [H2 Hb2].
      split; [exact H2 | simpl; now rewrite Hb1, Hb2].
Qed.

Lemma adabound_reset_nonneg gs :
  forall st, store_all moment_ok st -> store_all moment_ok (fold_left reset_group gs st).
Proof.
  induction gs as [|g gs IH]; simpl; intros st Hst; [exact Hst|].
  apply IH. unfold reset_group. generalize dependent st.
  induction (params g) as [|p ps IHp]; simpl; intros st Hst; [exact Hst|].
  apply IHp. unfold reset_param.
  destruct (store_all_getitem moment_ok no_state (p_id p) st Hst I) as [H0 _].
  destruct (getitem no_state (p_id p) st) as [st0 s0]. simpl in H0.
  apply store_all_assign; [exact H0 | apply zeros_like_nonneg].
Qed.

(** From a newly built AdaBound whose [beta2] lies in [0, 1], every
    reachable second moment is non-negative. *)
Lemma adabound_second_moments_nonneg o0 o :
  state o0 = [] ->
  Forall (fun b => 0 <= snd b <= 1) (map betas (param_groups o0)) ->
  reachable o0 o -> second_moments_nonneg o.
Proof.
  intros Hnew Hb Hr.
  assert (Inv : second_moments_nonneg o /\
                Forall (fun b => 0 <= snd b <= 1)
                       (map betas (param_groups o))).
  { induction Hr as [|o o' Hr IH [Hs Hg]|o Hr IH|o Hr IH].
    - split; [|exact Hb].
      unfold second_moments_nonneg, store_all. rewrite Hnew. constructor.
    - destruct IH as [IH1 IH2]. split.
      + unfold second_moments_nonneg. now rewrite Hs.
      + now rewrite Hg.
    - destruct IH as [IH1 IH2]. unfold step.
      destruct (step_groups (state o) (param_groups o) (base_lrs o))
        as [[st gs] e] eqn:Es.
      destruct (adabound_step_groups_nonneg _ _ _ _ _ _ IH2 IH1 Es)
        as [H1 H2].
      destruct e; simpl; (split; [exact H1 | now rewrite H2]).
    - destruct IH as [IH1 IH2]. split; [|exact IH2].
      unfold second_moments_nonneg, reset. simpl.
      now apply adabound_reset_nonneg. }
  exact (proj1 Inv).
Qed.
End AdaBoundNonneg.

Section YogiNonneg.
Import Yogi.

Lemma yogi_init_group_nonneg g ps :
  0 <= initial_accumulator g ->
  forall st st' e,
    store_all moment_ok st -> init_group g st ps = (st', e) -> store_all moment_ok st'.
Proof.
  intros Hi. induction ps as [|p rest IH]; simpl; intros st st' e Hst.
  - intros H; inversion H; subst; exact Hst.
  - assert (H1 : store_all moment_ok (fst (init_param g st p))).
    { unfold init_param.
      destruct (p_grad p) as [grad|]; [|exact Hst].
      destruct (is_sparse grad); [exact Hst|].
      destruct (store_all_getitem moment_ok no_state (p_id p) st Hst I) as [H0 _].
      destruct (getitem no_state (p_id p) st) as [st0 s0]. simpl in H0.
      destruct (len0 s0); simpl; [|exact H0].
      apply store_all_assign; [exact H0|].
      unfold moment_ok; simpl. now apply full_like_nonneg. }
    destruct (init_param g st p) as [st1 [x|]]; simpl in H1.
    + intros H; inversion H; subst; exact H1.
    + apply IH; exact H1.
Qed.

Lemma yogi_update_nonneg mx g bc2 ss st p st' p' e :
  0 <= snd (betas g) <= 1 -> store_all moment_ok st ->
  update mx g bc2 ss st p = (st', p', e) -> store_all moment_ok st'.
Proof.
  intros Hb Hst. unfold update.
  destruct (p_grad p) as [grad|]; [|intros H; inversion H; subst; exact Hst].
  destruct (store_all_getitem moment_ok no_state (p_id p) st Hst I) as [H0 Hs0].
  destruct (getitem no_state (p_id p) st) as [st0 s0]. simpl in H0, Hs0.
  destruct (apply_weight_decay _ _ _ _ _ _) as [pd gv].
  destruct (betas g) as [b1 b2]. simpl in Hb.
  destruct (exp_avg s0) as [m|];
    [| intros H; inversion H; subst; exact H0].
  destruct (exp_avg_sq s0) as [v|] eqn:Ev;
    [| intros H; inversion H; subst; exact H0].
  intros H; inversion H; subst.
  apply store_all_assign; [exact H0|].
  unfold moment_ok; simpl. apply yogi_exp_avg_sq_nonneg; [exact Hb|].
  unfold moment_ok in Hs0. now rewrite Ev in Hs0.
Qed.

Lemma yogi_step_params_nonneg mx g bc2 ss ps :
  0 <= snd (betas g) <= 1 ->
  forall st st' ps' e,
    store_all moment_ok st -> step_params mx g bc2 ss st ps = (st', ps', e) ->
    store_all moment_ok st'.
Proof.
  intros Hb. induction ps as [|p rest IH]; simpl; intros st st' ps' e Hst.
  - intros H; inversion H; subst; exact Hst.
  - destruct (update mx g bc2 ss st p) as [[st1 p1] e1] eqn:Eu.
    pose proof (yogi_update_nonneg _ _ _ _ _ _ _ _ _ Hb Hst Eu) as H1.
    destruct e1 as [x|]; [intros H; inversion H; subst; exact H1|].
    destruct (step_params mx g bc2 ss st1 rest) as [[st2 r2] e2] eqn:Er.
    intros H; inversion H; subst. eapply IH; eauto.
Qed.

Lemma yogi_step_group_nonneg mx st g st' g' e :
  good_hyper (hyper g) -> store_all moment_ok st ->
  step_group mx st g = (st', g', e) ->
  store_all moment_ok st' /\ hyper g' = hyper g.
Proof.
  intros [Hb Hi] Hst. unfold hyper in *. simpl in Hb, Hi.
  assert (Hsc : forall st1 t,
             store_all moment_ok st1 ->
             group_body mx st1 (set_step g t) t = (st', g', e) ->
             store_all moment_ok st' /\
             (betas g', initial_accumulator g')
             = (betas g, initial_accumulator g)).
  { intros st1 t H1. unfold group_body.
    destruct (scalars (set_step g t) t) as [[bc2 ss]|x];
      [| intros H; inversion H; subst; split; [exact H1 | reflexivity]].
    destruct (step_params _ _ _ _ _ _) as [[st2 ps2] e2] eqn:Ep.
    intros H; inversion H; subst. split; [|reflexivity].
    eapply (yogi_step_params_nonneg mx (set_step g t));
      [exact Hb | exact H1 | exact Ep]. }
  unfold step_group.
  destruct (gr_step g) as [n|].
  - apply Hsc; exact Hst.
  - destruct (init_group g st (params g)) as [st1 e1] eqn:Ei.
    pose proof (yogi_init_group_nonneg _ _ Hi _ _ _ Hst Ei) as H1.
    destruct e1 as [x|].
    + intros H; inversion H; subst. split; [exact H1 | reflexivity].
    + apply Hsc; exact H1.
Qed.

Lemma yogi_step_groups_nonneg mx gs :
  forall st st' gs' e,
    Forall good_hyper (map hyper gs) -> store_all moment_ok st ->
    step_groups mx st gs = (st', gs', e) ->
    store_all moment_ok st' /\ map hyper gs' = map hyper gs.
Proof.
  induction gs as [|g gs IH]; intros st st' gs' e Hb Hst; simpl.
  - intros H; inversion H; subst; auto.
  - inversion Hb as [|? ? Hg Hgs]; subst.
    destruct (step_group mx st g) as [[st1 g1] e1] eqn:Eg.
    destruct (yogi_step_group_nonneg _ _ _ _ _ _ Hg Hst Eg) as [H1 Hb1].
    destruct e1 as [x|].
    + intros H; inversion H; subst. simpl. now rewrite Hb1.
    + destruct (step_groups mx st1 gs) as [[st2 gs2] e2] eqn:Er.
      intros H; inversion H; subst.
      destruct (IH _ _ _ _ Hgs H1 Er) as [H2 Hb2].
      split; [exact H2 | simpl; now rewrite Hb1, Hb2].
Qed.

(** From a newly built Yogi whose [beta2] lies in [0, 1] and whose
    [initial_accumulator] is not negative, every reachable second
    moment is non-negative. *)
Lemma yogi_second_moments_nonneg o0 o :
  state o0 = [] ->
  Forall good_hyper (map hyper (param_groups o0)) ->
  reachable o0 o -> second_moments_nonneg o.
Proof.
  intros Hnew Hb Hr.
  assert (Inv : second_moments_nonneg o /\
                Forall good_hyper (map hyper (param_groups o))).
  { induction Hr as [|o o' Hr IH [Hs Hg]|o Hr IH].
    - split; [|exact Hb].
      unfold second_moments_nonneg, store_all. rewrite Hnew. constructor.
    - destruct IH as [IH1 IH2]. split.
      + unfold second_moments_nonneg. now rewrite Hs.
      + now rewrite Hg.
    - destruct IH as [IH1 IH2]. unfold step.
      destruct (step_groups (maximize o) (state o) (param_groups o))
        as [[st gs] e] eqn:Es.
      destruct (yogi_step_groups_nonneg _ _ _ _ _ _ IH2 IH1 Es)
        as [H1 H2].
      destruct e; simpl; (split; [exact H1 | now rewrite H2]). }
  exact (proj1 Inv).
Qed.
End YogiNonneg.

(** C5 (as amended).  From a newly built optimizer of either variant
    whose [beta2] lies in [0, 1] (and, for Yogi, whose
    [initial_accumulator] is not negative), the second-moment accumulator
    of every state entry is elementwise non-negative in every reachable
    state: after any sequence of steps (completed or raising), resets and
    gradient changes. *)
Theorem second_moments_nonneg_reachable :
  (forall o0 o,
      AdaBound.state o0 = [] ->
      Forall (fun b => 0 <= snd b <= 1)
             (map AdaBound.betas (AdaBound.param_groups o0)) ->
      AdaBound.reachable o0 o -> AdaBound.second_moments_nonneg o) /\
  (forall o0 o,
      Yogi.state o0 = [] ->
      Forall Yogi.good_hyper (map Yogi.hyper (Yogi.param_groups o0)) ->
      Yogi.reachable o0 o -> Yogi.second_moments_nonneg o).
Proof.
  split.
  - exact adabound_second_moments_nonneg.
  - exact yogi_second_moments_nonneg.
Qed.

(** C5 (as stated) fails: built with [initial_accumulator = -1], Yogi
    holds a negative second moment after its first step. *)
Lemma yogi_negative_second_moment :
  Yogi.state yogi_negative_seed = [] /\
  Yogi.reachable yogi_negative_seed
                 (fst (Yogi.step None yogi_negative_seed)) /\
  ~ Yogi.second_moments_nonneg (fst (Yogi.step None yogi_negative_seed)).
Proof.
  split; [reflexivity|]. split; [apply Yogi.reach_step, Yogi.reach_new|].
  unfold Yogi.second_moments_nonneg, store_all, yogi_negative_seed.
  run_yogi. intros H. inversion H as [|? ? H1 _]; subst. simpl in H1.
  unfold Yogi.update_exp_avg_sq, addcmul_, sign_, sub, mul in H1.
  simpl in H1. inversion H1 as [|? ? H2 _]; subst.
  unfold sign1 in H2. revert H2. decide_reals.
Qed.

Lemma second_moments_nonneg_reachable_witness :
  AdaBound.second_moments_nonneg
    (fst (AdaBound.step None adabound_before_reset)) /\
  Yogi.second_moments_nonneg (fst (Yogi.step None yogi_no_grad_yet)).
Proof.
  destruct second_moments_nonneg_reachable as [HA HY]. split.
  - apply (HA adabound_before_reset).
    + reflexivity.
    + simpl. repeat constructor; simpl; lra.
    + apply AdaBound.reach_step, AdaBound.reach_new.
  - apply (HY yogi_no_grad_yet).
    + reflexivity.
    + simpl. repeat constructor; simpl; lra.
    + apply Yogi.reach_step, Yogi.reach_new.
Defined.

(** ** AdaBound: the dynamic bounds *)

Lemma pow_le_one x n : 0 <= x <= 1 -> 0 <= x ^ n <= 1.
Proof.
  intros Hx. induction n as [|n IH]; simpl; [lra | nra].
Qed.

Lemma INR_ge_one t : (1 <= t)%nat -> 1 <= INR t.
Proof. intros H. apply le_INR in H. simpl in H. exact H. Qed.

Lemma clamp1_range lo hi x : lo <= hi -> lo <= clamp1 lo hi x <= hi.
Proof.
  intros H. unfold clamp1, Rmin, Rmax.
  destruct (Rle_dec x lo); destruct (Rle_dec _ hi); lra.
Qed.

Lemma bounds_order f a b :
  0 <= f -> 0 < a -> 0 < b -> f * (1 - 1 / a) <= f * (1 + 1 / b).
Proof.
  intros Hf Ha Hb.
  pose proof (Rinv_0_lt_compat a Ha). pose proof (Rinv_0_lt_compat b Hb).
  unfold Rdiv. nra.
Qed.

Lemma bounds_monotone f a a' :
  0 <= f -> 0 < a -> a <= a' ->
  f * (1 - 1 / a) <= f * (1 - 1 / a') /\ f * (1 + 1 / a') <= f * (1 + 1 / a).
Proof.
  intros Hf Ha Haa'.
  assert (H : / a' <= / a) by (apply Rinv_le_contravar; lra).
  unfold Rdiv. split; nra.
Qed.

(** Both distances to [f] are at most [f / (gamma * t)], which tends to 0. *)
Lemma bounds_converge f gam eps :
  0 <= f -> 0 < gam -> 0 < eps ->
  exists N, forall t, (N <= t)%nat ->
    Rabs (f * (1 - 1 / (gam * INR t + 1)) - f) < eps /\
    Rabs (f * (1 + 1 / (gam * INR t)) - f) < eps.
Proof.
  intros Hf Hg He.
  assert (Hq : 0 < eps * gam / (f + 1)).
  { apply Rdiv_lt_0_compat; nra. }
  destruct (archimed_cor1 _ Hq) as (N & HN & HNpos).
  exists N. intros t Ht.
  assert (HNr : 0 < INR N) by (apply lt_0_INR; exact HNpos).
  assert (Htr : INR N <= INR t) by (apply le_INR; exact Ht).
  assert (Hit : / INR t <= / INR N) by (apply Rinv_le_contravar; lra).
  assert (Ht0 : 0 < INR t) by lra.
  assert (Hgt : 0 < gam * INR t) by nra.
  assert (Hsmall : f * / (gam * INR t) < eps).
  { rewrite Rinv_mult. 
    assert (H1 : / INR t < eps * gam / (f + 1)) by lra.
    assert (Hig : 0 < / gam) by (apply Rinv_0_lt_compat; lra).
    assert (Hit0 : 0 < / INR t) by (apply Rinv_0_lt_compat; lra).
    assert (H2 : (f + 1) * / INR t < eps * gam).
    { apply Rmult_lt_reg_r with (r := / (f + 1)).
      - apply Rinv_0_lt_compat; lra.
      - replace ((f + 1) * / INR t * / (f + 1)) with (/ INR t)
          by (field; split; lra).
        exact H1. }
    apply Rmult_lt_reg_r with (r := gam); [lra|].
    replace (f * (/ gam * / INR t) * gam) with (f * / INR t)
      by (field; split; lra).
    nra. }
  assert (Hle : / (gam * INR t + 1) <= / (gam * INR t))
    by (apply Rinv_le_contravar; lra).
  assert (Hp1 : 0 < / (gam * INR t + 1))
    by (apply Rinv_0_lt_compat; lra).
  assert (Hp2 : 0 < / (gam * INR t)) by (apply Rinv_0_lt_compat; lra).
  unfold Rdiv. split.
  - replace (f * (1 - 1 * / (gam * INR t + 1)) - f)
      with (- (f * / (gam * INR t + 1))) by ring.
    rewrite Rabs_Ropp, Rabs_right; [nra | apply Rle_ge; nra].
  - replace (f * (1 + 1 * / (gam * INR t)) - f)
      with (f * / (gam * INR t)) by ring.
    rewrite Rabs_right; [nra | apply Rle_ge; nra].
Qed.

(** A completed loop body on a dense gradient: the parameter loses
    the step-size tensor of line 148, computed from the first moment
    that is stored and from the square roots of the stored second
    moment (of the stored maximum under AMS-bound) plus [eps]. *)
Lemma adabound_update_shape g k st p gv0 st' p' :
  p_grad p = Some (mkGrad false gv0) ->
  AdaBound.update g k st p = (st', p', None) ->
  exists ss w m' s',
    lookup (p_id p) st' = Some s' /\
    AdaBound.exp_avg s' = Some m' /\
    (if AdaBound.ams_bound g then AdaBound.max_exp_avg_sq s'
     else AdaBound.exp_avg_sq s') = Some w /\
    p_data p'
    = map2 Rminus (fst (AdaBound.decay g (p_data p) gv0))
           (AdaBound.step_size_tensor
              k ss (sqrt_ (add_scalar w (AdaBound.eps g))) m').
Proof.
  intros Hgrad. unfold AdaBound.update. rewrite Hgrad. simpl.
  destruct (getitem AdaBound.no_state (p_id p) st) as [st0 s0].
  destruct (AdaBound.decay g (p_data p) gv0) as [pd gv]. simpl.
  destruct (AdaBound.betas g) as [b1 b2].
  set (s1 := AdaBound.init_state g p s0).
  destruct (AdaBound.exp_avg s1) as [m|]; [|discriminate].
  destruct (AdaBound.exp_avg_sq s1) as [v|]; [|discriminate].
  simpl AdaBound.max_exp_avg_sq.
  assert (Hsub : forall x, add_ pd (neg_ x) 1 = map2 Rminus pd x).
  { intros x. unfold add_, neg_. rewrite map2_map_r.
    apply map2_ext. intros; ring. }
  destruct (AdaBound.ams_bound g);
    [destruct (AdaBound.max_exp_avg_sq s1) as [mx|]; [|discriminate]|];
    (destruct (AdaBound.step_size_scalar g k) as [ss|x]; [|discriminate]);
    intros H; inversion H; subst; rewrite Hsub, lookup_assign_same;
    eexists _, _, _, _; (split; [reflexivity|]);
    (split; [reflexivity|]); (split; [reflexivity|]); reflexivity.
Qed.

(** The loop body on the example parameter, for any scalars with a
    non-zero first bias correction. *)
Lemma adabound_example_update_at k :
  AdaBound.bias_correction1 k <> 0 ->
  exists p',
    AdaBound.update adabound_group_example k [] dense_param_example
    = ([(0%nat,
         AdaBound.mkState None
           (Some [0 * 0 + (1 - 0) * (1 / 4)])
           (Some [0 * 0 + (1 - 0) * (1 / 4 * (1 / 4))]) None)],
       p', None).
Proof.
  intros Hk.
  unfold AdaBound.update, AdaBound.decay, AdaBound.step_size_scalar, py_div.
  simpl.
  destruct (Req_dec_T (AdaBound.bias_correction1 k) 0); [contradiction|].
  eexists. reflexivity.
Qed.

(** C6 (as amended).  AdaBound with [gamma > 0] and a non-negative
    [final_lr = group.final_lr * group.lr / base_lr]: the bounds computed
    at step count [t] are [lower_bound(t) = final_lr * (1 - 1/(gamma*t + 1))]
    and [upper_bound(t) = final_lr * (1 + 1/(gamma*t))] (and they are
    computed for every [t >= 1] when the betas are in [0, 1]);
    [lower_bound] is non-decreasing and [upper_bound] non-increasing in
    [t]; both converge to [final_lr]; and in every completed update of a
    parameter, the radicands [second_moment + eps] it stores being
    positive, the step size before its multiplication by the first
    moment lies between the two bounds: the parameter loses
    [rate * first_moment] elementwise with
    [lower_bound <= rate <= upper_bound]. *)
Theorem adabound_bounds
        (g : AdaBound.Group) (base_lr : R)
        (Hgamma : 0 < AdaBound.gamma g)
        (Hbase : base_lr <> 0)
        (Hfinal : 0 <= AdaBound.final_lr g * AdaBound.lr g / base_lr) :
  let flr := AdaBound.final_lr g * AdaBound.lr g / base_lr in
  (forall t k,
      AdaBound.scalars g base_lr t = Ok k ->
      AdaBound.lower_bound k = flr * (1 - 1 / (AdaBound.gamma g * INR t + 1)) /\
      AdaBound.upper_bound k = flr * (1 + 1 / (AdaBound.gamma g * INR t))) /\
  (0 <= fst (AdaBound.betas g) <= 1 -> 0 <= snd (AdaBound.betas g) <= 1 ->
   forall t, (1 <= t)%nat -> exists k, AdaBound.scalars g base_lr t = Ok k) /\
  (forall t t' k k',
      (1 <= t <= t')%nat ->
      AdaBound.scalars g base_lr t = Ok k ->
      AdaBound.scalars g base_lr t' = Ok k' ->
      AdaBound.lower_bound k <= AdaBound.lower_bound k' /\
      AdaBound.upper_bound k' <= AdaBound.upper_bound k) /\
  (forall eps, 0 < eps ->
      exists N, forall t k,
          (N <= t)%nat -> AdaBound.scalars g base_lr t = Ok k ->
          Rabs (AdaBound.lower_bound k - flr) < eps /\
          Rabs (AdaBound.upper_bound k - flr) < eps) /\
  (forall t k st p gv0 st' p',
      (1 <= t)%nat -> AdaBound.scalars g base_lr t = Ok k ->
      p_grad p = Some (mkGrad false gv0) ->
      AdaBound.update g k st p = (st', p', None) ->
      (forall s' w,
          lookup (p_id p) st' = Some s' ->
          (if AdaBound.ams_bound g then AdaBound.max_exp_avg_sq s'
           else AdaBound.exp_avg_sq s') = Some w ->
          Forall (fun x => 0 < x + AdaBound.eps g) w) ->
      exists rates m' s',
        Forall (fun r => AdaBound.lower_bound k <= r <= AdaBound.upper_bound k)
               rates /\
        lookup (p_id p) st' = Some s' /\
        AdaBound.exp_avg s' = Some m' /\
        p_data p'
        = map2 Rminus (fst (AdaBound.decay g (p_data p) gv0))
               (map2 Rmult rates m')).
Proof.
  intros flr.
  assert (Hpos : forall t, (1 <= t)%nat -> 0 < AdaBound.gamma g * INR t).
  { intros t Ht. pose proof (INR_ge_one t Ht). nra. }
  assert (Hform : forall t k,
             AdaBound.scalars g base_lr t = Ok k ->
             AdaBound.lower_bound k
             = flr * (1 - 1 / (AdaBound.gamma g * INR t + 1)) /\
             AdaBound.upper_bound k
             = flr * (1 + 1 / (AdaBound.gamma g * INR t))).
  { intros t k Hk.
    destruct (adabound_scalars_inv _ _ _ _ Hk) as (_ & _ & Hl & Hu & _).
    split; assumption. }
  split; [exact Hform|].
  split.
  { intros _ Hbeta t Ht. pose proof (Hpos t Ht).
    apply adabound_scalars_ok; try lra.
    pose proof (pow_le_one _ t Hbeta). lra. }
  split.
  { intros t t' k k' [Ht Htt'] Hk Hk'.
    destruct (Hform _ _ Hk) as [-> ->].
    destruct (Hform _ _ Hk') as [-> ->].
    pose proof (Hpos t Ht). apply le_INR in Htt'.
    destruct (bounds_monotone flr (AdaBound.gamma g * INR t + 1)
                              (AdaBound.gamma g * INR t' + 1))
      as [Hlow _]; [exact Hfinal | lra | nra |].
    destruct (bounds_monotone flr (AdaBound.gamma g * INR t)
                              (AdaBound.gamma g * INR t'))
      as [_ Hup]; [exact Hfinal | lra | nra |].
    split; assumption. }
  split.
  { intros eps He.
    destruct (bounds_converge flr (AdaBound.gamma g) eps Hfinal Hgamma He)
      as [N HN].
    exists N. intros t k Ht Hk.
    destruct (Hform _ _ Hk) as [-> ->].
    apply HN; exact Ht. }
  intros t k st p gv0 st' p' Ht Hk Hgrad Hup _.
  destruct (adabound_update_shape _ _ _ _ _ _ _ Hgrad Hup)
    as (ss & w & m' & s' & Hl & Hm & _ & Hp).
  exists (clamp_ (div_ (full_like (sqrt_ (add_scalar w (AdaBound.eps g))) ss)
                       (sqrt_ (add_scalar w (AdaBound.eps g))))
                 (AdaBound.lower_bound k) (AdaBound.upper_bound k)), m', s'.
  split; [|split; [exact Hl | split; [exact Hm | exact Hp]]].
  apply Forall_forall. intros r Hr. unfold clamp_ in Hr.
  apply in_map_iff in Hr. destruct Hr as (y & <- & _).
  apply clamp1_range.
  destruct (Hform _ _ Hk) as [-> ->].
  pose proof (Hpos t Ht). apply bounds_order; [exact Hfinal | lra | lra].
Qed.

Lemma adabound_bounds_witness :
  0 < AdaBound.gamma adabound_group_example /\
  exists k rates m' p',
    AdaBound.scalars adabound_group_example 1 1 = Ok k /\
    AdaBound.lower_bound k = 1 / 2 /\ AdaBound.upper_bound k = 2 /\
    Forall (fun r => 1 / 2 <= r <= 2) rates /\
    p_data p' = map2 Rminus [1 * (1 - 0 * 1)] (map2 Rmult rates m').
Proof.
  assert (H1 : 0 < AdaBound.gamma adabound_group_example) by (simpl; lra).
  assert (H2 : (1 : R) <> 0) by lra.
  assert (H3 : 0 <= AdaBound.final_lr adabound_group_example
                    * AdaBound.lr adabound_group_example / 1)
    by (simpl; lra).
  assert (H4 : 0 <= snd (AdaBound.betas adabound_group_example) <= 1)
    by (simpl; lra).
  split; [exact H1|].
  destruct (adabound_bounds adabound_group_example 1 H1 H2 H3)
    as (Hform & Hex & _ & _ & Hrate).
  assert (H5 : 0 <= fst (AdaBound.betas adabound_group_example) <= 1)
    by (simpl; lra).
  destruct (Hex H5 H4 1%nat ltac:(lia)) as [k Hk].
  destruct (Hform _ _ Hk) as [El Eu].
  assert (Hb : AdaBound.bias_correction1 k <> 0).
  { destruct (adabound_scalars_inv _ _ _ _ Hk) as (-> & _). simpl. lra. }
  destruct (adabound_example_update_at k Hb) as [p' Hu].
  destruct (Hrate 1%nat k [] dense_param_example [1 / 4] _ p'
                  ltac:(lia) Hk eq_refl Hu)
    as (rates & m' & s' & Hr & _ & _ & Hp).
  { intros s' w Hs Hw. simpl in Hs. inversion Hs; subst s'; clear Hs.
    simpl in Hw. inversion Hw; subst w; clear Hw.
    constructor; [simpl; lra | constructor]. }
  exists k, rates, m', p'.
  split; [exact Hk|].
  assert (El' : AdaBound.lower_bound k = 1 / 2) by (rewrite El; simpl; field).
  assert (Eu' : AdaBound.upper_bound k = 2) by (rewrite Eu; simpl; field).
  split; [exact El'|]. split; [exact Eu'|].
  rewrite El', Eu' in Hr. split; [exact Hr | exact Hp].
Defined.

(** C6 (as stated) fails twice.  With a negative [final_lr] the lower
    bound decreases from [t = 1] to [t = 2].  And the step-size tensor of
    line 148, the clamped quotient times the first moment, is 0 for a
    zero first moment, below a lower bound of 1/2. *)
Lemma adabound_bounds_counterexample :
  (exists k1 k2,
      AdaBound.scalars adabound_negative_final_lr 1 1 = Ok k1 /\
      AdaBound.scalars adabound_negative_final_lr 1 2 = Ok k2 /\
      AdaBound.lower_bound k2 < AdaBound.lower_bound k1) /\
  (exists k ss x,
      AdaBound.scalars adabound_eps_one 1 1 = Ok k /\
      AdaBound.step_size_scalar adabound_eps_one k = Ok ss /\
      In x (AdaBound.step_size_tensor
              k ss (sqrt_ (add_scalar [0] (AdaBound.eps adabound_eps_one)))
              [0]) /\
      x < AdaBound.lower_bound k).
Proof.
  split.
  - destruct (adabound_scalars_ok adabound_negative_final_lr 1 1)
      as [k1 Hk1]; try (simpl; lra).
    destruct (adabound_scalars_ok adabound_negative_final_lr 1 2)
      as [k2 Hk2]; try (simpl; lra).
    exists k1, k2. repeat split; try assumption.
    destruct (adabound_scalars_inv _ _ _ _ Hk1) as (_ & _ & -> & _).
    destruct (adabound_scalars_inv _ _ _ _ Hk2) as (_ & _ & -> & _).
    simpl. lra.
  - destruct (adabound_scalars_ok adabound_eps_one 1 1)
      as [k Hk]; try (simpl; lra).
    destruct (adabound_scalars_inv _ _ _ _ Hk) as (Hb1 & _ & Hlo & _).
    assert (Hss : exists ss,
               AdaBound.step_size_scalar adabound_eps_one k = Ok ss).
    { unfold AdaBound.step_size_scalar. simpl.
      rewrite py_div_ok; [eauto | rewrite Hb1; simpl; lra]. }
    destruct Hss as [ss Hss].
    exists k, ss. eexists. repeat split; try eassumption.
    + simpl. left. reflexivity.
    + rewrite Hlo. simpl. lra.
Qed.

(** ** A step in which no parameter has a gradient *)

Lemma pow_lt_one x n : 0 <= x < 1 -> (1 <= n)%nat -> x ^ n < 1.
Proof.
  intros Hx Hn. destruct n as [|n]; [lia|]. simpl.
  pose proof (pow_le_one x n (conj (proj1 Hx) (Rlt_le _ _ (proj2 Hx)))). nra.
Qed.

Section AdaBoundNoGrads.
Import AdaBound.

Lemma adabound_step_params_no_grads g k st ps :
  no_grads ps -> step_params g k st ps = (st, ps, None).
Proof.
  induction 1 as [|p ps Hp Hps IH]; simpl; [reflexivity|].
  unfold update. now rewrite Hp, IH.
Qed.

Lemma set_params_same g t :
  set_params (set_step g t) (params (set_step g t)) = set_step g t.
Proof. reflexivity. Qed.

(** The group body on a group without gradients: store and parameters
    are as before, whether the scalars raise or not. *)
Lemma adabound_step_group_no_grads st g b :
  no_grads (params g) ->
  exists e, step_group st g b = (st, set_step g (next_step g), e) /\
            ((exists k, scalars g b (next_step g) = Ok k) -> e = None).
Proof.
  intros Hn. unfold step_group.
  change (scalars (set_step g (next_step g)) b (next_step g))
    with (scalars g b (next_step g)).
  destruct (scalars g b (next_step g)) as [k|x].
  - change (params (set_step g (next_step g))) with (params g).
    rewrite adabound_step_params_no_grads by exact Hn.
    exists None. split; [reflexivity | auto].
  - exists (Some x). split; [reflexivity|]. intros [k Hk]. discriminate.
Qed.

Lemma adabound_step_groups_no_grads gs :
  forall st bl,
    Forall (fun g => no_grads (params g)) gs ->
    exists gs' e,
      step_groups st gs bl = (st, gs', e) /\
      map params gs' = map params gs /\
      (Forall2 (fun g b => exists k, scalars g b (next_step g) = Ok k)
               gs bl ->
       e = None /\ map gr_step gs' = map (fun g => advance (gr_step g)) gs).
Proof.
  induction gs as [|g gs IH]; intros st bl Hn.
  - exists [], None. simpl. split; [reflexivity|]. split; [reflexivity|].
    intros _. split; reflexivity.
  - inversion Hn as [|? ? Hg Hgs]; subst.
    destruct bl as [|b bl].
    + exists (g :: gs), None. simpl.
      split; [reflexivity|]. split; [reflexivity|].
      intros HF; inversion HF.
    + simpl.
      destruct (adabound_step_group_no_grads st g b Hg) as (e & -> & He).
      destruct e as [x|].
      * exists (set_step g (next_step g) :: gs), (Some x).
        split; [reflexivity|]. split; [reflexivity|].
        intros HF; inversion HF as [|? ? ? ? Hk HF']; subst.
        specialize (He Hk). discriminate He.
      * destruct (IH st bl Hgs) as (gs' & e' & -> & Hp & Hok).
        exists (set_step g (next_step g) :: gs'), e'.
        split; [reflexivity|]. split; [simpl; now rewrite Hp|].
        intros HF; inversion HF as [|? ? ? ? Hk HF']; subst.
        destruct (Hok HF') as [-> Hc]. split; [reflexivity|].
        simpl. rewrite Hc. unfold next_step, advance.
        destruct (gr_step g); reflexivity.
Qed.

Lemma adabound_step_group_counter st g b st' g' :
  step_group st g b = (st', g', None) -> gr_step g' = advance (gr_step g).
Proof.
  unfold step_group.
  destruct (scalars _ _ _) as [k|x]; [|discriminate].
  destruct (step_params _ _ _ _) as [[st1 ps1] e].
  intros H; inversion H; subst. simpl.
  unfold next_step, advance. destruct (gr_step g); reflexivity.
Qed.

Lemma adabound_step_groups_counter gs :
  forall st bl st' gs',
    length bl = length gs ->
    step_groups st gs bl = (st', gs', None) ->
    map gr_step gs' = map (fun g => advance (gr_step g)) gs.
Proof.
  induction gs as [|g gs IH]; intros st bl st' gs' Hl; simpl.
  - intros H; inversion H; reflexivity.
  - destruct bl as [|b bl]; [discriminate|]. simpl in Hl.
    destruct (step_group st g b) as [[st1 g1] [x|]] eqn:Eg; [discriminate|].
    destruct (step_groups st1 gs bl) as [[st2 gs2] e2] eqn:Er.
    intros H; inversion H; subst. simpl.
    rewrite (adabound_step_group_counter _ _ _ _ _ Eg).
    f_equal. eapply IH; [|exact Er]. lia.
Qed.
End AdaBoundNoGrads.

Section YogiNoGrads.
Import Yogi.

Lemma yogi_init_group_no_grads g st ps :
  no_grads ps -> init_group g st ps = (st, None).
Proof.
  induction 1 as [|p ps Hp Hps IH]; simpl; [reflexivity|].
  unfold init_param. now rewrite Hp.
Qed.

Lemma yogi_step_params_no_grads mx g bc2 ss st ps :
  no_grads ps -> step_params mx g bc2 ss st ps = (st, ps, None).
Proof.
  induction 1 as [|p ps Hp Hps IH]; simpl; [reflexivity|].
  unfold update. now rewrite Hp, IH.
Qed.

Lemma yogi_step_group_no_grads mx st g :
  no_grads (params g) ->
  exists g' e,
    step_group mx st g = (st, g', e) /\ params g' = params g /\
    ((exists k, scalars g (next_step g) = Ok k) ->
     e = None /\ gr_step g' = advance (gr_step g)).
Proof.
  intros Hn. unfold step_group, group_body, next_step.
  destruct (gr_step g) as [n|] eqn:En.
  - change (scalars (set_step g (n + 1)) (n + 1))
      with (scalars g (n + 1)).
    destruct (scalars g (n + 1)) as [[bc2 ss]|x].
    + change (params (set_step g (n + 1))) with (params g).
      rewrite yogi_step_params_no_grads by exact Hn.
      eexists _, None. split; [reflexivity|]. split; [reflexivity|].
      intros _. split; reflexivity.
    + eexists _, (Some x). split; [reflexivity|]. split; [reflexivity|].
      intros [k Hk]; discriminate.
  - rewrite yogi_init_group_no_grads by exact Hn.
    change (scalars (set_step g 1) 1) with (scalars g 1).
    destruct (scalars g 1) as [[bc2 ss]|x].
    + change (params (set_step g 1)) with (params g).
      rewrite yogi_step_params_no_grads by exact Hn.
      eexists _, None. split; [reflexivity|]. split; [reflexivity|].
      intros _. split; reflexivity.
    + eexists _, (Some x). split; [reflexivity|]. split; [reflexivity|].
      intros [k Hk]; discriminate.
Qed.

Lemma yogi_step_groups_no_grads mx gs :
  forall st,
    Forall (fun g => no_grads (params g)) gs ->
    exists gs' e,
      step_groups mx st gs = (st, gs', e) /\
      map params gs' = map params gs /\
      (Forall (fun g => exists k, scalars g (next_step g) = Ok k) gs ->
       e = None /\ map gr_step gs' = map (fun g => advance (gr_step g)) gs).
Proof.
  induction gs as [|g gs IH]; intros st Hn.
  - exists [], None. simpl. split; [reflexivity|]. split; [reflexivity|].
    intros _. split; reflexivity.
  - inversion Hn as [|? ? Hg Hgs]; subst. simpl.
    destruct (yogi_step_group_no_grads mx st g Hg)
      as (g' & e & -> & Hp & He).
    destruct e as [x|].
    + exists (g' :: gs), (Some x). simpl. rewrite Hp.
      split; [reflexivity|]. split; [reflexivity|].
      intros HF; inversion HF as [|? ? Hk HF']; subst.
      destruct (He Hk); discriminate.
    + destruct (IH st Hgs) as (gs' & e' & -> & Hps & Hok).
      exists (g' :: gs'), e'. simpl. rewrite Hp, Hps.
      split; [reflexivity|]. split; [reflexivity|].
      intros HF; inversion HF as [|? ? Hk HF']; subst.
      destruct (Hok HF') as [-> Hc]. destruct (He Hk) as [_ Hc'].
      split; [reflexivity | now rewrite Hc, Hc'].
Qed.

Lemma yogi_step_group_counter mx st g st' g' :
  step_group mx st g = (st', g', None) -> gr_step g' = advance (gr_step g).
Proof.
  unfold step_group, group_body.
  destruct (gr_step g) as [n|].
  - destruct (scalars _ _) as [[bc2 ss]|x]; [|discriminate].
    destruct (step_params _ _ _ _ _ _) as [[st1 ps1] e].
    intros H; inversion H; subst. reflexivity.
  - destruct (init_group _ _ _) as [st1 [x|]]; [discriminate|].
    destruct (scalars _ _) as [[bc2 ss]|x]; [|discriminate].
    destruct (step_params _ _ _ _ _ _) as [[st2 ps2] e].
    intros H; inversion H; subst. reflexivity.
Qed.

Lemma yogi_step_groups_counter mx gs :
  forall st st' gs',
    step_groups mx st gs = (st', gs', None) ->
    map gr_step gs' = map (fun g => advance (gr_step g)) gs.
Proof.
  induction gs as [|g gs IH]; intros st st' gs'; simpl.
  - intros H; inversion H; reflexivity.
  - destruct (step_group mx st g) as [[st1 g1] [x|]] eqn:Eg; [discriminate|].
    destruct (step_groups mx st1 gs) as [[st2 gs2] e2] eqn:Er.
    intros H; inversion H; subst. simpl.
    rewrite (yogi_step_group_counter _ _ _ _ _ Eg).
    f_equal. eapply IH; exact Er.
Qed.
End YogiNoGrads.

Lemma adabound_next_step_pos g : (1 <= AdaBound.next_step g)%nat.
Proof. unfold AdaBound.next_step. destruct (AdaBound.gr_step g); lia. Qed.

Lemma yogi_next_step_pos g : (1 <= Yogi.next_step g)%nat.
Proof. unfold Yogi.next_step. destruct (Yogi.gr_step g); lia. Qed.

Lemma adabound_scalars_usable g b :
  0 < AdaBound.gamma g -> b <> 0 -> 0 <= snd (AdaBound.betas g) <= 1 ->
  exists k, AdaBound.scalars g b (AdaBound.next_step g) = Ok k.
Proof.
  intros Hg Hb Hbeta.
  pose proof (INR_ge_one _ (adabound_next_step_pos g)) as Ht.
  pose proof (pow_le_one _ (AdaBound.next_step g) Hbeta).
  apply adabound_scalars_ok; try nra; lra.
Qed.

Lemma yogi_scalars_usable g :
  0 <= fst (Yogi.betas g) < 1 -> 0 <= snd (Yogi.betas g) <= 1 ->
  exists k, Yogi.scalars g (Yogi.next_step g) = Ok k.
Proof.
  intros H1 H2.
  pose proof (pow_lt_one _ _ H1 (yogi_next_step_pos g)).
  pose proof (pow_le_one _ (Yogi.next_step g) H2).
  destruct (yogi_scalars_ok g (Yogi.next_step g)) as (bc2 & ss & Hk);
    [lra | intros _; lra | eauto].
Qed.

(** C9.  For both variants, a call of [step] in which no parameter has a
    gradient leaves the state dictionary (hence its entries) and every
    parameter as they are; with usable hyperparameters (AdaBound:
    [gamma > 0], a non-zero base learning rate per group, [beta2] in
    [0, 1]; Yogi: [beta1] in [0, 1), [beta2] in [0, 1]) the call returns
    and every group counter is advanced by exactly 1, created at 1 on the
    first call.  And whatever the gradients, a call that returns has
    advanced every group counter by exactly 1. *)
Theorem step_without_gradients :
  (forall o : AdaBound.Optimizer,
      Forall (fun g => no_grads (AdaBound.params g))
             (AdaBound.param_groups o) ->
      let r := AdaBound.step None o in
      AdaBound.state (fst r) = AdaBound.state o /\
      map AdaBound.params (AdaBound.param_groups (fst r))
      = map AdaBound.params (AdaBound.param_groups o) /\
      (Forall2 (fun g b => 0 < AdaBound.gamma g /\ b <> 0 /\
                           0 <= snd (AdaBound.betas g) <= 1)
               (AdaBound.param_groups o) (AdaBound.base_lrs o) ->
       snd r = Returned None /\
       map AdaBound.gr_step (AdaBound.param_groups (fst r))
       = map (fun g => advance (AdaBound.gr_step g))
             (AdaBound.param_groups o))) /\
  (forall (o : AdaBound.Optimizer) loss,
      length (AdaBound.base_lrs o) = length (AdaBound.param_groups o) ->
      snd (AdaBound.step None o) = Returned loss ->
      map AdaBound.gr_step (AdaBound.param_groups (fst (AdaBound.step None o)))
      = map (fun g => advance (AdaBound.gr_step g))
            (AdaBound.param_groups o)) /\
  (forall o : Yogi.Optimizer,
      Forall (fun g => no_grads (Yogi.params g)) (Yogi.param_groups o) ->
      let r := Yogi.step None o in
      Yogi.state (fst r) = Yogi.state o /\
      map Yogi.params (Yogi.param_groups (fst r))
      = map Yogi.params (Yogi.param_groups o) /\
      (Forall (fun g => 0 <= fst (Yogi.betas g) < 1 /\
                        0 <= snd (Yogi.betas g) <= 1)
              (Yogi.param_groups o) ->
       snd r = Returned None /\
       map Yogi.gr_step (Yogi.param_groups (fst r))
       = map (fun g => advance (Yogi.gr_step g)) (Yogi.param_groups o))) /\
  (forall (o : Yogi.Optimizer) loss,
      snd (Yogi.step None o) = Returned loss ->
      map Yogi.gr_step (Yogi.param_groups (fst (Yogi.step None o)))
      = map (fun g => advance (Yogi.gr_step g)) (Yogi.param_groups o)).
Proof.
  split; [|split; [|split]].
  - intros o Hn r. subst r. unfold AdaBound.step.
    destruct (adabound_step_groups_no_grads
                (AdaBound.param_groups o) (AdaBound.state o)
                (AdaBound.base_lrs o) Hn) as (gs' & e & -> & Hp & Hok).
    assert (Hok' :
              Forall2 (fun g b => 0 < AdaBound.gamma g /\ b <> 0 /\
                                  0 <= snd (AdaBound.betas g) <= 1)
                      (AdaBound.param_groups o) (AdaBound.base_lrs o) ->
              e = None /\
              map AdaBound.gr_step gs'
              = map (fun g => advance (AdaBound.gr_step g))
                    (AdaBound.param_groups o)).
    { intros HF. apply Hok. revert HF. apply Forall2_impl.
      intros g b (H1 & H2 & H3). now apply adabound_scalars_usable. }
    destruct e as [x|]; simpl.
    + split; [reflexivity|]. split; [exact Hp|].
      intros HF. destruct (Hok' HF); discriminate.
    + split; [reflexivity|]. split; [exact Hp|].
      intros HF. destruct (Hok' HF) as [_ Hc]. split; [reflexivity | exact Hc].
  - intros o loss Hl. unfold AdaBound.step.
    destruct (AdaBound.step_groups _ _ _) as [[st gs] [x|]] eqn:Es; simpl;
      [discriminate|].
    intros _. eapply adabound_step_groups_counter; eauto.
  - intros o Hn r. subst r. unfold Yogi.step.
    destruct (yogi_step_groups_no_grads
                (Yogi.maximize o) (Yogi.param_groups o) (Yogi.state o) Hn)
      as (gs' & e & -> & Hp & Hok).
    assert (Hok' :
              Forall (fun g => 0 <= fst (Yogi.betas g) < 1 /\
                               0 <= snd (Yogi.betas g) <= 1)
                     (Yogi.param_groups o) ->
              e = None /\
              map Yogi.gr_step gs'
              = map (fun g => advance (Yogi.gr_step g)) (Yogi.param_groups o)).
    { intros HF. apply Hok. revert HF. apply Forall_impl.
      intros g (H1 & H2). now apply yogi_scalars_usable. }
    destruct e as [x|]; simpl.
    + split; [reflexivity|]. split; [exact Hp|].
      intros HF. destruct (Hok' HF); discriminate.
    + split; [reflexivity|]. split; [exact Hp|].
      intros HF. destruct (Hok' HF) as [_ Hc]. split; [reflexivity | exact Hc].
  - intros o loss. unfold Yogi.step.
    destruct (Yogi.step_groups _ _ _) as [[st gs] [x|]] eqn:Es; simpl;
      [discriminate|].
    intros _. eapply yogi_step_groups_counter; eauto.
Qed.

Lemma step_without_gradients_witness :
  Forall (fun g => no_grads (Yogi.params g))
         (Yogi.param_groups yogi_no_grad_yet) /\
  Yogi.state (fst (Yogi.step None yogi_no_grad_yet))
  = Yogi.state yogi_no_grad_yet /\
  snd (Yogi.step None yogi_no_grad_yet) = Returned None /\
  map Yogi.gr_step (Yogi.param_groups (fst (Yogi.step None yogi_no_grad_yet)))
  = [Some 1%nat] /\
  map AdaBound.gr_step
      (AdaBound.param_groups (fst (AdaBound.step None adabound_before_reset)))
  = [Some 1%nat].
Proof.
  destruct step_without_gradients as (_ & HA & HY & _).
  assert (Hn : Forall (fun g => no_grads (Yogi.params g))
                      (Yogi.param_groups yogi_no_grad_yet))
    by (repeat constructor).
  assert (Hb : Forall (fun g => 0 <= fst (Yogi.betas g) < 1 /\
                                0 <= snd (Yogi.betas g) <= 1)
                      (Yogi.param_groups yogi_no_grad_yet))
    by (repeat constructor; simpl; lra).
  destruct (HY yogi_no_grad_yet Hn) as (Hs & _ & Hc).
  destruct (Hc Hb) as [Hr Hcount].
  split; [exact Hn|]. split; [exact Hs|]. split; [exact Hr|].
  split; [exact Hcount|].
  assert (Hret : snd (AdaBound.step None adabound_before_reset)
                 = Returned None).
  { unfold adabound_before_reset. run_adabound. reflexivity. }
  exact (HA adabound_before_reset None eq_refl Hret).
Defined.

(** * Further properties of the two optimizers *)

(** ** Which state entries a step can touch *)

Lemma getitem_frame {S : Type} (empty : S) k j (st : store S) :
  k <> j -> lookup j (fst (getitem empty k st)) = lookup j st.
Proof.
  intros N. unfold getitem. destruct (lookup k st); simpl; [reflexivity|].
  now apply lookup_assign_other.
Qed.

(** The store after the loop body: untouched, or the parameter's own
    entry written over the store [self.state[p]] left. *)
Lemma adabound_update_store g k st p st' p' e :
  AdaBound.update g k st p = (st', p', e) ->
  st' = st \/
  (p_grad p <> None /\
   exists s, st' = assign (p_id p) s
                          (fst (getitem AdaBound.no_state (p_id p) st))).
Proof.
  unfold AdaBound.update.
  destruct (p_grad p) as [grad|]; [|intros H; inversion H; now left].
  destruct (is_sparse grad); [intros H; inversion H; now left|].
  destruct (getitem AdaBound.no_state (p_id p) st) as [st0 s0]. simpl fst.
  destruct (AdaBound.decay g (p_data p) (g_values grad)) as [pd gv].
  destruct (AdaBound.betas g) as [b1 b2].
  set (s1 := AdaBound.init_state g p s0).
  destruct (AdaBound.exp_avg s1) as [m|];
    [| intros H; inversion H; right; split; [discriminate | eauto]].
  destruct (AdaBound.exp_avg_sq s1) as [v|];
    [| intros H; inversion H; right; split; [discriminate | eauto]].
  simpl AdaBound.max_exp_avg_sq.
  destruct (AdaBound.ams_bound g);
    [destruct (AdaBound.max_exp_avg_sq s1) as [mx|]|];
    try destruct (AdaBound.step_size_scalar g k);
    intros H; inversion H; right; (split; [discriminate | eauto]).
Qed.

Lemma adabound_update_frame g k st p st' p' e j :
  AdaBound.update g k st p = (st', p', e) ->
  (p_grad p <> None -> j <> p_id p) ->
  lookup j st' = lookup j st.
Proof.
  intros H Hj.
  destruct (adabound_update_store _ _ _ _ _ _ _ H) as [->|(Hg & s & ->)];
    [reflexivity|].
  assert (Hn : p_id p <> j) by (intros E; now apply (Hj Hg)).
  rewrite lookup_assign_other by exact Hn. now apply getitem_frame.
Qed.

Lemma adabound_step_params_frame g k ps :
  forall st st' ps' e j,
    AdaBound.step_params g k st ps = (st', ps', e) ->
    ~ In j (grad_ids ps) -> lookup j st' = lookup j st.
Proof.
  induction ps as [|p rest IH]; simpl; intros st st' ps' e j H Hj.
  - now inversion H.
  - destruct (AdaBound.update g k st p) as [[st1 p1] e1] eqn:Eu.
    assert (H1 : lookup j st1 = lookup j st).
    { eapply adabound_update_frame; [exact Eu|].
      intros Hg E. apply Hj. unfold grad_ids. simpl.
      destruct (p_grad p); [left; auto | congruence]. }
    assert (Hj' : ~ In j (grad_ids rest)).
    { intros Hin. apply Hj. unfold grad_ids in *. simpl.
      destruct (p_grad p); [right; exact Hin | exact Hin]. }
    destruct e1 as [x|]; [inversion H; subst; exact H1|].
    destruct (AdaBound.step_params g k st1 rest) as [[st2 r2] e2] eqn:Er.
    inversion H; subst. rewrite <- H1. eapply IH; eauto.
Qed.

Lemma adabound_step_groups_frame gs :
  forall st bl st' gs' e j,
    AdaBound.step_groups st gs bl = (st', gs', e) ->
    (forall g, In g gs -> ~ In j (grad_ids (AdaBound.params g))) ->
    lookup j st' = lookup j st.
Proof.
  induction gs as [|g gs IH]; simpl; intros st bl st' gs' e j H Hj.
  - now inversion H.
  - destruct bl as [|b bl]; [now inversion H|].
    assert (H1 : forall st1 g1 e1,
               AdaBound.step_group st g b = (st1, g1, e1) ->
               lookup j st1 = lookup j st).
    { unfold AdaBound.step_group. intros st1 g1 e1.
      destruct (AdaBound.scalars _ _ _) as [k|x]; [|intros E; now inversion E].
      destruct (AdaBound.step_params _ _ _ _) as [[st2 ps2] e2] eqn:Ep.
      intros E; inversion E; subst.
      eapply adabound_step_params_frame; [exact Ep|].
      apply (Hj g). now left. }
    destruct (AdaBound.step_group st g b) as [[st1 g1] e1] eqn:Eg.
    specialize (H1 _ _ _ eq_refl).
    destruct e1 as [x|]; [inversion H; subst; exact H1|].
    destruct (AdaBound.step_groups st1 gs bl) as [[st2 gs2] e2] eqn:Er.
    inversion H; subst. rewrite <- H1. eapply IH; [exact Er|].
    intros g' Hg'. apply Hj. now right.
Qed.

(** X1.  AdaBound's [step] reads and writes the state of a parameter only
    when that parameter has a gradient: the entry filed under any other
    identity is, after the call (returned or raised), what it was. *)
Theorem adabound_step_state_frame (o : AdaBound.Optimizer) (j : nat)
        (Hj : forall g, In g (AdaBound.param_groups o) ->
                        ~ In j (grad_ids (AdaBound.params g))) :
  lookup j (AdaBound.state (fst (AdaBound.step None o)))
  = lookup j (AdaBound.state o).
Proof.
  unfold AdaBound.step.
  destruct (AdaBound.step_groups _ _ _) as [[st gs] e] eqn:Es.
  assert (H : lookup j st = lookup j (AdaBound.state o))
    by (eapply adabound_step_groups_frame; eauto).
  destruct e; simpl; exact H.
Qed.

Lemma adabound_step_state_frame_witness :
  lookup 5%nat (AdaBound.state (fst (AdaBound.step None adabound_two_params)))
  = Some (AdaBound.mkState None (Some [3]) (Some [4]) None).
Proof.
  assert (Hj : forall g, In g (AdaBound.param_groups adabound_two_params) ->
                         ~ In 5%nat (grad_ids (AdaBound.params g))).
  { intros g [<-|[]]. simpl. intros [H|[]]. discriminate H. }
  rewrite (adabound_step_state_frame adabound_two_params 5 Hj).
  reflexivity.
Defined.

Lemma yogi_init_param_frame g st p st' e j :
  Yogi.init_param g st p = (st', e) ->
  (p_grad p <> None -> j <> p_id p) ->
  lookup j st' = lookup j st.
Proof.
  unfold Yogi.init_param. intros H Hj.
  destruct (p_grad p) as [grad|]; [|now inversion H].
  assert (Hn : p_id p <> j) by (intros E; apply Hj; [discriminate | auto]).
  destruct (is_sparse grad); [now inversion H|].
  pose proof (getitem_frame Yogi.no_state (p_id p) j st Hn) as Hf.
  destruct (getitem Yogi.no_state (p_id p) st) as [st0 s0]. simpl in Hf.
  destruct (Yogi.len0 s0); inversion H; subst;
    rewrite ?lookup_assign_other by exact Hn; exact Hf.
Qed.

Lemma yogi_init_group_frame g ps :
  forall st st' e j,
    Yogi.init_group g st ps = (st', e) ->
    ~ In j (grad_ids ps) -> lookup j st' = lookup j st.
Proof.
  induction ps as [|p rest IH]; simpl; intros st st' e j H Hj.
  - now inversion H.
  - destruct (Yogi.init_param g st p) as [st1 e1] eqn:Ei.
    assert (H1 : lookup j st1 = lookup j st).
    { eapply yogi_init_param_frame; [exact Ei|].
      intros Hg E. apply Hj. unfold grad_ids. simpl.
      destruct (p_grad p); [left; auto | congruence]. }
    assert (Hj' : ~ In j (grad_ids rest)).
    { intros Hin. apply Hj. unfold grad_ids in *. simpl.
      destruct (p_grad p); [right; exact Hin | exact Hin]. }
    destruct e1 as [x|]; [inversion H; subst; exact H1|].
    rewrite <- H1. eapply IH; eauto.
Qed.

Lemma yogi_update_frame mx g bc2 ss st p st' p' e j :
  Yogi.update mx g bc2 ss st p = (st', p', e) ->
  (p_grad p <> None -> j <> p_id p) ->
  lookup j st' = lookup j st.
Proof.
  unfold Yogi.update. intros H Hj.
  destruct (p_grad p) as [grad|]; [|now inversion H].
  assert (Hn : p_id p <> j) by (intros E; apply Hj; [discriminate | auto]).
  pose proof (getitem_frame Yogi.no_state (p_id p) j st Hn) as Hf.
  destruct (getitem Yogi.no_state (p_id p) st) as [st0 s0]. simpl in Hf.
  destruct (Yogi.apply_weight_decay _ _ _ _ _ _) as [pd gv].
  destruct (Yogi.betas g) as [b1 b2].
  destruct (Yogi.exp_avg s0), (Yogi.exp_avg_sq s0); inversion H; subst;
    rewrite ?lookup_assign_other by exact Hn; exact Hf.
Qed.

Lemma yogi_step_params_frame mx g bc2 ss ps :
  forall st st' ps' e j,
    Yogi.step_params mx g bc2 ss st ps = (st', ps', e) ->
    ~ In j (grad_ids ps) -> lookup j st' = lookup j st.
Proof.
  induction ps as [|p rest IH]; simpl; intros st st' ps' e j H Hj.
  - now inversion H.
  - destruct (Yogi.update mx g bc2 ss st p) as [[st1 p1] e1] eqn:Eu.
    assert (H1 : lookup j st1 = lookup j st).
    { eapply yogi_update_frame; [exact Eu|].
      intros Hg E. apply Hj. unfold grad_ids. simpl.
      destruct (p_grad p); [left; auto | congruence]. }
    assert (Hj' : ~ In j (grad_ids rest)).
    { intros Hin. apply Hj. unfold grad_ids in *. simpl.
      destruct (p_grad p); [right; exact Hin | exact Hin]. }
    destruct e1 as [x|]; [inversion H; subst; exact H1|].
    destruct (Yogi.step_params mx g bc2 ss st1 rest) as [[st2 r2] e2] eqn:Er.
    inversion H; subst. rewrite <- H1. eapply IH; eauto.
Qed.

Lemma yogi_step_group_frame mx st g st' g' e j :
  Yogi.step_group mx st g = (st', g', e) ->
  ~ In j (grad_ids (Yogi.params g)) -> lookup j st' = lookup j st.
Proof.
  intros H Hj.
  assert (Hb : forall st1 t st2 g2 e2,
             Yogi.group_body mx st1 (Yogi.set_step g t) t = (st2, g2, e2) ->
             lookup j st2 = lookup j st1).
  { unfold Yogi.group_body. intros st1 t st2 g2 e2.
    destruct (Yogi.scalars _ _) as [[bc2 ss]|x]; [|intros E; now inversion E].
    destruct (Yogi.step_params _ _ _ _ _ _) as [[st3 ps3] e3] eqn:Ep.
    intros E; inversion E; subst.
    eapply yogi_step_params_frame; [exact Ep | exact Hj]. }
  unfold Yogi.step_group in H.
  destruct (Yogi.gr_step g) as [n|]; [eapply Hb; exact H|].
  destruct (Yogi.init_group g st (Yogi.params g)) as [st1 e1] eqn:Ei.
  pose proof (yogi_init_group_frame _ _ _ _ _ _ Ei Hj) as H1.
  destruct e1 as [x|]; [inversion H; subst; exact H1|].
  rewrite <- H1. eapply Hb; exact H.
Qed.

Lemma yogi_step_groups_frame mx gs :
  forall st st' gs' e j,
    Yogi.step_groups mx st gs = (st', gs', e) ->
    (forall g, In g gs -> ~ In j (grad_ids (Yogi.params g))) ->
    lookup j st' = lookup j st.
Proof.
  induction gs as [|g gs IH]; simpl; intros st st' gs' e j H Hj.
  - now inversion H.
  - destruct (Yogi.step_group mx st g) as [[st1 g1] e1] eqn:Eg.
    assert (H1 : lookup j st1 = lookup j st).
    { eapply yogi_step_group_frame; [exact Eg|]. apply Hj. now left. }
    destruct e1 as [x|]; [inversion H; subst; exact H1|].
    destruct (Yogi.step_groups mx st1 gs) as [[st2 gs2] e2] eqn:Er.
    inversion H; subst. rewrite <- H1. eapply IH; [exact Er|].
    intros g' Hg'. apply Hj. now right.
Qed.

(** X2.  Yogi's [step], [init_group] included, reads and writes the state
    of a parameter only when that parameter has a gradient: the entry
    filed under any other identity is, after the call (returned or
    raised), what it was. *)
Theorem yogi_step_state_frame (o : Yogi.Optimizer) (j : nat)
        (Hj : forall g, In g (Yogi.param_groups o) ->
                        ~ In j (grad_ids (Yogi.params g))) :
  lookup j (Yogi.state (fst (Yogi.step None o))) = lookup j (Yogi.state o).
Proof.
  unfold Yogi.step.
  destruct (Yogi.step_groups _ _ _) as [[st gs] e] eqn:Es.
  assert (H : lookup j st = lookup j (Yogi.state o))
    by (eapply yogi_step_groups_frame; eauto).
  destruct e; simpl; exact H.
Qed.

Lemma yogi_step_state_frame_witness :
  lookup 5%nat (Yogi.state (fst (Yogi.step None yogi_two_params)))
  = Some (Yogi.mkState (Some [3]) (Some [4])).
Proof.
  assert (Hj : forall g, In g (Yogi.param_groups yogi_two_params) ->
                         ~ In 5%nat (grad_ids (Yogi.params g))).
  { intros g [<-|[]]. simpl. intros [H|[]]. discriminate H. }
  rewrite (yogi_step_state_frame yogi_two_params 5 Hj).
  reflexivity.
Defined.

(** ** Exceptions in the middle of a step *)

Lemma adabound_step_params_app g k ps1 ps2 :
  forall st,
    AdaBound.step_params g k st (ps1 ++ ps2) =
    match AdaBound.step_params g k st ps1 with
    | (st1, ps1', Some e) => (st1, ps1' ++ ps2, Some e)
    | (st1, ps1', None) =>
      match AdaBound.step_params g k st1 ps2 with
      | (st2, ps2', e) => (st2, ps1' ++ ps2', e)
      end
    end.
Proof.
  induction ps1 as [|p rest IH]; intros st; simpl.
  - destruct (AdaBound.step_params g k st ps2) as [[st2 ps2'] e]. reflexivity.
  - destruct (AdaBound.update g k st p) as [[st1 p1] [x|]]; [reflexivity|].
    rewrite IH.
    destruct (AdaBound.step_params g k st1 rest) as [[st2 r2] [x|]];
      [reflexivity|].
    destruct (AdaBound.step_params g k st2 ps2) as [[st3 ps3] e]. reflexivity.
Qed.

(** X3.  AdaBound has no rollback: when the parameters [ps1] of a group
    have been updated and the next parameter has a sparse gradient, the
    loop stops with [NoSparseGradientError]; [ps1] and their state stay
    updated, the sparse parameter and those after it are untouched. *)
Theorem adabound_no_rollback
        (g : AdaBound.Group) (k : AdaBound.Scalars)
        (st st1 : store AdaBound.State) (ps1 ps1' ps2 : list Param)
        (p : Param) (grad : Grad)
        (Hps1 : AdaBound.step_params g k st ps1 = (st1, ps1', None))
        (Hgrad : p_grad p = Some grad)
        (Hsparse : is_sparse grad = true) :
  AdaBound.step_params g k st (ps1 ++ p :: ps2)
  = (st1, ps1' ++ p :: ps2, Some NoSparseGradientError).
Proof.
  rewrite adabound_step_params_app, Hps1. simpl.
  now rewrite (adabound_sparse_raises g k st1 p grad Hgrad Hsparse).
Qed.

Lemma adabound_no_rollback_witness :
  exists st1 p1,
    AdaBound.step_params adabound_group_example scalars_example []
                         [dense_param_example] = (st1, [p1], None) /\
    p_data p1 = [1 / 2] /\
    AdaBound.step_params adabound_group_example scalars_example []
                         ([dense_param_example] ++ [sparse_param_example])
    = (st1, [p1] ++ [sparse_param_example], Some NoSparseGradientError).
Proof.
  assert (H1 : exists st1 p1,
             AdaBound.step_params adabound_group_example scalars_example []
                                  [dense_param_example] = (st1, [p1], None) /\
             p_data p1 = [1 / 2]).
  { unfold AdaBound.step_params, AdaBound.update, AdaBound.decay,
      AdaBound.step_size_scalar, py_div. simpl. decide_reals.
    eexists _, _. split; [reflexivity|]. simpl.
    sqrt_is (1 / 4). unfold add_. simpl. f_equal. clamp_eval. }
  destruct H1 as (st1 & p1 & Hs & Hd).
  exists st1, p1. split; [exact Hs|]. split; [exact Hd|].
  exact (adabound_no_rollback adabound_group_example scalars_example
           [] st1 [dense_param_example] [p1] [] sparse_param_example
           (mkGrad true [1]) Hs eq_refl eq_refl).
Defined.

Lemma yogi_init_param_exn g st p st' e :
  Yogi.init_param g st p = (st', Some e) ->
  e = NoSparseGradientError /\ st' = st.
Proof.
  unfold Yogi.init_param.
  destruct (p_grad p) as [grad|]; [|discriminate].
  destruct (is_sparse grad); [intros H; inversion H; auto|].
  destruct (getitem _ _ _) as [st0 s0].
  destruct (Yogi.len0 s0); discriminate.
Qed.

Lemma yogi_init_group_sparse g ps :
  (exists p grad, In p ps /\ p_grad p = Some grad /\ is_sparse grad = true) ->
  forall st, exists st',
      Yogi.init_group g st ps = (st', Some NoSparseGradientError).
Proof.
  induction ps as [|q rest IH]; intros (p & grad & Hin & Hg & Hs) st.
  - destruct Hin.
  - simpl. destruct (Yogi.init_param g st q) as [st1 [x|]] eqn:Ei.
    + destruct (yogi_init_param_exn _ _ _ _ _ Ei) as [-> ->]. eauto.
    + destruct Hin as [->|Hin].
      * rewrite (yogi_sparse_raises_first g st p grad Hg Hs) in Ei.
        discriminate.
      * apply IH. eauto.
Qed.

(** X4.  Yogi's first call on a group (no counter yet) that holds a
    sparse gradient raises [NoSparseGradientError] out of [init_group],
    before the counter is set and before any parameter is updated: the
    group comes back exactly as it was. *)
Theorem yogi_first_call_sparse
        (mx : bool) (st : store Yogi.State) (g : Yogi.Group)
        (Hfirst : Yogi.gr_step g = None)
        (Hsparse : exists p grad,
            In p (Yogi.params g) /\ p_grad p = Some grad /\
            is_sparse grad = true) :
  exists st', Yogi.step_group mx st g = (st', g, Some NoSparseGradientError).
Proof.
  unfold Yogi.step_group. rewrite Hfirst.
  destruct (yogi_init_group_sparse g (Yogi.params g) Hsparse st) as [st' ->].
  eauto.
Qed.

Lemma yogi_first_call_sparse_witness :
  exists st',
    Yogi.step_group false []
      (Yogi.mkGroup 1 (0, 0) 0 true false 1 0 None None
                    [dense_param_example; sparse_param_example])
    = (st',
       Yogi.mkGroup 1 (0, 0) 0 true false 1 0 None None
                    [dense_param_example; sparse_param_example],
       Some NoSparseGradientError).
Proof.
  apply yogi_first_call_sparse; [reflexivity|].
  exists sparse_param_example, (mkGrad true [1]).
  split; [right; left; reflexivity | split; reflexivity].
Defined.

(** ** When the group scalars raise *)

(** X5.  With both betas in [0, 1] (so that [beta ** step] stays in
    range and the root is taken of a non-negative number) the scalars of
    an AdaBound group raise nothing but [ZeroDivisionError], and that
    exactly when one of [base_lr], [gamma*t + 1], [gamma*t] is zero;
    otherwise they are computed. *)
Theorem adabound_scalars_raise
        (g : AdaBound.Group) (b : R) (t : nat)
        (Hbeta1 : 0 <= fst (AdaBound.betas g) <= 1)
        (Hbeta2 : 0 <= snd (AdaBound.betas g) <= 1) :
  (AdaBound.scalars g b t = Raise ZeroDivisionError <->
   b = 0 \/ AdaBound.gamma g * INR t + 1 = 0 \/
   AdaBound.gamma g * INR t = 0) /\
  ((exists k, AdaBound.scalars g b t = Ok k) <->
   b <> 0 /\ AdaBound.gamma g * INR t + 1 <> 0 /\
   AdaBound.gamma g * INR t <> 0) /\
  (forall e, AdaBound.scalars g b t = Raise e -> e = ZeroDivisionError).
Proof.
  pose proof (pow_le_one _ t Hbeta2) as Hp.
  unfold AdaBound.scalars, math_sqrt, py_div.
  destruct (AdaBound.betas g) as [b1 b2]; simpl in *.
  destruct (Rlt_dec (1 - b2 ^ t) 0) as [Hs|Hs]; [lra|].
  destruct (Req_dec_T b 0) as [Hb|Hb];
    [|destruct (Req_dec_T (AdaBound.gamma g * INR t + 1) 0) as [H1|H1];
      [|destruct (Req_dec_T (AdaBound.gamma g * INR t) 0) as [H2|H2]]];
    repeat match goal with
           | |- _ /\ _ => split
           | |- _ <-> _ => split
           | |- _ -> _ => intro
           | |- forall _, _ => intro
           end;
    repeat match goal with
           | H : exists _, _ |- _ => destruct H
           | H : _ /\ _ |- _ => destruct H
           end;
    try discriminate; try congruence; try tauto; eauto.
Qed.

Lemma adabound_scalars_raise_witness :
  0 <= snd (AdaBound.betas adabound_group_example) <= 1 /\
  exists k, AdaBound.scalars adabound_group_example 1 1 = Ok k.
Proof.
  assert (H1 : 0 <= fst (AdaBound.betas adabound_group_example) <= 1)
    by (simpl; lra).
  assert (H2 : 0 <= snd (AdaBound.betas adabound_group_example) <= 1)
    by (simpl; lra).
  split; [exact H2|].
  destruct (adabound_scalars_raise adabound_group_example 1 1 H1 H2)
    as (_ & [_ Hok] & _).
  apply Hok. simpl. repeat split; lra.
Defined.

(** X6.  With [gamma = 0] an AdaBound group cannot be stepped: for a
    usable [beta2] and base learning rate the group body raises
    [ZeroDivisionError] at [1 / (gamma * step)], after the counter was
    advanced and before any parameter or state entry is touched. *)
Theorem adabound_gamma_zero_raises
        (st : store AdaBound.State) (g : AdaBound.Group) (b : R)
        (Hgamma : AdaBound.gamma g = 0)
        (Hbeta : 0 <= snd (AdaBound.betas g) <= 1)
        (Hbase : b <> 0) :
  AdaBound.step_group st g b
  = (st, AdaBound.set_step g (AdaBound.next_step g), Some ZeroDivisionError).
Proof.
  unfold AdaBound.step_group.
  change (AdaBound.scalars (AdaBound.set_step g (AdaBound.next_step g)) b
                           (AdaBound.next_step g))
    with (AdaBound.scalars g b (AdaBound.next_step g)).
  pose proof (pow_le_one _ (AdaBound.next_step g) Hbeta) as Hp.
  unfold AdaBound.scalars, math_sqrt, py_div.
  destruct (AdaBound.betas g) as [b1 b2]. simpl in Hp.
  destruct (Rlt_dec _ 0); [lra|].
  destruct (Req_dec_T b 0); [contradiction|].
  rewrite Hgamma.
  destruct (Req_dec_T (0 * INR (AdaBound.next_step g) + 1) 0); [lra|].
  destruct (Req_dec_T (0 * INR (AdaBound.next_step g)) 0); [reflexivity|lra].
Qed.

Lemma adabound_gamma_zero_raises_witness :
  AdaBound.gamma adabound_gamma_zero = 0 /\
  AdaBound.step_group [] adabound_gamma_zero 1
  = ([], AdaBound.set_step adabound_gamma_zero 1, Some ZeroDivisionError).
Proof.
  split; [reflexivity|].
  apply (adabound_gamma_zero_raises [] adabound_gamma_zero 1).
  - reflexivity.
  - simpl; lra.
  - lra.
Defined.

(** ** What a step leaves alone in the groups *)

(** X7.  AdaBound pairs the groups with the learning rates recorded by
    the constructor ([zip]): groups beyond the recorded rates are not
    stepped at all; parameters, gradients and counter are left as they
    are. *)
Theorem adabound_groups_without_base_lr
        (st : store AdaBound.State) (gs1 gs2 : list AdaBound.Group)
        (bl : list R) (Hlen : length gs1 = length bl) :
  AdaBound.step_groups st (gs1 ++ gs2) bl =
  match AdaBound.step_groups st gs1 bl with
  | (st', gs1', e) => (st', gs1' ++ gs2, e)
  end.
Proof.
  revert st bl Hlen.
  induction gs1 as [|g gs1 IH]; intros st [|b bl] Hlen; try discriminate.
  - simpl. destruct gs2; reflexivity.
  - simpl. destruct (AdaBound.step_group st g b) as [[st1 g1] [x|]];
      [reflexivity|].
    rewrite IH by (simpl in Hlen; lia).
    destruct (AdaBound.step_groups st1 gs1 bl) as [[st2 gs2'] e]. reflexivity.
Qed.

Lemma adabound_groups_without_base_lr_witness :
  AdaBound.step_groups [] ([] ++ [adabound_gamma_zero]) []
  = ([], [adabound_gamma_zero], None).
Proof.
  exact (adabound_groups_without_base_lr [] [] [adabound_gamma_zero] []
                                         eq_refl).
Defined.

Lemma adabound_update_id g k st p st' p' e :
  AdaBound.update g k st p = (st', p', e) -> p_id p' = p_id p.
Proof.
  unfold AdaBound.update.
  destruct (p_grad p) as [grad|]; [|intros H; now inversion H].
  destruct (is_sparse grad); [intros H; now inversion H|].
  destruct (getitem AdaBound.no_state (p_id p) st) as [st0 s0].
  destruct (AdaBound.decay g (p_data p) (g_values grad)) as [pd gv].
  destruct (AdaBound.betas g) as [b1 b2].
  set (s1 := AdaBound.init_state g p s0).
  destruct (AdaBound.exp_avg s1) as [m|]; [|intros H; now inversion H].
  destruct (AdaBound.exp_avg_sq s1) as [v|]; [|intros H; now inversion H].
  simpl AdaBound.max_exp_avg_sq.
  destruct (AdaBound.ams_bound g);
    [destruct (AdaBound.max_exp_avg_sq s1) as [mx|]|];
    try destruct (AdaBound.step_size_scalar g k);
    intros H; now inversion H.
Qed.

Lemma adabound_step_params_ids g k ps :
  forall st st' ps' e,
    AdaBound.step_params g k st ps = (st', ps', e) ->
    map p_id ps' = map p_id ps.
Proof.
  induction ps as [|p rest IH]; simpl; intros st st' ps' e H.
  - now inversion H.
  - destruct (AdaBound.update g k st p) as [[st1 p1] e1] eqn:Eu.
    apply adabound_update_id in Eu.
    destruct e1 as [x|]; [inversion H; subst; simpl; now rewrite Eu|].
    destruct (AdaBound.step_params g k st1 rest) as [[st2 r2] e2] eqn:Er.
    inversion H; subst. simpl. rewrite Eu. f_equal. eapply IH; eauto.
Qed.

Lemma adabound_step_group_keeps st g b st' g' e :
  AdaBound.step_group st g b = (st', g', e) ->
  adabound_settings g' = adabound_settings g /\
  map p_id (AdaBound.params g') = map p_id (AdaBound.params g) /\
  AdaBound.gr_step g' = advance (AdaBound.gr_step g).
Proof.
  unfold AdaBound.step_group.
  assert (Hc : Some (AdaBound.next_step g) = advance (AdaBound.gr_step g)).
  { unfold AdaBound.next_step, advance.
    destruct (AdaBound.gr_step g); reflexivity. }
  destruct (AdaBound.scalars _ _ _) as [k|x].
  - destruct (AdaBound.step_params _ _ _ _) as [[st1 ps1] e1] eqn:Ep.
    apply adabound_step_params_ids in Ep.
    intros H; inversion H; subst. simpl. repeat split; assumption.
  - intros H; inversion H; subst. simpl. repeat split; assumption.
Qed.

Lemma adabound_step_groups_keeps gs :
  forall st bl st' gs' e,
    AdaBound.step_groups st gs bl = (st', gs', e) ->
    map adabound_settings gs' = map adabound_settings gs /\
    map (fun g => map p_id (AdaBound.params g)) gs'
    = map (fun g => map p_id (AdaBound.params g)) gs /\
    Forall2 (fun g g' => counter_step (AdaBound.gr_step g)
                                      (AdaBound.gr_step g')) gs gs'.
Proof.
  assert (Hsame : forall l : list AdaBound.Group,
             Forall2 (fun g g' => counter_step (AdaBound.gr_step g)
                                               (AdaBound.gr_step g')) l l).
  { induction l; constructor; [now left | assumption]. }
  induction gs as [|g gs IH]; simpl; intros st bl st' gs' e H.
  - inversion H; subst. repeat split; constructor.
  - destruct bl as [|b bl];
      [inversion H; subst; repeat split; apply Hsame|].
    destruct (AdaBound.step_group st g b) as [[st1 g1] e1] eqn:Eg.
    destruct (adabound_step_group_keeps _ _ _ _ _ _ Eg) as (Hs & Hi & Hc).
    destruct e1 as [x|].
    + inversion H; subst. simpl. rewrite Hs, Hi.
      repeat split. constructor; [now right | apply Hsame].
    + destruct (AdaBound.step_groups st1 gs bl) as [[st2 gs2] e2] eqn:Er.
      inversion H; subst.
      destruct (IH _ _ _ _ _ Er) as (Hs' & Hi' & Hc').
      simpl. rewrite Hs, Hi, Hs', Hi'.
      repeat split. constructor; [now right | exact Hc'].
Qed.

(** X8.  Whatever its outcome, a call of AdaBound's [step] leaves the
    hyperparameters of every group, the recorded base learning rates and
    the identity and number of the parameters as they were; each group
    counter is either untouched or advanced by exactly one. *)
Theorem adabound_step_keeps_groups (o : AdaBound.Optimizer) :
  let o' := fst (AdaBound.step None o) in
  map adabound_settings (AdaBound.param_groups o')
  = map adabound_settings (AdaBound.param_groups o) /\
  map (fun g => map p_id (AdaBound.params g)) (AdaBound.param_groups o')
  = map (fun g => map p_id (AdaBound.params g)) (AdaBound.param_groups o) /\
  Forall2 (fun g g' => counter_step (AdaBound.gr_step g)
                                    (AdaBound.gr_step g'))
          (AdaBound.param_groups o) (AdaBound.param_groups o') /\
  AdaBound.base_lrs o' = AdaBound.base_lrs o.
Proof.
  unfold AdaBound.step.
  destruct (AdaBound.step_groups _ _ _) as [[st gs] e] eqn:Es.
  destruct (adabound_step_groups_keeps _ _ _ _ _ _ Es) as (H1 & H2 & H3).
  destruct e; simpl; repeat split; assumption.
Qed.

Lemma yogi_update_id mx g bc2 ss st p st' p' e :
  Yogi.update mx g bc2 ss st p = (st', p', e) -> p_id p' = p_id p.
Proof.
  unfold Yogi.update.
  destruct (p_grad p) as [grad|]; [|intros H; now inversion H].
  destruct (getitem Yogi.no_state (p_id p) st) as [st0 s0].
  destruct (Yogi.apply_weight_decay _ _ _ _ _ _) as [pd gv].
  destruct (Yogi.betas g) as [b1 b2].
  destruct (Yogi.exp_avg s0), (Yogi.exp_avg_sq s0);
    intros H; now inversion H.
Qed.

Lemma yogi_step_params_ids mx g bc2 ss ps :
  forall st st' ps' e,
    Yogi.step_params mx g bc2 ss st ps = (st', ps', e) ->
    map p_id ps' = map p_id ps.
Proof.
  induction ps as [|p rest IH]; simpl; intros st st' ps' e H.
  - now inversion H.
  - destruct (Yogi.update mx g bc2 ss st p) as [[st1 p1] e1] eqn:Eu.
    apply yogi_update_id in Eu.
    destruct e1 as [x|]; [inversion H; subst; simpl; now rewrite Eu|].
    destruct (Yogi.step_params mx g bc2 ss st1 rest) as [[st2 r2] e2] eqn:Er.
    inversion H; subst. simpl. rewrite Eu. f_equal. eapply IH; eauto.
Qed.

Lemma yogi_step_group_keeps mx st g st' g' e :
  Yogi.step_group mx st g = (st', g', e) ->
  yogi_settings g' = yogi_settings g /\
  map p_id (Yogi.params g') = map p_id (Yogi.params g) /\
  counter_step (Yogi.gr_step g) (Yogi.gr_step g').
Proof.
  assert (Hb : forall st1 t st2 g2 e2,
             Yogi.group_body mx st1 (Yogi.set_step g t) t = (st2, g2, e2) ->
             yogi_settings g2 = yogi_settings g /\
             map p_id (Yogi.params g2) = map p_id (Yogi.params g) /\
             Yogi.gr_step g2 = Some t).
  { unfold Yogi.group_body. intros st1 t st2 g2 e2.
    destruct (Yogi.scalars _ _) as [[bc2 ss]|x].
    - destruct (Yogi.step_params _ _ _ _ _ _) as [[st3 ps3] e3] eqn:Ep.
      apply yogi_step_params_ids in Ep.
      intros H; inversion H; subst. simpl. repeat split; assumption.
    - intros H; inversion H; subst. simpl. repeat split; reflexivity. }
  unfold Yogi.step_group, counter_step, advance.
  destruct (Yogi.gr_step g) as [n|] eqn:En.
  - intros H. destruct (Hb _ _ _ _ _ H) as (H1 & H2 & H3). auto.
  - destruct (Yogi.init_group g st (Yogi.params g)) as [st1 [x|]].
    + intros H; inversion H; subst. rewrite En. auto.
    + intros H. destruct (Hb _ _ _ _ _ H) as (H1 & H2 & H3). auto.
Qed.

(** X9.  Whatever its outcome, a call of Yogi's [step] leaves the
    [maximize] switch, the hyperparameters of every group and the
    identity and number of the parameters as they were; each group
    counter is either untouched or advanced by exactly one. *)
Theorem yogi_step_keeps_groups (o : Yogi.Optimizer) :
  let o' := fst (Yogi.step None o) in
  Yogi.maximize o' = Yogi.maximize o /\
  map yogi_settings (Yogi.param_groups o')
  = map yogi_settings (Yogi.param_groups o) /\
  map (fun g => map p_id (Yogi.params g)) (Yogi.param_groups o')
  = map (fun g => map p_id (Yogi.params g)) (Yogi.param_groups o) /\
  Forall2 (fun g g' => counter_step (Yogi.gr_step g) (Yogi.gr_step g'))
          (Yogi.param_groups o) (Yogi.param_groups o').
Proof.
  assert (Hsame : forall l : list Yogi.Group,
             Forall2 (fun g g' => counter_step (Yogi.gr_step g)
                                               (Yogi.gr_step g')) l l).
  { induction l; constructor; [now left | assumption]. }
  assert (Hgs : forall gs st st' gs' e,
             Yogi.step_groups (Yogi.maximize o) st gs = (st', gs', e) ->
             map yogi_settings gs' = map yogi_settings gs /\
             map (fun g => map p_id (Yogi.params g)) gs'
             = map (fun g => map p_id (Yogi.params g)) gs /\
             Forall2 (fun g g' => counter_step (Yogi.gr_step g)
                                               (Yogi.gr_step g')) gs gs').
  { induction gs as [|g gs IH]; simpl; intros st st' gs' e H.
    - inversion H; subst. repeat split; constructor.
    - destruct (Yogi.step_group (Yogi.maximize o) st g)
        as [[st1 g1] e1] eqn:Eg.
      destruct (yogi_step_group_keeps _ _ _ _ _ _ Eg) as (Hs & Hi & Hc).
      destruct e1 as [x|].
      + inversion H; subst. simpl. rewrite Hs, Hi.
        repeat split. constructor; [exact Hc | apply Hsame].
      + destruct (Yogi.step_groups (Yogi.maximize o) st1 gs)
          as [[st2 gs2] e2] eqn:Er.
        inversion H; subst.
        destruct (IH _ _ _ _ Er) as (Hs' & Hi' & Hc').
        simpl. rewrite Hs, Hi, Hs', Hi'.
        repeat split. constructor; [exact Hc | exact Hc']. }
  unfold Yogi.step.
  destruct (Yogi.step_groups _ _ _) as [[st gs] e] eqn:Es.
  destruct (Hgs _ _ _ _ _ Es) as (H1 & H2 & H3).
  destruct e; simpl; repeat split; assumption.
Qed.

(** ** The two moving averages *)

Lemma moving_average_eq (m gv : tensor) (b1 : R) :
  add_ (mul_ m b1) gv (1 - b1)
  = map2 (fun a x => b1 * a + (1 - b1) * x) m gv.
Proof.
  unfold add_, mul_. rewrite map2_map_l. apply map2_ext. intros; ring.
Qed.

Lemma moving_square_eq (v gv : tensor) (b2 : R) :
  addcmul_ (mul_ v b2) gv gv (1 - b2)
  = map2 (fun a x => b2 * a + (1 - b2) * (x * x)) v gv.
Proof.
  unfold addcmul_, mul_, mul. rewrite map2_diag, map2_map_l, map2_map_r.
  apply map2_ext. intros; ring.
Qed.

(** ** In-place changes of the gradient *)

(** Past the layout test, the loop body leaves in [p.grad] the gradient
    that the weight decay produced, on every path. *)
Lemma adabound_update_gradient g k st p gv st' p' e :
  p_grad p = Some (mkGrad false gv) ->
  AdaBound.update g k st p = (st', p', e) ->
  p_grad p' = Some (mkGrad false (snd (AdaBound.decay g (p_data p) gv))).
Proof.
  intros Hgrad. unfold AdaBound.update. rewrite Hgrad. simpl.
  destruct (getitem AdaBound.no_state (p_id p) st) as [st0 s0].
  destruct (AdaBound.decay g (p_data p) gv) as [pd gvd]. simpl.
  destruct (AdaBound.betas g) as [b1 b2].
  set (s1 := AdaBound.init_state g p s0).
  destruct (AdaBound.exp_avg s1) as [m|]; [|intros E; now inversion E].
  destruct (AdaBound.exp_avg_sq s1) as [v|]; [|intros E; now inversion E].
  simpl AdaBound.max_exp_avg_sq.
  destruct (AdaBound.ams_bound g);
    [destruct (AdaBound.max_exp_avg_sq s1) as [mx|]|];
    try destruct (AdaBound.step_size_scalar g k);
    intros E; now inversion E.
Qed.

Lemma adabound_decay_keeps_gradient g pd gv :
  AdaBound.weight_decouple g = true \/ AdaBound.weight_decay g <= 0 ->
  snd (AdaBound.decay g pd gv) = gv.
Proof.
  unfold AdaBound.decay. intros [->|Hwd]; [reflexivity|].
  destruct (AdaBound.weight_decouple g); [reflexivity|].
  destruct (Rlt_dec 0 (AdaBound.weight_decay g)); [lra | reflexivity].
Qed.

(** X10.  AdaBound's loop body writes the weight-decayed gradient back
    into [p.grad] before it reads the state: with coupled decay and
    [weight_decay > 0] a dense gradient [gv] becomes
    [gv + weight_decay * p], whether the body then completes or raises;
    with decoupled decay, or [weight_decay <= 0], it keeps its values. *)
Theorem adabound_gradient_after_update
        (g : AdaBound.Group) (k : AdaBound.Scalars)
        (st st' : store AdaBound.State) (p p' : Param) (gv : tensor)
        (e : option exn)
        (Hgrad : p_grad p = Some (mkGrad false gv))
        (Hup : AdaBound.update g k st p = (st', p', e)) :
  (AdaBound.weight_decouple g = false -> 0 < AdaBound.weight_decay g ->
   p_grad p' = Some (mkGrad false
                            (map2 (fun x y => x + AdaBound.weight_decay g * y)
                                  gv (p_data p)))) /\
  (AdaBound.weight_decouple g = true \/ AdaBound.weight_decay g <= 0 ->
   p_grad p' = Some (mkGrad false gv)).
Proof.
  rewrite (adabound_update_gradient _ _ _ _ _ _ _ _ Hgrad Hup). split.
  - unfold AdaBound.decay, add_. intros -> Hwd.
    destruct (Rlt_dec 0 (AdaBound.weight_decay g)); [reflexivity | lra].
  - intros Hd. now rewrite adabound_decay_keeps_gradient.
Qed.

Lemma adabound_gradient_after_update_witness :
  exists st' p' e,
    AdaBound.update decay_group_example scalars_example []
                    dense_param_example = (st', p', e) /\
    p_grad p' = Some (mkGrad false [1 / 4]).
Proof.
  destruct (AdaBound.update decay_group_example scalars_example []
                            dense_param_example) as [[st' p'] e] eqn:Eu.
  exists st', p', e. split; [reflexivity|].
  destruct (adabound_gradient_after_update
              decay_group_example scalars_example [] st'
              dense_param_example p' [1 / 4] e eq_refl Eu) as [_ H].
  apply H. left. reflexivity.
Defined.

Lemma adabound_update_keeps_gradient g k st p st' p' e :
  AdaBound.weight_decouple g = true \/ AdaBound.weight_decay g <= 0 ->
  AdaBound.update g k st p = (st', p', e) -> p_grad p' = p_grad p.
Proof.
  intros Hd Hup.
  destruct (p_grad p) as [[sp gv]|] eqn:Eg.
  - destruct sp.
    + rewrite (adabound_sparse_raises g k st p _ Eg eq_refl) in Hup.
      inversion Hup; subst. exact Eg.
    + rewrite (adabound_update_gradient _ _ _ _ _ _ _ _ Eg Hup).
      now rewrite adabound_decay_keeps_gradient.
  - unfold AdaBound.update in Hup. rewrite Eg in Hup.
    inversion Hup; subst. exact Eg.
Qed.

Lemma adabound_step_params_keeps_gradients g k ps :
  AdaBound.weight_decouple g = true \/ AdaBound.weight_decay g <= 0 ->
  forall st st' ps' e,
    AdaBound.step_params g k st ps = (st', ps', e) ->
    map p_grad ps' = map p_grad ps.
Proof.
  intros Hd. induction ps as [|p rest IH]; simpl; intros st st' ps' e H.
  - now inversion H.
  - destruct (AdaBound.update g k st p) as [[st1 p1] e1] eqn:Eu.
    apply (adabound_update_keeps_gradient _ _ _ _ _ _ _ Hd) in Eu.
    destruct e1 as [x|]; [inversion H; subst; simpl; now rewrite Eu|].
    destruct (AdaBound.step_params g k st1 rest) as [[st2 r2] e2] eqn:Er.
    inversion H; subst. simpl. rewrite Eu. f_equal. eapply IH; eauto.
Qed.

Lemma adabound_step_groups_keeps_gradients gs :
  Forall (fun g => AdaBound.weight_decouple g = true \/
                   AdaBound.weight_decay g <= 0) gs ->
  forall st bl st' gs' e,
    AdaBound.step_groups st gs bl = (st', gs', e) ->
    map (fun g => map p_grad (AdaBound.params g)) gs'
    = map (fun g => map p_grad (AdaBound.params g)) gs.
Proof.
  induction 1 as [|g gs Hg Hgs IH]; simpl; intros st bl st' gs' e H.
  - now inversion H.
  - destruct bl as [|b bl]; [now inversion H|].
    assert (H1 : forall st1 g1 e1,
               AdaBound.step_group st g b = (st1, g1, e1) ->
               map p_grad (AdaBound.params g1)
               = map p_grad (AdaBound.params g)).
    { unfold AdaBound.step_group. intros st1 g1 e1.
      destruct (AdaBound.scalars _ _ _) as [k|x]; [|intros E; now inversion E].
      destruct (AdaBound.step_params _ _ _ _) as [[st2 ps2] e2] eqn:Ep.
      intros E; inversion E; subst. simpl.
      eapply (adabound_step_params_keeps_gradients
                (AdaBound.set_step g (AdaBound.next_step g)));
        [exact Hg | exact Ep]. }
    destruct (AdaBound.step_group st g b) as [[st1 g1] e1] eqn:Eg.
    specialize (H1 _ _ _ eq_refl).
    destruct e1 as [x|]; [inversion H; subst; simpl; now rewrite H1|].
    destruct (AdaBound.step_groups st1 gs bl) as [[st2 gs2] e2] eqn:Er.
    inversion H; subst. simpl. rewrite H1. f_equal. eapply IH; eauto.
Qed.

(** X11.  When every group uses decoupled weight decay (or a
    [weight_decay] that is not positive), a call of AdaBound's [step],
    returned or raised, leaves every gradient as it was. *)
Theorem adabound_step_keeps_gradients (o : AdaBound.Optimizer)
        (Hd : Forall (fun g => AdaBound.weight_decouple g = true \/
                               AdaBound.weight_decay g <= 0)
                     (AdaBound.param_groups o)) :
  map (fun g => map p_grad (AdaBound.params g))
      (AdaBound.param_groups (fst (AdaBound.step None o)))
  = map (fun g => map p_grad (AdaBound.params g)) (AdaBound.param_groups o).
Proof.
  unfold AdaBound.step.
  destruct (AdaBound.step_groups _ _ _) as [[st gs] e] eqn:Es.
  pose proof (adabound_step_groups_keeps_gradients _ Hd _ _ _ _ _ Es) as H.
  destruct e; simpl; exact H.
Qed.

Lemma adabound_step_keeps_gradients_witness :
  map (fun g => map p_grad (AdaBound.params g))
      (AdaBound.param_groups (fst (AdaBound.step None adabound_two_params)))
  = [[Some (mkGrad false [1 / 4]); None]].
Proof.
  assert (Hd : Forall (fun g => AdaBound.weight_decouple g = true \/
                                AdaBound.weight_decay g <= 0)
                      (AdaBound.param_groups adabound_two_params))
    by (repeat constructor).
  rewrite (adabound_step_keeps_gradients adabound_two_params Hd).
  reflexivity.
Defined.

(** ** Missing keys in an existing state *)

(** X12.  When [ams_bound] is on for a parameter whose state holds both
    moments but no ['max_exp_avg_sq'] (the flag was switched on after the
    state was created), the loop body raises [KeyError]; by then the
    weight decay has been applied and both moments have been overwritten
    with their new values. *)
Theorem adabound_ams_switched_on
        (g : AdaBound.Group) (k : AdaBound.Scalars)
        (st : store AdaBound.State) (p : Param) (gv0 m v : tensor)
        (c : option nat)
        (Hgrad : p_grad p = Some (mkGrad false gv0))
        (Hst : lookup (p_id p) st
               = Some (AdaBound.mkState c (Some m) (Some v) None))
        (Hams : AdaBound.ams_bound g = true) :
  let beta1 := fst (AdaBound.betas g) in
  let beta2 := snd (AdaBound.betas g) in
  let pd := fst (AdaBound.decay g (p_data p) gv0) in
  let gv := snd (AdaBound.decay g (p_data p) gv0) in
  AdaBound.update g k st p
  = (assign (p_id p)
            (AdaBound.mkState
               c
               (Some (map2 (fun a x => beta1 * a + (1 - beta1) * x) m gv))
               (Some (map2 (fun a x => beta2 * a + (1 - beta2) * (x * x))
                           v gv))
               None)
            st,
     mkParam (p_id p) pd (Some (mkGrad false gv)),
     Some KeyError).
Proof.
  intros beta1 beta2 pd gv.
  unfold AdaBound.update, getitem. rewrite Hgrad, Hst. simpl.
  unfold AdaBound.init_state. simpl.
  assert (Hl : AdaBound.len0 (AdaBound.mkState c (Some m) (Some v) None)
               = false) by (destruct c; reflexivity).
  rewrite Hl.
  destruct (AdaBound.decay g (p_data p) gv0) as [pd0 gvd] eqn:Ed.
  simpl in pd, gv. subst pd gv.
  destruct (AdaBound.betas g) as [b1 b2]. simpl in beta1, beta2.
  subst beta1 beta2. simpl. rewrite Hams.
  now rewrite moving_average_eq, moving_square_eq.
Qed.

Lemma adabound_ams_switched_on_witness :
  exists st' p',
    AdaBound.update
      (AdaBound.mkGroup 1 (0, 0) 1 1 0 true false true false 0 None [])
      scalars_example
      [(0%nat, AdaBound.mkState None (Some [0]) (Some [0]) None)]
      dense_param_example
    = (st', p', Some KeyError).
Proof.
  eexists _, _.
  exact (adabound_ams_switched_on
           (AdaBound.mkGroup 1 (0, 0) 1 1 0 true false true false 0 None [])
           scalars_example
           [(0%nat, AdaBound.mkState None (Some [0]) (Some [0]) None)]
           dense_param_example [1 / 4] [0] [0] None
           eq_refl eq_refl eq_refl).
Defined.

(** X13.  On the first encounter of a parameter with a dense gradient (no
    state entry yet) AdaBound's loop body creates a complete entry and
    never raises [KeyError]: it completes when the scalar step size is
    computed, and otherwise raises what that division raises. *)
Theorem adabound_first_encounter
        (g : AdaBound.Group) (k : AdaBound.Scalars)
        (st : store AdaBound.State) (p : Param) (gv0 : tensor)
        (Hgrad : p_grad p = Some (mkGrad false gv0))
        (Hnew : lookup (p_id p) st = None) :
  exists st' p' s,
    AdaBound.update g k st p
    = (st', p',
       match AdaBound.step_size_scalar g k with
       | Ok _ => None
       | Raise e => Some e
       end) /\
    lookup (p_id p) st' = Some s /\
    AdaBound.exp_avg s <> None /\ AdaBound.exp_avg_sq s <> None /\
    (AdaBound.ams_bound g = true -> AdaBound.max_exp_avg_sq s <> None).
Proof.
  unfold AdaBound.update, getitem. rewrite Hgrad, Hnew. simpl.
  destruct (AdaBound.decay g (p_data p) gv0) as [pd gv].
  destruct (AdaBound.betas g) as [b1 b2].
  destruct (AdaBound.ams_bound g); simpl;
    destruct (AdaBound.step_size_scalar g k);
    eexists _, _, _; (split; [reflexivity|]);
    rewrite lookup_assign_same; (split; [reflexivity|]);
    simpl; repeat split; discriminate.
Qed.

Lemma adabound_first_encounter_witness :
  exists st' p',
    AdaBound.update adabound_group_example scalars_example []
                    dense_param_example = (st', p', None).
Proof.
  destruct (adabound_first_encounter adabound_group_example scalars_example
              [] dense_param_example [1 / 4] eq_refl eq_refl)
    as (st' & p' & s & Hu & _).
  exists st', p'. rewrite Hu.
  unfold AdaBound.step_size_scalar, py_div. simpl.
  destruct (Req_dec_T 1 0); [lra | reflexivity].
Defined.

(** ** Reset *)

Lemma getitem_assign {S : Type} (empty : S) k x (st : store S) :
  getitem empty k (assign k x st) = (assign k x st, x).
Proof. unfold getitem. now rewrite lookup_assign_same. Qed.

(** X14.  For the update of a parameter, a state that [reset] has just
    rewritten is as good as no state: the loop body yields the same
    parameter, the same outcome and the same accumulators as on the first
    encounter of that parameter. *)
Theorem adabound_update_after_reset
        (g : AdaBound.Group) (k : AdaBound.Scalars)
        (st st0 : store AdaBound.State) (p : Param) (gv0 : tensor)
        (Hgrad : p_grad p = Some (mkGrad false gv0))
        (Hnew : lookup (p_id p) st0 = None) :
  let r1 := AdaBound.update g k (AdaBound.reset_param g st p) p in
  let r2 := AdaBound.update g k st0 p in
  snd (fst r1) = snd (fst r2) /\
  snd r1 = snd r2 /\
  exists s1 s2,
    lookup (p_id p) (fst (fst r1)) = Some s1 /\
    lookup (p_id p) (fst (fst r2)) = Some s2 /\
    AdaBound.exp_avg s1 = AdaBound.exp_avg s2 /\
    AdaBound.exp_avg_sq s1 = AdaBound.exp_avg_sq s2 /\
    (AdaBound.ams_bound g = true ->
     AdaBound.max_exp_avg_sq s1 = AdaBound.max_exp_avg_sq s2).
Proof.
  intros r1 r2. subst r1 r2.
  unfold AdaBound.update. rewrite Hgrad. simpl is_sparse. cbv iota.
  unfold AdaBound.reset_param.
  destruct (getitem AdaBound.no_state (p_id p) st) as [sta s0].
  rewrite getitem_assign.
  unfold getitem. rewrite Hnew.
  unfold AdaBound.init_state. simpl.
  destruct (AdaBound.decay g (p_data p) gv0) as [pd gv].
  destruct (AdaBound.betas g) as [b1 b2].
  destruct (AdaBound.ams_bound g); simpl;
    destruct (AdaBound.step_size_scalar g k); simpl;
    rewrite !lookup_assign_same;
    (split; [reflexivity|]); (split; [reflexivity|]);
    eexists _, _; (split; [reflexivity|]); (split; [reflexivity|]);
    simpl; repeat split; intros; reflexivity || discriminate.
Qed.

Lemma adabound_update_after_reset_witness :
  snd (fst (AdaBound.update
              adabound_group_example scalars_example
              (AdaBound.reset_param
                 adabound_group_example
                 [(0%nat, AdaBound.mkState None (Some [7]) (Some [9]) None)]
                 dense_param_example)
              dense_param_example))
  = snd (fst (AdaBound.update adabound_group_example scalars_example []
                              dense_param_example)).
Proof.
  exact (proj1 (adabound_update_after_reset
                  adabound_group_example scalars_example
                  [(0%nat, AdaBound.mkState None (Some [7]) (Some [9]) None)]
                  [] dense_param_example [1 / 4] eq_refl eq_refl)).
Defined.

Lemma adabound_reset_param_spread g st p j :
  j = p_id p \/ (exists s, lookup j st = Some s /\ adabound_zeroed s) ->
  exists s, lookup j (AdaBound.reset_param g st p) = Some s /\
            adabound_zeroed s.
Proof.
  intros H. unfold AdaBound.reset_param.
  pose proof (getitem_frame AdaBound.no_state (p_id p) j st) as Hf.
  destruct (getitem AdaBound.no_state (p_id p) st) as [st0 s0]. simpl in Hf.
  destruct (Nat.eq_dec (p_id p) j) as [<-|N].
  - rewrite lookup_assign_same. eexists; split; [reflexivity|].
    assert (Hz : Forall (eq 0) (zeros_like (p_data p))).
    { unfold zeros_like. apply Forall_forall. intros x Hx.
      apply in_map_iff in Hx. destruct Hx as (_ & <- & _). reflexivity. }
    repeat split; simpl; eauto.
  - rewrite lookup_assign_other by exact N. rewrite (Hf N).
    destruct H as [->|H]; [congruence | exact H].
Qed.

Lemma adabound_reset_group_spread g ps :
  forall st j,
    In j (map p_id ps) \/ (exists s, lookup j st = Some s /\ adabound_zeroed s) ->
    exists s, lookup j (fold_left (AdaBound.reset_param g) ps st) = Some s /\
              adabound_zeroed s.
Proof.
  induction ps as [|p ps IH]; simpl; intros st j H.
  - destruct H as [[]|H]; exact H.
  - apply IH.
    destruct H as [[E|Hin]|H].
    + right. apply adabound_reset_param_spread. now left.
    + now left.
    + right. apply adabound_reset_param_spread. now right.
Qed.

Lemma adabound_reset_groups_spread gs :
  forall st j,
    (exists g, In g gs /\ In j (map p_id (AdaBound.params g))) \/
    (exists s, lookup j st = Some s /\ adabound_zeroed s) ->
    exists s, lookup j (fold_left AdaBound.reset_group gs st) = Some s /\
              adabound_zeroed s.
Proof.
  induction gs as [|g gs IH]; simpl; intros st j H.
  - destruct H as [(g & [] & _)|H]; exact H.
  - apply IH. unfold AdaBound.reset_group.
    destruct H as [(g' & [<-|Hin] & Hj)|H].
    + right. apply adabound_reset_group_spread. now left.
    + left. eauto.
    + right. apply adabound_reset_group_spread. now right.
Qed.

(** X15.  After [reset] every parameter of every group, also one that
    never had a gradient or a state entry, has a state entry with the key
    ['step'] at 0 and both moments zero. *)
Theorem adabound_reset_covers_parameters
        (o : AdaBound.Optimizer) (g : AdaBound.Group) (p : Param)
        (Hg : In g (AdaBound.param_groups o))
        (Hp : In p (AdaBound.params g)) :
  exists s, lookup (p_id p) (AdaBound.state (AdaBound.reset o)) = Some s /\
            adabound_zeroed s.
Proof.
  unfold AdaBound.reset. simpl.
  apply adabound_reset_groups_spread. left.
  exists g. split; [exact Hg | now apply in_map].
Qed.

Lemma adabound_reset_covers_parameters_witness :
  exists s,
    lookup 0%nat (AdaBound.state (AdaBound.reset adabound_two_params))
    = Some s /\ adabound_zeroed s.
Proof.
  apply (adabound_reset_covers_parameters
           adabound_two_params
           (AdaBound.mkGroup 1 (0, 0) 1 1 0 true false false false 0 None
                             [mkParam 0 [1] (Some (mkGrad false [1 / 4]));
                              mkParam 5 [2] None])
           (mkParam 0 [1] (Some (mkGrad false [1 / 4])))).
  - left. reflexivity.
  - left. reflexivity.
Defined.

(** ** Size of the accumulators and of the update *)

Lemma nth_error_map2 (f : R -> R -> R) (a b : tensor) :
  forall i x,
    nth_error (map2 f a b) i = Some x ->
    exists y z, nth_error a i = Some y /\ nth_error b i = Some z /\
                x = f y z.
Proof.
  revert b. induction a as [|y a IH]; intros [|z b] [|i] x; simpl;
    try discriminate.
  - intros H; inversion H; subst. eauto.
  - apply IH.
Qed.

Lemma Forall_map2_both (P Q T : R -> Prop) (f : R -> R -> R) (a b : tensor) :
  Forall Q a -> Forall T b -> (forall x y, Q x -> T y -> P (f x y)) ->
  Forall P (map2 f a b).
Proof.
  intros Ha. revert b.
  induction Ha as [|x a Hx Ha IH]; intros [|y b] Hb Hf; simpl;
    try constructor.
  - inversion Hb; subst. auto.
  - inversion Hb; subst. apply IH; assumption.
Qed.

(** X16.  With AMS-bound on and a complete state, the stored maximum
    after the loop body (completed or raised at the step-size division)
    dominates, element by element, both the maximum it replaces and the
    new second moment. *)
Theorem adabound_ams_max_dominates
        (g : AdaBound.Group) (k : AdaBound.Scalars)
        (st st' : store AdaBound.State) (p p' : Param) (gv0 m v mx : tensor)
        (c : option nat) (e : option exn)
        (Hgrad : p_grad p = Some (mkGrad false gv0))
        (Hst : lookup (p_id p) st
               = Some (AdaBound.mkState c (Some m) (Some v) (Some mx)))
        (Hams : AdaBound.ams_bound g = true)
        (Hup : AdaBound.update g k st p = (st', p', e)) :
  exists m' v' mx',
    lookup (p_id p) st'
    = Some (AdaBound.mkState c (Some m') (Some v') (Some mx')) /\
    forall i x,
      nth_error mx' i = Some x ->
      (exists y, nth_error mx i = Some y /\ y <= x) /\
      (exists z, nth_error v' i = Some z /\ z <= x).
Proof.
  revert Hup. unfold AdaBound.update, getitem. rewrite Hgrad, Hst. simpl.
  unfold AdaBound.init_state.
  assert (Hl : AdaBound.len0 (AdaBound.mkState c (Some m) (Some v) (Some mx))
               = false) by (destruct c; reflexivity).
  rewrite Hl. simpl.
  destruct (AdaBound.decay g (p_data p) gv0) as [pd gv].
  destruct (AdaBound.betas g) as [b1 b2]. rewrite Hams.
  assert (Hdom : forall v' i x,
             nth_error (torch_max mx v') i = Some x ->
             (exists y, nth_error mx i = Some y /\ y <= x) /\
             (exists z, nth_error v' i = Some z /\ z <= x)).
  { intros v' i x Hx. unfold torch_max in Hx.
    apply nth_error_map2 in Hx. destruct Hx as (y & z & Hy & Hz & ->).
    split; eexists; (split; [eassumption|]);
      [apply Rmax_l | apply Rmax_r]. }
  destruct (AdaBound.step_size_scalar g k);
    intros H; inversion H; subst; rewrite lookup_assign_same;
    eexists _, _, _; (split; [reflexivity | apply Hdom]).
Qed.

Lemma adabound_ams_max_dominates_witness :
  exists m' v' mx',
    lookup 0%nat
      (fst (fst (AdaBound.update adabound_ams_group scalars_example
                                 adabound_ams_store dense_param_example)))
    = Some (AdaBound.mkState None (Some m') (Some v') (Some mx')) /\
    forall i x, nth_error mx' i = Some x ->
                (exists y, nth_error [3] i = Some y /\ y <= x) /\
                (exists z, nth_error v' i = Some z /\ z <= x).
Proof.
  destruct (AdaBound.update adabound_ams_group scalars_example
                            adabound_ams_store dense_param_example)
    as [[st' p'] e] eqn:Eu.
  exact (adabound_ams_max_dominates
           adabound_ams_group scalars_example adabound_ams_store st'
           dense_param_example p' [1 / 4] [0] [0] [3] None e
           eq_refl eq_refl eq_refl Eu).
Defined.

Lemma Rabs_le_both (x G : R) : Rabs x <= G -> - G <= x <= G.
Proof. unfold Rabs. destruct (Rcase_abs x); lra. Qed.

Lemma moving_average_bounded (m gv : tensor) (b1 G : R) :
  0 <= b1 <= 1 ->
  Forall (fun x => Rabs x <= G) m -> Forall (fun x => Rabs x <= G) gv ->
  Forall (fun x => Rabs x <= G) (add_ (mul_ m b1) gv (1 - b1)).
Proof.
  intros Hb Hm Hg. rewrite moving_average_eq.
  apply Forall_map2_both with (Q := fun x => Rabs x <= G)
                              (T := fun x => Rabs x <= G); auto.
  intros x y Hx Hy.
  apply Rabs_le. apply Rabs_le_both in Hx. apply Rabs_le_both in Hy.
  split; nra.
Qed.

Lemma step_size_tensor_bounded k ss den m G :
  0 <= AdaBound.lower_bound k <= AdaBound.upper_bound k ->
  Forall (fun x => Rabs x <= G) m ->
  Forall (fun d => Rabs d <= AdaBound.upper_bound k * G)
         (AdaBound.step_size_tensor k ss den m).
Proof.
  intros Hb Hm. unfold AdaBound.step_size_tensor, mul, clamp_.
  apply Forall_map2_both
    with (Q := fun c => AdaBound.lower_bound k <= c <= AdaBound.upper_bound k)
         (T := fun x => Rabs x <= G); auto.
  - apply Forall_forall. intros c Hc. apply in_map_iff in Hc.
    destruct Hc as (y & <- & _). apply clamp1_range. lra.
  - intros c x Hc Hx. rewrite Rabs_mult.
    rewrite (Rabs_right c) by lra.
    pose proof (Rabs_pos x). nra.
Qed.

(** X17.  AdaBound's parameter change is bounded: with [beta1] in
    [0, 1], bounds [0 <= lower_bound <= upper_bound], and first moment and
    weight-decayed gradient bounded by [G] in absolute value, a completed
    loop body moves every element of the (weight-decayed) parameter by at
    most [upper_bound * G], and the new first moment is again bounded by
    [G]. *)
Theorem adabound_update_bounded
        (g : AdaBound.Group) (k : AdaBound.Scalars)
        (st st' : store AdaBound.State) (p p' : Param) (gv0 m v : tensor)
        (s1 : AdaBound.State) (G : R)
        (Hgrad : p_grad p = Some (mkGrad false gv0))
        (Hs1 : s1 = AdaBound.init_state g p
                      (snd (getitem AdaBound.no_state (p_id p) st)))
        (Hm : AdaBound.exp_avg s1 = Some m)
        (Hv : AdaBound.exp_avg_sq s1 = Some v)
        (Hbeta : 0 <= fst (AdaBound.betas g) <= 1)
        (Hbounds : 0 <= AdaBound.lower_bound k <= AdaBound.upper_bound k)
        (HmG : Forall (fun x => Rabs x <= G) m)
        (HgG : Forall (fun x => Rabs x <= G)
                      (snd (AdaBound.decay g (p_data p) gv0)))
        (Hup : AdaBound.update g k st p = (st', p', None)) :
  exists delta s',
    p_data p' = map2 Rminus (fst (AdaBound.decay g (p_data p) gv0)) delta /\
    Forall (fun d => Rabs d <= AdaBound.upper_bound k * G) delta /\
    lookup (p_id p) st' = Some s' /\
    abs_bounded G (AdaBound.exp_avg s').
Proof.
  revert Hup. unfold AdaBound.update. rewrite Hgrad. simpl is_sparse.
  cbv iota.
  destruct (getitem AdaBound.no_state (p_id p) st) as [st0 s0].
  simpl in Hs1. rewrite <- Hs1. simpl g_values.
  destruct (AdaBound.decay g (p_data p) gv0) as [pd gv]. simpl in HgG |- *.
  destruct (AdaBound.betas g) as [b1 b2]. simpl in Hbeta.
  rewrite Hm, Hv. simpl AdaBound.max_exp_avg_sq.
  pose proof (moving_average_bounded m gv b1 G Hbeta HmG HgG) as Hm'.
  assert (Hfin : forall ss den s3,
             AdaBound.exp_avg s3
             = Some (add_ (mul_ m b1) gv (1 - b1)) ->
             (assign (p_id p) s3 st0,
              mkParam (p_id p)
                      (add_ pd (neg_ (AdaBound.step_size_tensor
                                        k ss den
                                        (add_ (mul_ m b1) gv (1 - b1)))) 1)
                      (Some (mkGrad false gv)), @None exn) = (st', p', None) ->
             exists delta s',
               p_data p' = map2 Rminus pd delta /\
               Forall (fun d => Rabs d <= AdaBound.upper_bound k * G) delta /\
               lookup (p_id p) st' = Some s' /\
               abs_bounded G (AdaBound.exp_avg s')).
  { intros ss den s3 He H. inversion H; subst. simpl.
    exists (AdaBound.step_size_tensor k ss den
                                      (add_ (mul_ m b1) gv (1 - b1))), s3.
    split.
    { unfold add_, neg_. rewrite map2_map_r. apply map2_ext. intros; ring. }
    split; [now apply step_size_tensor_bounded|].
    split; [apply lookup_assign_same|].
    rewrite He. exact Hm'. }
  destruct (AdaBound.ams_bound g);
    [destruct (AdaBound.max_exp_avg_sq s1) as [mx|]; [|discriminate]|];
    (destruct (AdaBound.step_size_scalar g k) as [ss|x]; [|discriminate]);
    apply Hfin; reflexivity.
Qed.

Lemma adabound_example_update :
  exists st' p',
    AdaBound.update adabound_group_example scalars_example []
                    dense_param_example = (st', p', None).
Proof.
  unfold AdaBound.update, AdaBound.decay, AdaBound.step_size_scalar, py_div.
  simpl. decide_reals. eauto.
Qed.

Lemma adabound_update_bounded_witness :
  exists st' p' delta,
    AdaBound.update adabound_group_example scalars_example []
                    dense_param_example = (st', p', None) /\
    p_data p' = map2 Rminus [1 * (1 - 0 * 1)] delta /\
    Forall (fun d => Rabs d <= 2 * (1 / 4)) delta.
Proof.
  destruct adabound_example_update as (st' & p' & Hu).
  assert (HG : Forall (fun x => Rabs x <= 1 / 4) [1 / 4]).
  { constructor; [|constructor]. rewrite Rabs_right; lra. }
  assert (H0 : Forall (fun x => Rabs x <= 1 / 4) [0]).
  { constructor; [|constructor]. rewrite Rabs_R0. lra. }
  destruct (adabound_update_bounded
              adabound_group_example scalars_example [] st'
              dense_param_example p' [1 / 4] [0] [0] _ (1 / 4)
              eq_refl eq_refl eq_refl eq_refl
              ltac:(simpl; lra) ltac:(simpl; lra) H0 HG Hu)
    as (delta & s' & Hd & Hb & _).
  exists st', p', delta. split; [exact Hu|]. split; [exact Hd | exact Hb].
Defined.

Lemma yogi_denominator_floor (v' : tensor) (bc2 eps : R) :
  0 < bc2 ->
  Forall (fun d => eps <= d) (add_scalar (div_scalar (sqrt_ v') bc2) eps).
Proof.
  intros Hb. unfold add_scalar, div_scalar, sqrt_. rewrite !map_map.
  apply Forall_forall. intros d Hd. apply in_map_iff in Hd.
  destruct Hd as (x & <- & _).
  pose proof (sqrt_pos x). pose proof (Rinv_0_lt_compat bc2 Hb).
  unfold Rdiv. nra.
Qed.

(** X18.  Yogi's loop body on a parameter with a complete state always
    completes, and its effect is bounded: with [beta1], [beta2] in
    [0, 1], a non-negative second moment, [bias_correction2_sq > 0],
    [eps > 0], and first moment and prepared gradient bounded by [G] in
    absolute value, every denominator is at least [eps], every element of
    the (weight-decayed) parameter moves by at most
    [|step_size| * G / eps], the new first moment is bounded by [G] and
    the new second moment is non-negative. *)
Theorem yogi_update_bounded
        (mx : bool) (g : Yogi.Group) (bc2 ss : R)
        (st : store Yogi.State) (p : Param) (gv0 m v : tensor) (G : R)
        (Hgrad : p_grad p = Some (mkGrad false gv0))
        (Hst : lookup (p_id p) st = Some (Yogi.mkState (Some m) (Some v)))
        (Hbeta1 : 0 <= fst (Yogi.betas g) <= 1)
        (Hbeta2 : 0 <= snd (Yogi.betas g) <= 1)
        (Hv : Forall (Rle 0) v)
        (Hbc2 : 0 < bc2)
        (Heps : 0 < Yogi.eps g)
        (HmG : Forall (fun x => Rabs x <= G) m)
        (HgG : Forall (fun x => Rabs x <= G)
                      (snd (Yogi.apply_weight_decay
                              (p_data p) (Yogi.maximize_gradient gv0 mx)
                              (Yogi.lr g) (Yogi.weight_decay g)
                              (Yogi.weight_decouple g)
                              (Yogi.fixed_decay g)))) :
  exists st' p' delta m' v',
    Yogi.update mx g bc2 ss st p = (st', p', None) /\
    p_data p'
    = map2 Rminus
           (fst (Yogi.apply_weight_decay
                   (p_data p) (Yogi.maximize_gradient gv0 mx)
                   (Yogi.lr g) (Yogi.weight_decay g)
                   (Yogi.weight_decouple g) (Yogi.fixed_decay g)))
           delta /\
    Forall (fun d => Rabs d <= Rabs ss * G / Yogi.eps g) delta /\
    lookup (p_id p) st' = Some (Yogi.mkState (Some m') (Some v')) /\
    Forall (fun x => Rabs x <= G) m' /\
    Forall (Rle 0) v'.
Proof.
  unfold Yogi.update, getitem. rewrite Hgrad, Hst. simpl g_values.
  simpl is_sparse.
  destruct (Yogi.apply_weight_decay _ _ _ _ _ _) as [pd gv].
  simpl in HgG |- *.
  destruct (Yogi.betas g) as [b1 b2]. simpl in Hbeta1, Hbeta2.
  pose proof (moving_average_bounded m gv b1 G Hbeta1 HmG HgG) as Hm'.
  pose proof (yogi_exp_avg_sq_nonneg v gv b2 Hbeta2 Hv) as Hv'.
  set (m' := add_ (mul_ m b1) gv (1 - b1)) in *.
  set (v' := Yogi.update_exp_avg_sq v (mul gv gv) b2) in *.
  set (den := add_scalar (div_scalar (sqrt_ v') bc2) (Yogi.eps g)).
  exists (assign (p_id p) (Yogi.mkState (Some m') (Some v')) st).
  eexists. exists (map (Rmult ss) (div_ m' den)), m', v'.
  split; [reflexivity|]. simpl.
  split; [unfold addcdiv_; apply map2_minus_scaled|].
  split.
  - unfold div_. rewrite map_map2.
    apply Forall_map2_both with (Q := fun a => Rabs a <= G)
                                (T := fun d => Yogi.eps g <= d).
    + exact Hm'.
    + apply yogi_denominator_floor. exact Hbc2.
    + intros a d Ha Hd.
      assert (Hdpos : 0 < d) by lra.
      assert (Hid : / d <= / Yogi.eps g)
        by (apply Rinv_le_contravar; lra).
      assert (Hidpos : 0 < / d) by (apply Rinv_0_lt_compat; lra).
      unfold Rdiv. rewrite !Rabs_mult. rewrite (Rabs_right (/ d)) by lra.
      pose proof (Rabs_pos ss). pose proof (Rabs_pos a).
      assert (Rabs a * / d <= G * / Yogi.eps g).
      { apply Rmult_le_compat; lra. }
      nra.
  - split; [apply lookup_assign_same|]. split; assumption.
Qed.

Lemma yogi_update_bounded_witness :
  exists st' p',
    0 < Yogi.eps (Yogi.mkGroup 1 (0, 0) 0 true false 1 1 None None []) /\
    Yogi.update false
                (Yogi.mkGroup 1 (0, 0) 0 true false 1 1 None None [])
                1 1
                [(0%nat, Yogi.mkState (Some [0]) (Some [1]))]
                dense_param_example
    = (st', p', None).
Proof.
  assert (HG : Forall (fun x => Rabs x <= 1 / 4) [1 / 4]).
  { constructor; [|constructor]. rewrite Rabs_right; lra. }
  assert (H0 : Forall (fun x => Rabs x <= 1 / 4) [0]).
  { constructor; [|constructor]. rewrite Rabs_R0. lra. }
  assert (Hw : Forall (fun x => Rabs x <= 1 / 4)
                 (snd (Yogi.apply_weight_decay
                         [1] (Yogi.maximize_gradient [1 / 4] false)
                         1 0 true false))).
  { unfold Yogi.apply_weight_decay.
    destruct (Req_dec_T 0 0); [exact HG | lra]. }
  assert (He : 0 < Yogi.eps (Yogi.mkGroup 1 (0, 0) 0 true false 1 1
                                          None None []))
    by (simpl; lra).
  destruct (yogi_update_bounded
              false (Yogi.mkGroup 1 (0, 0) 0 true false 1 1 None None [])
              1 1 [(0%nat, Yogi.mkState (Some [0]) (Some [1]))]
              dense_param_example [1 / 4] [0] [1] (1 / 4)
              eq_refl eq_refl ltac:(simpl; lra) ltac:(simpl; lra)
              ltac:(repeat constructor; lra) ltac:(lra) He H0 Hw)
    as (st' & p' & _ & _ & _ & Hu & _).
  exists st', p'. split; [exact He | exact Hu].
Defined.

(** ** Yogi's first call *)

Lemma yogi_init_param_keeps g st p st' e k s :
  Yogi.init_param g st p = (st', e) ->
  lookup k st = Some s -> Yogi.len0 s = false -> lookup k st' = Some s.
Proof.
  unfold Yogi.init_param, getitem. intros H Hk Hl.
  destruct (p_grad p) as [grad|]; [|inversion H; subst; exact Hk].
  destruct (is_sparse grad); [inversion H; subst; exact Hk|].
  destruct (Nat.eq_dec (p_id p) k) as [E|N].
  - rewrite E, Hk, Hl in H. inversion H; subst. exact Hk.
  - destruct (lookup (p_id p) st) as [s0|].
    + destruct (Yogi.len0 s0); inversion H; subst;
        rewrite ?lookup_assign_other by exact N; exact Hk.
    + simpl in H. inversion H; subst.
      rewrite !lookup_assign_other by exact N. exact Hk.
Qed.

(** X19.  [init_group] never overwrites accumulators that exist: a state
    entry that is not empty, for instance one restored before the first
    step, is the same after [init_group], whether it returns or raises. *)
Theorem yogi_init_group_keeps_state
        (g : Yogi.Group) (ps : list Param) (st st' : store Yogi.State)
        (e : option exn) (k : nat) (s : Yogi.State)
        (Hinit : Yogi.init_group g st ps = (st', e))
        (Hk : lookup k st = Some s)
        (Hfull : Yogi.len0 s = false) :
  lookup k st' = Some s.
Proof.
  revert st Hinit Hk.
  induction ps as [|p rest IH]; simpl; intros st Hinit Hk.
  - inversion Hinit; subst. exact Hk.
  - destruct (Yogi.init_param g st p) as [st1 e1] eqn:Ei.
    pose proof (yogi_init_param_keeps _ _ _ _ _ _ _ Ei Hk Hfull) as H1.
    destruct e1 as [x|]; [inversion Hinit; subst; exact H1|].
    eapply IH; eauto.
Qed.

Lemma yogi_init_group_keeps_state_witness :
  lookup 0%nat
    (fst (Yogi.init_group yogi_group_example
                          [(0%nat, Yogi.mkState (Some [7]) (Some [9]))]
                          [dense_param_example; sparse_param_example]))
  = Some (Yogi.mkState (Some [7]) (Some [9])).
Proof.
  destruct (Yogi.init_group yogi_group_example
                            [(0%nat, Yogi.mkState (Some [7]) (Some [9]))]
                            [dense_param_example; sparse_param_example])
    as [st' e] eqn:Ei.
  exact (yogi_init_group_keeps_state
           yogi_group_example [dense_param_example; sparse_param_example]
           [(0%nat, Yogi.mkState (Some [7]) (Some [9]))] st' e 0%nat
           (Yogi.mkState (Some [7]) (Some [9])) Ei eq_refl eq_refl).
Defined.

Lemma yogi_has_moments_full st k :
  yogi_has_moments st k ->
  exists s, lookup k st = Some s /\ Yogi.len0 s = false.
Proof. intros (m & v & H). eexists; split; [exact H | reflexivity]. Qed.

Lemma yogi_init_param_creates g st p st' gv :
  store_all yogi_entry_ok st ->
  p_grad p = Some (mkGrad false gv) ->
  Yogi.init_param g st p = (st', None) ->
  store_all yogi_entry_ok st' /\ yogi_has_moments st' (p_id p).
Proof.
  intros HJ Hg. unfold Yogi.init_param, getitem, yogi_has_moments.
  rewrite Hg. simpl.
  destruct (lookup (p_id p) st) as [s0|] eqn:El.
  - pose proof (store_all_lookup yogi_entry_ok _ _ _ HJ El) as Hs0.
    destruct (Yogi.len0 s0) eqn:Hl; intros H; inversion H; subst.
    + split.
      * apply store_all_assign; [exact HJ|]. right. simpl.
        split; discriminate.
      * rewrite lookup_assign_same. eauto.
    + split; [exact HJ|].
      destruct Hs0 as [Hc|[H1 H2]]; [congruence|].
      destruct s0 as [[m|] [v|]]; simpl in *; try congruence. eauto.
  - simpl. intros H; inversion H; subst. split.
    + apply store_all_assign.
      * apply store_all_assign; [exact HJ | now left].
      * right. simpl. split; discriminate.
    + rewrite lookup_assign_same. eauto.
Qed.

Lemma yogi_init_param_ok g st p st' e :
  store_all yogi_entry_ok st ->
  Yogi.init_param g st p = (st', e) -> store_all yogi_entry_ok st'.
Proof.
  intros HJ. unfold Yogi.init_param.
  destruct (p_grad p) as [[sp gv]|] eqn:Eg;
    [|intros H; inversion H; subst; exact HJ].
  destruct sp; [intros H; inversion H; subst; exact HJ|].
  simpl.
  destruct (store_all_getitem yogi_entry_ok Yogi.no_state (p_id p) st HJ)
    as [H0 _]; [now left|].
  destruct (getitem Yogi.no_state (p_id p) st) as [st0 s0]. simpl in H0.
  destruct (Yogi.len0 s0); intros H; inversion H; subst; [|exact H0].
  apply store_all_assign; [exact H0|]. right. simpl. split; discriminate.
Qed.

Lemma yogi_init_group_creates g ps :
  forall st st',
    store_all yogi_entry_ok st ->
    Yogi.init_group g st ps = (st', None) ->
    store_all yogi_entry_ok st' /\
    (forall k, yogi_has_moments st k -> yogi_has_moments st' k) /\
    (forall k, In k (grad_ids ps) -> yogi_has_moments st' k).
Proof.
  induction ps as [|p rest IH]; simpl; intros st st' HJ H.
  - inversion H; subst. repeat split; auto. intros k [].
  - destruct (Yogi.init_param g st p) as [st1 [x|]] eqn:Ei; [discriminate|].
    pose proof (yogi_init_param_ok _ _ _ _ _ HJ Ei) as HJ1.
    destruct (IH _ _ HJ1 H) as (HJ' & Hkeep & Hnew).
    assert (Hk1 : forall k, yogi_has_moments st k -> yogi_has_moments st1 k).
    { intros k (m & v & Hk). exists m, v.
      eapply yogi_init_param_keeps; [exact Ei | exact Hk | reflexivity]. }
    split; [exact HJ'|]. split; [auto|].
    intros k Hin. unfold grad_ids in Hin. simpl in Hin.
    destruct (p_grad p) as [[sp gv]|] eqn:Eg; [|now apply Hnew].
    destruct Hin as [<-|Hin]; [|now apply Hnew].
    apply Hkeep.
    destruct sp.
    + rewrite (yogi_sparse_raises_first g st p _ Eg eq_refl) in Ei.
      discriminate.
    + exact (proj2 (yogi_init_param_creates _ _ _ _ _ HJ Eg Ei)).
Qed.

Lemma yogi_update_completes mx g bc2 ss st p :
  (p_grad p <> None -> yogi_has_moments st (p_id p)) ->
  exists st' p',
    Yogi.update mx g bc2 ss st p = (st', p', None) /\
    (forall k, yogi_has_moments st k -> yogi_has_moments st' k).
Proof.
  intros Hm. unfold Yogi.update.
  destruct (p_grad p) as [grad|]; [|eauto].
  destruct (Hm ltac:(discriminate)) as (m & v & Hl).
  unfold getitem. rewrite Hl.
  destruct (Yogi.apply_weight_decay _ _ _ _ _ _) as [pd gv].
  destruct (Yogi.betas g) as [b1 b2]. simpl.
  eexists _, _. split; [reflexivity|].
  intros k Hk. unfold yogi_has_moments.
  destruct (Nat.eq_dec (p_id p) k) as [<-|N].
  - rewrite lookup_assign_same. eauto.
  - rewrite lookup_assign_other by exact N. exact Hk.
Qed.

Lemma yogi_step_params_completes mx g bc2 ss ps :
  forall st,
    (forall k, In k (grad_ids ps) -> yogi_has_moments st k) ->
    exists st' ps', Yogi.step_params mx g bc2 ss st ps = (st', ps', None).
Proof.
  induction ps as [|p rest IH]; simpl; intros st Hm; [eauto|].
  assert (Hp : p_grad p <> None -> yogi_has_moments st (p_id p)).
  { intros Hg. apply Hm. unfold grad_ids. simpl.
    destruct (p_grad p); [now left | congruence]. }
  destruct (yogi_update_completes mx g bc2 ss st p Hp)
    as (st1 & p1 & -> & Hkeep).
  destruct (IH st1) as (st2 & ps2 & ->); [|eauto].
  intros k Hin. apply Hkeep, Hm. unfold grad_ids in *. simpl.
  destruct (p_grad p); [now right | exact Hin].
Qed.

(** X20.  Yogi's first call on a group completes: when the group has no
    counter yet, no gradient is sparse, every state entry is empty or
    holds both moments, and the group scalars are computed for [t = 1],
    the group body returns with the counter at 1.  The missing-key
    failure of a late gradient cannot occur on the first call. *)
Theorem yogi_first_call_completes
        (mx : bool) (st : store Yogi.State) (g : Yogi.Group)
        (Hfirst : Yogi.gr_step g = None)
        (Hstore : store_all yogi_entry_ok st)
        (Hdense : forall p grad, In p (Yogi.params g) ->
                                 p_grad p = Some grad ->
                                 is_sparse grad = false)
        (Hscal : exists k, Yogi.scalars g 1 = Ok k) :
  exists st' g',
    Yogi.step_group mx st g = (st', g', None) /\
    Yogi.gr_step g' = Some 1%nat.
Proof.
  unfold Yogi.step_group. rewrite Hfirst.
  assert (Hinit : exists st1,
             Yogi.init_group g st (Yogi.params g) = (st1, None)).
  { clear Hscal Hfirst. revert st Hstore.
    induction (Yogi.params g) as [|p rest IH]; simpl; intros st HJ; [eauto|].
    destruct (Yogi.init_param g st p) as [st1 [x|]] eqn:Ei.
    - exfalso. revert Ei. unfold Yogi.init_param.
      destruct (p_grad p) as [grad|] eqn:Eg; [|discriminate].
      rewrite (Hdense p grad (or_introl eq_refl) Eg).
      destruct (getitem _ _ _) as [st0 s0].
      destruct (Yogi.len0 s0); discriminate.
    - apply IH.
      + intros q grad Hq. apply Hdense. now right.
      + eapply yogi_init_param_ok; eauto. }
  destruct Hinit as [st1 Hi]. rewrite Hi.
  destruct (yogi_init_group_creates _ _ _ _ Hstore Hi) as (_ & _ & Hnew).
  unfold Yogi.group_body.
  change (Yogi.scalars (Yogi.set_step g 1) 1) with (Yogi.scalars g 1).
  destruct Hscal as [[bc2 ss] ->].
  change (Yogi.params (Yogi.set_step g 1)) with (Yogi.params g).
  destruct (yogi_step_params_completes mx (Yogi.set_step g 1) bc2 ss
                                       (Yogi.params g) st1 Hnew)
    as (st2 & ps2 & ->).
  eexists _, _. split; reflexivity.
Qed.

Lemma yogi_first_call_completes_witness :
  exists st' g',
    Yogi.step_group false []
      (Yogi.mkGroup 1 (0, 0) 0 true false 1 0 None None
                    [dense_param_example])
    = (st', g', None) /\
    Yogi.gr_step g' = Some 1%nat.
Proof.
  apply yogi_first_call_completes.
  - reflexivity.
  - constructor.
  - intros p grad [<-|[]] H. inversion H. reflexivity.
  - destruct (yogi_scalars_ok
                (Yogi.mkGroup 1 (0, 0) 0 true false 1 0 None None
                              [dense_param_example]) 1)
      as (bc2 & ss & Hk); [simpl; lra | intros _; simpl; lra | eauto].
Defined.

(** ** The bounds under a learning-rate schedule *)

(** X21.  AdaBound's bounds follow the group's learning rate: when a
    schedule multiplies [lr] by [c], the next scalars have the same bias
    corrections and both bounds multiplied by [c]; and while [lr] still
    is the rate recorded at construction, the bounds are those of
    [final_lr] itself. *)
Theorem adabound_bounds_follow_lr
        (g : AdaBound.Group) (b : R) (t : nat) (k : AdaBound.Scalars) (c : R)
        (Hk : AdaBound.scalars g b t = Ok k) :
  AdaBound.scalars (adabound_with_lr g (c * AdaBound.lr g)) b t
  = Ok (AdaBound.mkScalars (AdaBound.bias_correction1 k)
                           (AdaBound.bias_correction2_sq k)
                           (c * AdaBound.lower_bound k)
                           (c * AdaBound.upper_bound k)) /\
  (AdaBound.lr g = b ->
   AdaBound.lower_bound k
   = AdaBound.final_lr g * (1 - 1 / (AdaBound.gamma g * INR t + 1)) /\
   AdaBound.upper_bound k
   = AdaBound.final_lr g * (1 + 1 / (AdaBound.gamma g * INR t))).
Proof.
  destruct (adabound_scalars_inv _ _ _ _ Hk)
    as (H1 & H2 & H3 & H4 & Hb & Hq1 & Hq2 & Hs).
  split.
  - unfold AdaBound.scalars, adabound_with_lr. simpl.
    destruct (AdaBound.betas g) as [b1 b2]. simpl in *.
    rewrite math_sqrt_ok by exact Hs.
    rewrite !py_div_ok by assumption.
    rewrite H1, H2, H3, H4. do 2 f_equal; unfold Rdiv; ring.
  - intros Hlr. rewrite H3, H4, Hlr. split; f_equal; field; exact Hb.
Qed.

Lemma adabound_bounds_follow_lr_witness :
  exists k k',
    AdaBound.scalars adabound_group_example 1 1 = Ok k /\
    AdaBound.scalars
      (adabound_with_lr adabound_group_example
                        (1 / 2 * AdaBound.lr adabound_group_example)) 1 1
    = Ok k' /\
    AdaBound.upper_bound k' = 1 / 2 * AdaBound.upper_bound k.
Proof.
  destruct (adabound_scalars_ok adabound_group_example 1 1)
    as [k Hk]; try (simpl; lra).
  destruct (adabound_bounds_follow_lr adabound_group_example 1 1 k (1 / 2) Hk)
    as [H _].
  exists k. eexists. split; [exact Hk|]. split; [exact H | reflexivity].
Defined.

(** ** Yogi: a gradient without accumulators *)

(** The loop body on a parameter that has a gradient but no state entry
    raises [KeyError] at [state['exp_avg']]; by then the gradient has gone
    through the maximize switch and the weight decay, and an empty state
    entry has been filed for the parameter. *)
Lemma yogi_update_without_state
      (mx : bool) (g : Yogi.Group) (bc2 ss : R)
      (st : store Yogi.State) (p : Param) (grad : Grad)
      (Hgrad : p_grad p = Some grad)
      (Hnew : lookup (p_id p) st = None) :
  let dec := Yogi.apply_weight_decay
               (p_data p) (Yogi.maximize_gradient (g_values grad) mx)
               (Yogi.lr g) (Yogi.weight_decay g)
               (Yogi.weight_decouple g) (Yogi.fixed_decay g) in
  Yogi.update mx g bc2 ss st p
  = (assign (p_id p) Yogi.no_state st,
     mkParam (p_id p) (fst dec) (Some (mkGrad (is_sparse grad) (snd dec))),
     Some KeyError).
Proof.
  intros dec. unfold Yogi.update, getitem. rewrite Hgrad, Hnew. fold dec.
  destruct dec as [pd gv]. destruct (Yogi.betas g) as [b1 b2]. reflexivity.
Qed.

Lemma yogi_step_params_app mx g bc2 ss ps1 ps2 :
  forall st,
    Yogi.step_params mx g bc2 ss st (ps1 ++ ps2) =
    match Yogi.step_params mx g bc2 ss st ps1 with
    | (st1, ps1', Some e) => (st1, ps1' ++ ps2, Some e)
    | (st1, ps1', None) =>
      match Yogi.step_params mx g bc2 ss st1 ps2 with
      | (st2, ps2', e) => (st2, ps1' ++ ps2', e)
      end
    end.
Proof.
  induction ps1 as [|p rest IH]; intros st; simpl.
  - destruct (Yogi.step_params mx g bc2 ss st ps2) as [[st2 ps2'] e].
    reflexivity.
  - destruct (Yogi.update mx g bc2 ss st p) as [[st1 p1] [x|]];
      [reflexivity|].
    rewrite IH.
    destruct (Yogi.step_params mx g bc2 ss st1 rest) as [[st2 r2] [x|]];
      [reflexivity|].
    destruct (Yogi.step_params mx g bc2 ss st2 ps2) as [[st3 ps3] e].
    reflexivity.
Qed.

(** X22.  On any call of Yogi's [step] after the first (the group has a
    counter), a parameter that has a dense gradient but no state entry
    makes the group body raise [KeyError], provided the betas are in
    [0, 1], the group scalars are computed and the parameters before it
    have dense gradients (or none) and, where they have one, their
    moments; the counter has been advanced by then. *)
Theorem yogi_late_gradient_raises
        (mx : bool) (st : store Yogi.State) (g : Yogi.Group) (n : nat)
        (ps1 ps2 : list Param) (p : Param) (grad : Grad)
        (Hlater : Yogi.gr_step g = Some n)
        (Hparams : Yogi.params g = ps1 ++ p :: ps2)
        (Hbefore : forall k, In k (grad_ids ps1) -> yogi_has_moments st k)
        (Hdense : forall q gr, In q (ps1 ++ [p]) -> p_grad q = Some gr ->
                               is_sparse gr = false)
        (Hgrad : p_grad p = Some grad)
        (Hnew : lookup (p_id p) st = None)
        (Hfresh : ~ In (p_id p) (grad_ids ps1))
        (Hscal : exists k, Yogi.scalars g (n + 1) = Ok k)
        (Hbeta1 : 0 <= fst (Yogi.betas g) <= 1)
        (Hbeta2 : 0 <= snd (Yogi.betas g) <= 1) :
  exists st' g',
    Yogi.step_group mx st g = (st', g', Some KeyError) /\
    Yogi.gr_step g' = Some (n + 1)%nat.
Proof.
  clear Hbeta1 Hbeta2.
  unfold Yogi.step_group, Yogi.group_body. rewrite Hlater.
  change (Yogi.scalars (Yogi.set_step g (n + 1)) (n + 1))
    with (Yogi.scalars g (n + 1)).
  destruct Hscal as [[bc2 ss] ->].
  change (Yogi.params (Yogi.set_step g (n + 1))) with (Yogi.params g).
  rewrite Hparams, yogi_step_params_app.
  destruct (yogi_step_params_completes mx (Yogi.set_step g (n + 1)) bc2 ss
                                       ps1 st Hbefore)
    as (st1 & ps1' & Hs).
  rewrite Hs. simpl.
  assert (Hnew1 : lookup (p_id p) st1 = None).
  { rewrite (yogi_step_params_frame _ _ _ _ _ _ _ _ _ _ Hs Hfresh).
    exact Hnew. }
  rewrite (yogi_update_without_state mx _ bc2 ss st1 p grad Hgrad Hnew1).
  eexists _, _. split; reflexivity.
Qed.

Lemma yogi_late_gradient_raises_witness :
  exists st' g',
    Yogi.step_group false []
      (Yogi.mkGroup 1 (0, 0) 0 true false 1 0 None (Some 1%nat)
                    [dense_param_example])
    = (st', g', Some KeyError) /\
    Yogi.gr_step g' = Some 2%nat.
Proof.
  apply (yogi_late_gradient_raises
           false []
           (Yogi.mkGroup 1 (0, 0) 0 true false 1 0 None (Some 1%nat)
                         [dense_param_example])
           1 [] [] dense_param_example (mkGrad false [1 / 4])).
  - reflexivity.
  - reflexivity.
  - intros k [].
  - intros q gr [<-|[]] H. inversion H. reflexivity.
  - reflexivity.
  - reflexivity.
  - intros [].
  - destruct (yogi_scalars_ok
                (Yogi.mkGroup 1 (0, 0) 0 true false 1 0 None (Some 1%nat)
                              [dense_param_example]) (1 + 1))
      as (bc2 & ss & Hk); [simpl; lra | intros _; simpl; lra | eauto].
  - simpl; lra.
  - simpl; lra.
Defined.

(** ** Yogi: how far the second moment moves *)

(** X23.  Yogi's second-moment update is additive and directed: with
    [beta2] in [0, 1], every element moves by at most [(1 - beta2) * g^2],
    upwards when it is below [g^2], downwards when it is above, and not
    at all when it equals [g^2]. *)
Theorem yogi_second_moment_move
        (v gv : tensor) (beta2 : R) (i : nat) (x : R)
        (Hbeta : 0 <= beta2 <= 1)
        (Hx : nth_error (Yogi.update_exp_avg_sq v (mul gv gv) beta2) i
              = Some x) :
  exists a y,
    nth_error v i = Some a /\ nth_error gv i = Some y /\
    Rabs (x - a) <= (1 - beta2) * (y * y) /\
    (a < y * y -> a <= x) /\
    (y * y < a -> x <= a) /\
    (a = y * y -> x = a).
Proof.
  revert Hx. unfold Yogi.update_exp_avg_sq, addcmul_, mul, sign_, sub.
  rewrite map2_plus_scaled.
  rewrite !map2_diag, (map2_map_r Rminus), map_map2, map2_map_r, map_map2.
  rewrite map2_map2_l, map2_map2_r.
  intros Hx. apply nth_error_map2 in Hx.
  destruct Hx as (a & y & Ha & Hy & ->).
  exists a, y. split; [exact Ha|]. split; [exact Hy|].
  pose proof (Rle_0_sqr y) as Hsq. unfold Rsqr in Hsq.
  unfold sign1.
  destruct (Rlt_dec (a - y * y) 0) as [H1|H1];
    [|destruct (Rlt_dec 0 (a - y * y)) as [H2|H2]];
    (split; [apply Rabs_le; split; nra|]);
    repeat split; intros; nra.
Qed.

Lemma yogi_second_moment_move_witness :
  exists x a y,
    nth_error (Yogi.update_exp_avg_sq [1] (mul [2] [2]) (1 / 2)) 0 = Some x /\
    nth_error [1] 0 = Some a /\ nth_error [2] 0 = Some y /\
    Rabs (x - a) <= (1 - 1 / 2) * (y * y).
Proof.
  assert (Hb : 0 <= 1 / 2 <= 1) by lra.
  destruct (yogi_second_moment_move [1] [2] (1 / 2) 0 _ Hb eq_refl)
    as (a & y & Ha & Hy & Hr & _).
  eexists _, a, y. split; [reflexivity|].
  split; [exact Ha|]. split; [exact Hy | exact Hr].
Defined.
